(** * Decision tree with the Gini criterion (hw5code.py)

    A shallow embedding of [find_best_split] and of the class [DecisionTree]
    ([_fit_node], [_predict_node], [fit], [predict]).

    Modelling conventions.
    - A number that the caller gives (a feature value, an entry of the sample
      matrix) is a rational ([Q]); two rationals are the same number when
      they are [Qeq]-equal, which is what [==], the hashing of dictionary
      keys and [np.unique] observe.  Infinities and NaN cannot be given.
    - A finite [float64] is the rational it denotes.  Every operation on
      [float64] values rounds its exact result to the nearest number of the
      binary64 format, ties to even ([rnd]); the two zeros are one number.
      The mean of two neighbours (line 41) can overflow, so a threshold is a
      [float64] value that may be infinite.  The gains are computed from
      counts and sums of labels and stay finite.
    - A numpy integer is a [Z]: sums of labels are taken without the wrap
      of 64-bit integers.  Positions in arrays are [nat], indices that the
      code computes by arithmetic are [Z] with Python's wrap of negative
      indices.
    - A Python exception is a value [Raise e] of the type [result].  The
      recursion of [_fit_node] is driven by a fuel argument, the number of
      nested calls that are allowed; [OutOfFuel] is the third outcome.  [fit]
      allows as many nested calls as there are labels, plus one, which is
      enough whenever every split leaves rows on both sides; the recursion
      limit of the interpreter is not part of the model.
    - A sample matrix is the list of its rows; the matrix without rows has
      no columns.
    - The node under construction is the Python dictionary the code writes
      into: a record of optional fields, threaded through [_fit_node]. *)

From Stdlib Require Import String.
From Stdlib Require Import List Bool Arith ZArith QArith Qround Qabs Qpower.
From Stdlib Require Import Lia Lqa.
From Stdlib Require Import Permutation Sorted SetoidList.
Import ListNotations.

Set Implicit Arguments.

(* ------------------------------------------------------------------ *)
(** ** Exceptions and results *)

Inductive exn : Set :=
  IndexError | KeyError | ValueError | TypeError | OverflowError.

Inductive result (A : Type) : Type :=
| Ok (a : A)
| Raise (e : exn)
| OutOfFuel.

Arguments Ok {A} a.
Arguments Raise {A} e.
Arguments OutOfFuel {A}.

Definition bind {A B : Type} (m : result A) (k : A -> result B) : result B :=
  match m with
  | Ok a => k a
  | Raise e => Raise e
  | OutOfFuel => OutOfFuel
  end.

Notation "x <- m ;; k" := (bind m (fun x => k))
  (at level 61, m at next level, right associativity).
Notation "' pat <- m ;; k" :=
  (bind m (fun x => match x with pat => k end))
  (at level 61, pat pattern, m at next level, right associativity).

Fixpoint mapM {A B : Type} (f : A -> result B) (l : list A) : result (list B) :=
  match l with
  | [] => Ok []
  | a :: l' => b <- f a ;; bs <- mapM f l' ;; Ok (b :: bs)
  end.

Fixpoint foldM {A S : Type} (f : A -> S -> result S) (l : list A) (s : S)
  : result S :=
  match l with
  | [] => Ok s
  | a :: l' => s' <- f a s ;; foldM f l' s'
  end.

(* ------------------------------------------------------------------ *)
(** ** The numpy operations the code uses *)

Definition Qltb (x y : Q) : bool := negb (Qle_bool y x).

(** [v[i]] with Python's treatment of a negative index. *)
Definition getitem {A : Type} (v : list A) (i : Z) : result A :=
  let n := Z.of_nat (length v) in
  let j := if (i <? 0)%Z then (i + n)%Z else i in
  if (j <? 0)%Z then Raise IndexError
  else match nth_error v (Z.to_nat j) with
       | Some a => Ok a
       | None => Raise IndexError
       end.

(** [v[idx]] for an array of integer indices. *)
Definition take {A : Type} (v : list A) (idx : list Z) : result (list A) :=
  mapM (getitem v) idx.

(** [v[mask]] for a boolean mask: the lengths must agree. *)
Fixpoint select {A : Type} (mask : list bool) (v : list A) : list A :=
  match mask, v with
  | b :: mask', a :: v' => if b then a :: select mask' v' else select mask' v'
  | _, _ => []
  end.

Definition mask_select {A : Type} (mask : list bool) (v : list A)
  : result (list A) :=
  if Nat.eqb (length mask) (length v) then Ok (select mask v)
  else Raise IndexError.

(** A stable sort by a rational key: [sorted(..., key=...)]; also the
    order in which [np.argsort] is taken to list equal keys. *)
Fixpoint insert_by {A : Type} (key : A -> Q) (a : A) (l : list A) : list A :=
  match l with
  | [] => [a]
  | b :: l' => if Qle_bool (key a) (key b) then a :: l
               else b :: insert_by key a l'
  end.

Definition sorted_by {A : Type} (key : A -> Q) (l : list A) : list A :=
  fold_right (insert_by key) [] l.

Definition argsort (v : list Q) : list nat :=
  sorted_by (fun i => nth i v 0) (seq 0 (length v)).

(** [np.unique v] sorts [v] and keeps one entry of each run of equal
    values: the distinct values in ascending order. *)
Fixpoint dedup (l : list Q) : list Q :=
  match l with
  | [] => []
  | a :: l' =>
      match l' with
      | [] => [a]
      | b :: _ => if Qeq_bool a b then dedup l' else a :: dedup l'
      end
  end.

Definition np_unique (v : list Q) : list Q := dedup (sorted_by (fun x => x) v).

(** The position of the first element equal to [u]. *)
Fixpoint first_index (u : Q) (v : list Q) : nat :=
  match v with
  | [] => 0
  | a :: v' => if Qeq_bool a u then 0 else S (first_index u v')
  end.

(** The second component of [np.unique(v, return_index=True)]. *)
Definition unique_index (v : list Q) : list nat :=
  map (fun u => first_index u v) (np_unique v).

Fixpoint cumsum_from (acc : Z) (l : list Z) : list Z :=
  match l with
  | [] => []
  | x :: l' => (acc + x)%Z :: cumsum_from (acc + x)%Z l'
  end.

Definition cumsum (l : list Z) : list Z := cumsum_from 0%Z l.

Definition np_sum (l : list Z) : Z := fold_right Z.add 0%Z l.

(** Elementwise binary operation on two arrays. *)
Fixpoint map2 {A B C : Type} (f : A -> B -> C) (l : list A) (m : list B)
  : list C :=
  match l, m with
  | a :: l', b :: m' => f a b :: map2 f l' m'
  | _, _ => []
  end.

(** [np.argmax]: the first position of the maximum; an empty array is an
    error. *)
Fixpoint argmax_from (best : Q) (bi i : nat) (l : list Q) : nat :=
  match l with
  | [] => bi
  | x :: l' => if Qltb best x then argmax_from x i (S i) l'
               else argmax_from best bi (S i) l'
  end.

Definition argmax (l : list Q) : result nat :=
  match l with
  | [] => Raise ValueError
  | x :: l' => Ok (argmax_from x 0%nat 1%nat l')
  end.

Definition np_max (l : list Q) : result Q :=
  match l with
  | [] => Raise ValueError
  | x :: l' => Ok (fold_left (fun m y => if Qltb m y then y else m) l' x)
  end.

Definition ZQ (z : Z) : Q := inject_Z z.
Definition NQ (n : nat) : Q := inject_Z (Z.of_nat n).

(* ------------------------------------------------------------------ *)
(** ** float64 *)

Definition pow2 (e : Z) : Q := 2 ^ e.

Arguments pow2 : simpl never.

(** The exponent of the largest power of two that is at most [q], for a
    positive [q]. *)
Definition ilog2 (q : Q) : Z :=
  let k := (Z.log2 (Qnum q) - Z.log2 (Zpos (Qden q)))%Z in
  if Qle_bool (pow2 k) q then k else (k - 1)%Z.

(** The nearest integer, the even one of two that are equally near. *)
Definition round_half_even (y : Q) : Z :=
  let f := Qfloor y in
  match Qcompare (y - inject_Z f) (1 # 2) with
  | Lt => f
  | Gt => (f + 1)%Z
  | Eq => if Z.even f then f else (f + 1)%Z
  end.

(** Rounding of a positive rational to 53 significant bits; below the
    smallest normal number the spacing is that of the subnormal numbers. *)
Definition rnd_pos (q : Q) : Q :=
  let e := Z.max (ilog2 q - 52) (-1074) in
  Qred (inject_Z (round_half_even (q / pow2 e)) * pow2 e).

(** The binary64 number nearest to [q], were the exponent unbounded
    above. *)
Definition rnd (q : Q) : Q :=
  match Qcompare q 0 with
  | Eq => 0
  | Gt => rnd_pos q
  | Lt => - rnd_pos (- q)
  end.

(** A rounded result of this size or more is an overflow. *)
Definition overflows (r : Q) : bool := Qle_bool (pow2 1024) (Qabs r).

(** The conversion of a number to [float64]: a number too large for the
    format is refused. *)
Definition to_float64 (q : Q) : result Q :=
  let r := rnd q in
  if overflows r then Raise OverflowError else Ok r.

Definition fadd (x y : Q) : Q := rnd (x + y).
Definition fsub (x y : Q) : Q := rnd (x - y).
Definition fmul (x y : Q) : Q := rnd (x * y).
Definition fdiv (x y : Q) : Q := rnd (x / y).

(** The quotient of two integer arrays: both are converted first. *)
Definition true_divide (a b : Z) : Q := fdiv (rnd (ZQ a)) (rnd (ZQ b)).

(** A [float64] value that may be infinite. *)
Inductive float64 : Type := Fin (q : Q) | PInf | NInf.

(** [(a + b) / 2] on two finite [float64] numbers. *)
Definition mean2 (a b : Q) : float64 :=
  let s := fadd a b in
  if overflows s then (if Qle_bool 0 s then PInf else NInf)
  else Fin (fdiv s 2).

(** [x < t] and [x >= t] for a number [x] and a threshold [t]. *)
Definition lt_float (x : Q) (t : float64) : bool :=
  match t with
  | Fin q => Qltb x q
  | PInf => true
  | NInf => false
  end.

Definition ge_float (x : Q) (t : float64) : bool :=
  match t with
  | Fin q => Qle_bool q x
  | PInf => false
  | NInf => true
  end.

(* ------------------------------------------------------------------ *)
(** ** find_best_split *)

(** [1 - p ** 2 - (1 - p) ** 2] *)
Definition H_of (p : Q) : Q :=
  fsub (fsub 1 (fmul p p)) (fmul (fsub 1 p) (fsub 1 p)).

Definition find_best_split (feature_vector : list Q) (target_vector : list Z)
  : result (list float64 * list Q * float64 * Q) :=
  feature_vector <- mapM to_float64 feature_vector ;;
  let sort_indexes := map Z.of_nat (argsort feature_vector) in
  feature_vector <- take feature_vector sort_indexes ;;
  target_vector <- take target_vector sort_indexes ;;
  let feature_vector_unique := np_unique feature_vector in
  let rolled_one_left := tl feature_vector_unique in
  let feature_vector_wo_last := removelast feature_vector_unique in
  let thresholds := map2 mean2 rolled_one_left feature_vector_wo_last in
  let unique_indexes_reversed := unique_index (rev feature_vector) in
  let unique_indexes :=
    map (fun i => (Z.of_nat (length feature_vector) - Z.of_nat i)%Z)
        unique_indexes_reversed in
  let length_left := removelast unique_indexes in
  p1_for_lefts <-
    take (cumsum target_vector) (map (fun l => (l - 1)%Z) length_left) ;;
  let p1 := map2 true_divide p1_for_lefts length_left in
  let HR_l := map H_of p1 in
  let length_rigth :=
    map (fun l => (Z.of_nat (length feature_vector) - l)%Z) length_left in
  let p1_for_rights :=
    map (fun s => (np_sum target_vector - s)%Z) p1_for_lefts in
  let p12 := map2 true_divide p1_for_rights length_rigth in
  let HR_r := map H_of p12 in
  let n := Z.of_nat (length target_vector) in
  let Qs :=
    map2 fsub
         (map2 fmul (map (fun l => true_divide (- l) n) length_left) HR_l)
         (map2 fmul (map (fun l => true_divide l n) length_rigth) HR_r) in
  i <- argmax Qs ;;
  threshold_best <- getitem thresholds (Z.of_nat i) ;;
  gini_best <- np_max Qs ;;
  Ok (thresholds, Qs, threshold_best, gini_best).

(* ------------------------------------------------------------------ *)
(** ** Sample matrices, dictionaries and counters *)

(** An entry of the sample matrix: a number, or a label that does not
    convert to one. *)
Inductive cell : Type := Real (q : Q) | Categ (s : string).

(** Equality of entries as Python's [==] and the hashing of keys see it. *)
Definition cell_eqb (a b : cell) : bool :=
  match a, b with
  | Real x, Real y => Qeq_bool x y
  | Categ s, Categ t => String.eqb s t
  | _, _ => false
  end.

(** The sample matrix is a list of rows; an [ndarray] is rectangular, so
    every row has the length of the first one, which is [shape[1]].  The
    matrix without rows is the array of shape [(0, 0)]. *)
Definition matrix : Type := list (list cell).

Definition shape1 (X : matrix) : nat :=
  match X with
  | [] => 0%nat
  | row :: _ => length row
  end.

(** [X[:, feature]] *)
Definition column (feature : nat) (X : matrix) : list cell :=
  map (fun row => nth feature row (Real 0)) X.

(** [np.array(v, dtype=np.float64)] on a column of the sample matrix, entry
    by entry: a label does not convert, nor does a number that is too
    large.  The result lists the numbers as they were given;
    [find_best_split] rounds them. *)
Definition as_float64 (v : list cell) : result (list Q) :=
  mapM (fun c => match c with
                 | Real q => _ <- to_float64 q ;; Ok q
                 | Categ _ => Raise ValueError
                 end) v.

Section Dict.
Variable K : Type.
Variable eqb : K -> K -> bool.

(** A dictionary keeps its keys in the order of their first insertion. *)
Fixpoint dict_get {V : Type} (d : list (K * V)) (k : K) : option V :=
  match d with
  | [] => None
  | (k', v) :: d' => if eqb k' k then Some v else dict_get d' k
  end.

Fixpoint counter_add (k : K) (c : list (K * Z)) : list (K * Z) :=
  match c with
  | [] => [(k, 1%Z)]
  | (k', n) :: c' => if eqb k' k then (k', (n + 1)%Z) :: c'
                     else (k', n) :: counter_add k c'
  end.

Definition Counter (xs : list K) : list (K * Z) :=
  fold_left (fun c k => counter_add k c) xs [].

(** [c.most_common(1)[0][0]]: the first key, in insertion order, of the
    largest count. *)
Definition most_common1 (c : list (K * Z)) : result K :=
  match c with
  | [] => Raise IndexError
  | kv :: c' =>
      Ok (fst (fold_left
                 (fun best kv' =>
                    if (snd best <? snd kv')%Z then kv' else best)
                 c' kv))
  end.

(** The distinct elements of a list. *)
Fixpoint nodup_by (l : list K) : list K :=
  match l with
  | [] => []
  | a :: l' => if existsb (eqb a) l' then nodup_by l' else a :: nodup_by l'
  end.
End Dict.

(** The number of distinct entries. *)
Definition n_unique (v : list cell) : nat := length (nodup_by cell_eqb v).

Definition is_real (c : cell) : bool :=
  match c with
  | Real _ => true
  | Categ _ => false
  end.

(** [len(np.unique(v))]: the entries are sorted first, and a number and a
    label do not compare. *)
Definition len_unique (v : list cell) : result nat :=
  if existsb is_real v && existsb (fun c => negb (is_real c)) v
  then Raise TypeError
  else Ok (n_unique v).

(** [np.isin(x, cs)] *)
Definition isin (x : cell) (cs : list cell) : bool := existsb (cell_eqb x) cs.

(* ------------------------------------------------------------------ *)
(** ** The tree *)

Inductive feature_type : Set := real | categorical.

Record DecisionTree : Type := {
  _feature_types : list feature_type;
  _max_depth : option Z;            (* [None] is [np.inf] *)
  _min_samples_split : option Z;
  _min_samples_leaf : option Z
}.

Inductive node_type : Set := terminal | nonterminal.

#[local] Unset Elimination Schemes.

(** The dictionary of a node; a key that is absent is [None]. *)
Inductive node : Type := Node {
  ntype : option node_type;
  nclass : option Z;
  feature_split : option nat;
  threshold : option float64;
  categories_split : option (list cell);
  left_child : option node;
  right_child : option node
}.

#[local] Set Elimination Schemes.

Definition empty_node : node := Node None None None None None None None.

Definition set_terminal (nd : node) (c : Z) : node :=
  Node (Some terminal) (Some c) (feature_split nd) (threshold nd)
       (categories_split nd) (left_child nd) (right_child nd).

Definition set_type (nd : node) (t : node_type) : node :=
  Node (Some t) (nclass nd) (feature_split nd) (threshold nd)
       (categories_split nd) (left_child nd) (right_child nd).

Definition set_feature_split (nd : node) (f : nat) : node :=
  Node (ntype nd) (nclass nd) (Some f) (threshold nd)
       (categories_split nd) (left_child nd) (right_child nd).

Definition set_threshold (nd : node) (t : float64) : node :=
  Node (ntype nd) (nclass nd) (feature_split nd) (Some t)
       (categories_split nd) (left_child nd) (right_child nd).

Definition set_categories_split (nd : node) (cs : list cell) : node :=
  Node (ntype nd) (nclass nd) (feature_split nd) (threshold nd)
       (Some cs) (left_child nd) (right_child nd).

Definition set_children (nd l r : node) : node :=
  Node (ntype nd) (nclass nd) (feature_split nd) (threshold nd)
       (categories_split nd) (Some l) (Some r).

(** What [threshold_best] holds: a number for a real feature, a list of
    categories for a categorical one. *)
Inductive split_value : Type := Thr (t : float64) | Cats (cs : list cell).

(** The four variables [feature_best], [threshold_best], [gini_best] and
    [split]; they are all [None] or all set. *)
Record best_split : Type := {
  feature_best : nat;
  threshold_best : split_value;
  gini_best : Q;
  split : list bool
}.

Definition lookup {A : Type} (e : exn) (o : option A) : result A :=
  match o with
  | Some a => Ok a
  | None => Raise e
  end.

(** Lines 101-117: the ranks of the categories of a column. *)
Definition encode_categorical (col : list cell) (sub_y : list Z)
  : result (list (cell * nat) * list cell) :=
  let counts := Counter cell_eqb col in
  clicked <- mask_select (map (fun y => Z.eqb y 1) sub_y) col ;;
  let clicks := Counter cell_eqb clicked in
  let ratio :=
    map (fun kc : cell * Z =>
           let current_click :=
             match dict_get cell_eqb clicks (fst kc) with
             | Some c => c
             | None => 0%Z
             end in
           (fst kc, fdiv (ZQ current_click) (ZQ (snd kc)))) counts in
  let sorted_categories := map fst (sorted_by snd ratio) in
  let categories_map :=
    combine sorted_categories (seq 0 (length sorted_categories)) in
  feature_vector <-
    mapM (fun x => r <- lookup KeyError (dict_get cell_eqb categories_map x) ;;
                   Ok (Real (NQ r))) col ;;
  Ok (categories_map, feature_vector).

(** Lines 95-143: the body of the loop over the features. *)
Definition fit_feature (self : DecisionTree) (sub_X : matrix) (sub_y : list Z)
    (feature : nat) (best : option best_split) : result (option best_split) :=
  feature_type <- lookup IndexError (nth_error (_feature_types self) feature) ;;
  '(categories_map, feature_vector) <-
    match feature_type with
    | real => Ok ([], column feature sub_X)
    | categorical => encode_categorical (column feature sub_X) sub_y
    end ;;
  n <- len_unique feature_vector ;;
  if (n <=? 1)%nat then Ok best
  else
    fv <- as_float64 feature_vector ;;
    '(_, _, threshold, gini) <- find_best_split fv sub_y ;;
    left <- mask_select (map (fun v => lt_float v threshold) fv) sub_X ;;
    right <- mask_select (map (fun v => ge_float v threshold) fv) sub_X ;;
    let left_size := Z.of_nat (length left) in
    let right_size := Z.of_nat (length right) in
    let subtrees_are_valid :=
      match _min_samples_leaf self with
      | Some k => (k <=? left_size)%Z && (k <=? right_size)%Z
      | None => true
      end in
    if subtrees_are_valid
       && match best with
          | None => true
          | Some b => Qltb (gini_best b) gini
          end
    then
      Ok (Some {| feature_best := feature;
                  gini_best := gini;
                  split := map (fun v => lt_float v threshold) fv;
                  threshold_best :=
                    match feature_type with
                    | real => Thr threshold
                    | categorical =>
                        Cats (map fst
                                (filter (fun x => lt_float (NQ (snd x))
                                                           threshold)
                                        categories_map))
                    end |})
    else Ok best.

Definition continue_split_condition (self : DecisionTree) (sub_X : matrix)
    (depth : nat) : bool :=
  let below := match _max_depth self with
               | Some d => (Z.of_nat depth <? d)%Z
               | None => true
               end in
  match _min_samples_split self with
  | Some m => below && (m <=? Z.of_nat (length sub_X))%Z
  | None => below
  end.

(** Lines 157-164: the writes into the dictionary of an inner node.  The
    loop stored a number in [threshold_best] exactly when the feature is
    real, so the two other cases are not reached. *)
Definition set_nonterminal (self : DecisionTree) (nd : node) (b : best_split)
  : result node :=
  let nd := set_feature_split (set_type nd nonterminal) (feature_best b) in
  ft <- lookup IndexError (nth_error (_feature_types self) (feature_best b)) ;;
  match ft, threshold_best b with
  | real, Thr t => Ok (set_threshold nd t)
  | categorical, Cats cs => Ok (set_categories_split nd cs)
  | _, _ => Raise TypeError
  end.

(** Lines 88-143: the search of the best split over the features. *)
Definition search_split (self : DecisionTree) (sub_X : matrix)
    (sub_y : list Z) (depth : nat) : result (option best_split) :=
  if continue_split_condition self sub_X depth
  then foldM (fit_feature self sub_X sub_y) (seq 0 (shape1 sub_X)) None
  else Ok None.

Fixpoint _fit_node (fuel : nat) (self : DecisionTree) (sub_X : matrix)
    (sub_y : list Z) (nd : node) (depth : nat) {struct fuel} : result node :=
  match fuel with
  | O => OutOfFuel
  | S fuel' =>
      y0 <- getitem sub_y 0 ;;
      if forallb (fun y => Z.eqb y y0) sub_y then Ok (set_terminal nd y0)
      else
        best <- search_split self sub_X sub_y depth ;;
        let too_small :=
          match _min_samples_split self with
          | Some m => (Z.of_nat (length sub_X) <? m)%Z
          | None => false
          end in
        match best with
        | Some b =>
            if too_small then
              c <- most_common1 (Counter Z.eqb sub_y) ;; Ok (set_terminal nd c)
            else
              nd <- set_nonterminal self nd b ;;
              X_l <- mask_select (split b) sub_X ;;
              y_l <- mask_select (split b) sub_y ;;
              l <- _fit_node fuel' self X_l y_l empty_node (S depth) ;;
              X_r <- mask_select (map negb (split b)) sub_X ;;
              y_r <- mask_select (map negb (split b)) sub_y ;;
              r <- _fit_node fuel' self X_r y_r empty_node (S depth) ;;
              Ok (set_children nd l r)
        | None =>
            c <- most_common1 (Counter Z.eqb sub_y) ;; Ok (set_terminal nd c)
        end
  end.

Definition cell_lt (x : cell) (t : float64) : result bool :=
  match x with
  | Real q => Ok (lt_float q t)
  | Categ _ => Raise TypeError
  end.

Fixpoint _predict_node (self : DecisionTree) (x : list cell) (nd : node)
  : result Z :=
  match nd with
  | Node ty cl fs th cs lc rc =>
      ty <- lookup KeyError ty ;;
      match ty with
      | terminal => lookup KeyError cl
      | nonterminal =>
          feature <- lookup KeyError fs ;;
          ft <- lookup IndexError (nth_error (_feature_types self) feature) ;;
          match ft with
          | real =>
              v <- lookup IndexError (nth_error x feature) ;;
              t <- lookup KeyError th ;;
              b <- cell_lt v t ;;
              if b then
                match lc with
                | Some l => _predict_node self x l
                | None => Raise KeyError
                end
              else
                match rc with
                | Some r => _predict_node self x r
                | None => Raise KeyError
                end
          | categorical =>
              v <- lookup IndexError (nth_error x feature) ;;
              cats <- lookup KeyError cs ;;
              if isin v cats then
                match lc with
                | Some l => _predict_node self x l
                | None => Raise KeyError
                end
              else
                match rc with
                | Some r => _predict_node self x r
                | None => Raise KeyError
                end
          end
      end
  end.

(** [fit] works on the dictionary [self._tree]. *)
Definition fit (self : DecisionTree) (X : matrix) (y : list Z) (tree : node)
  : result node :=
  _fit_node (S (length y)) self X y tree 0.

Definition predict (self : DecisionTree) (X : matrix) (tree : node)
  : result (list Z) :=
  mapM (fun x => _predict_node self x tree) X.

(* ------------------------------------------------------------------ *)
(** ** Notions used in the statements *)

(** A number that [np.array(..., dtype=np.float64)] accepts, and the array
    that line 28 makes of the numbers given. *)
Definition convertible (q : Q) : Prop := overflows (rnd q) = false.

Definition float64_array (fv : list Q) : list Q := map rnd fv.

(** The finite numbers of the binary64 format: a significand of at most 53
    bits at an exponent that is at least the one of the subnormal
    numbers. *)
Definition is_float (x : Q) : Prop :=
  exists m e : Z,
    (Z.abs m <= 2 ^ 53)%Z /\ (-1074 <= e)%Z /\ x == inject_Z m * pow2 e.

(** The order of the [float64] values. *)
Definition le_float64 (s t : float64) : Prop :=
  match s, t with
  | NInf, _ => True
  | _, PInf => True
  | Fin a, Fin b => a <= b
  | _, _ => False
  end.

(** The array after [feature_vector[sort_indexes]]. *)
Definition sorted_values (v : list Q) : list Q :=
  map (fun i => nth i v 0) (argsort v).

(** The number of entries that are at most [u]. *)
Definition count_le (u : Q) (v : list Q) : nat :=
  length (filter (fun x => Qle_bool x u) v).

(** The array after [target_vector[sort_indexes]]. *)
Definition sorted_targets (fv : list Q) (tv : list Z) : list Z :=
  map (fun i => nth i tv 0%Z) (argsort fv).

(** Line 41, on the array [U] of the distinct values. *)
Definition thresholds_of (U : list Q) : list float64 :=
  map2 mean2 (tl U) (removelast U).

(** Lines 46-64 for one distinct value [x]: the entry of [Qs] that the
    vectorised code computes for it, on the sorted arrays. *)
Definition gain_at (sf : list Q) (st : list Z) (x : Q) : Q :=
  let l := Z.of_nat (count_le x sf) in
  let s := np_sum (firstn (count_le x sf) st) in
  let n := Z.of_nat (length st) in
  let r := (Z.of_nat (length sf) - l)%Z in
  fsub (fmul (true_divide (- l) n) (H_of (true_divide s l)))
       (fmul (true_divide r n) (H_of (true_divide (np_sum st - s) r))).

(** The pairs of neighbours of a list. *)
Fixpoint adjacent (U : list Q) : list (Q * Q) :=
  match U with
  | [] => []
  | a :: U' =>
      match U' with
      | [] => []
      | b :: _ => (a, b) :: adjacent U'
      end
  end.

(** The means of the neighbours, as [float64] computes them. *)
Definition adjacent_means (U : list Q) : list float64 :=
  map (fun ab => mean2 (snd ab) (fst ab)) (adjacent U).

(** A feature vector with at least two distinct values. *)
Definition two_distinct (fv : list Q) : Prop :=
  exists a b, In a fv /\ In b fv /\ ~ a == b.

(** [U] lists the distinct values of [fv] in ascending order. *)
Definition distinct_sorted_values (fv U : list Q) : Prop :=
  StronglySorted Qlt U /\ forall x, InA Qeq x U <-> InA Qeq x fv.

(** The reference definition of the gain, in the words of the
    specification: [left = {x < t}], [right = {x >= t}],
    [H(S) = 1 - p1^2 - p0^2] with [p1], [p0] the fractions of the labels 1
    and 0 in [S], [Gain(t) = -(|left|/N) H(left) - (|right|/N) H(right)]. *)
Definition left_part (t : Q) (S : list (Q * Z)) : list (Q * Z) :=
  filter (fun p => Qltb (fst p) t) S.

Definition right_part (t : Q) (S : list (Q * Z)) : list (Q * Z) :=
  filter (fun p => Qle_bool t (fst p)) S.




(** The same definition with every operation rounded to [float64], the
    fraction of the label 0 taken as [1 - p1]. *)
Definition positives (S : list (Q * Z)) : Z :=
  Z.of_nat (length (filter (fun p => Z.eqb (snd p) 1) S)).

Definition H_f64 (S : list (Q * Z)) : Q :=
  H_of (true_divide (positives S) (Z.of_nat (length S))).

Definition Gain_f64 (fv : list Q) (tv : list Z) (t : Q) : Q :=
  let S := combine fv tv in
  let N := Z.of_nat (length S) in
  fsub (fmul (true_divide (- Z.of_nat (length (left_part t S))) N)
             (H_f64 (left_part t S)))
       (fmul (true_divide (Z.of_nat (length (right_part t S))) N)
             (H_f64 (right_part t S))).

Definition binary (tv : list Z) : Prop :=
  Forall (fun y => y = 0%Z \/ y = 1%Z) tv.

(** [i] is the first position of the maximum of [l]. *)
Definition is_first_max (l : list Q) (i : nat) : Prop :=
  (i < length l)%nat /\
  (forall j, (j < length l)%nat -> nth j l 0 <= nth i l 0) /\
  (forall j, (j < i)%nat -> nth j l 0 < nth i l 0).


Definition binary_samples (S : list (Q * Z)) : Prop :=
  Forall (fun p => snd p = 0%Z \/ snd p = 1%Z) S.

(** The test stored in an inner node, on a row: the feature [f] of type
    [ft] against the number or the categories [sv]. *)
Definition routes_left (ft : feature_type) (f : nat) (sv : split_value)
    (x : list cell) : bool :=
  match ft, sv with
  | real, Thr t =>
      match nth f x (Real 0) with
      | Real q => lt_float q t
      | Categ _ => false
      end
  | categorical, Cats cs => isin (nth f x (Real 0)) cs
  | _, _ => false
  end.

(** The same test read from the dictionary of a node, as [_predict_node]
    evaluates it on a row that has the feature. *)
Definition goes_left (self : DecisionTree) (nd : node) (x : list cell) : bool :=
  match feature_split nd with
  | Some f =>
      match nth_error (_feature_types self) f with
      | Some real =>
          match threshold nd with
          | Some t => routes_left real f (Thr t) x
          | None => false
          end
      | Some categorical =>
          match categories_split nd with
          | Some cs => routes_left categorical f (Cats cs) x
          | None => false
          end
      | None => false
      end
  | None => false
  end.

(** Every inner node of the tree sends at least [k] of the rows that reach
    it to each side. *)
Fixpoint leaf_sizes_ok (self : DecisionTree) (k : Z) (nd : node) (X : matrix)
    {struct nd} : Prop :=
  match nd with
  | Node ty _ _ _ _ lc rc =>
      match ty with
      | Some nonterminal =>
          match lc, rc with
          | Some l, Some r =>
              let X_l := filter (goes_left self nd) X in
              let X_r := filter (fun x => negb (goes_left self nd x)) X in
              (k <= Z.of_nat (length X_l))%Z /\
              (k <= Z.of_nat (length X_r))%Z /\
              leaf_sizes_ok self k l X_l /\ leaf_sizes_ok self k r X_r
          | _, _ => False
          end
      | _ => True
      end
  end.

(** The categories observed in a column, and those of them that a list
    [cs] of categories leaves to the right. *)
Definition observed_categories (col : list cell) : list cell :=
  nodup_by cell_eqb col.

Definition right_categories (col cs : list cell) : list cell :=
  filter (fun c => negb (isin c cs)) (observed_categories col).

Definition partitions_categories (col cs : list cell) : Prop :=
  cs <> [] /\ right_categories col cs <> [] /\
  (forall c, isin c cs = true -> isin c (right_categories col cs) = false) /\
  (forall c, isin c (observed_categories col) = true <->
             isin c cs = true \/ isin c (right_categories col cs) = true).

(** The keys of a dictionary are pairwise different. *)
Fixpoint distinct_keys (l : list cell) : bool :=
  match l with
  | [] => true
  | k :: l' => negb (isin k l') && distinct_keys l'
  end.

(** What the loop over the features keeps in its four variables. *)
Definition good_split (self : DecisionTree) (sub_X : matrix) (b : best_split)
  : Prop :=
  exists ft,
    nth_error (_feature_types self) (feature_best b) = Some ft /\
    match ft, threshold_best b with
    | real, Thr _ => True
    | categorical, Cats cs =>
        forall c, In c cs -> In c (column (feature_best b) sub_X)
    | _, _ => False
    end /\
    split b = map (routes_left ft (feature_best b) (threshold_best b)) sub_X /\
    forall k, _min_samples_leaf self = Some k ->
              (k <= Z.of_nat (length (select (split b) sub_X)))%Z /\
              (k <= Z.of_nat (length (select (map negb (split b)) sub_X)))%Z.

Definition good_best (self : DecisionTree) (sub_X : matrix)
    (best : option best_split) : Prop :=
  match best with
  | Some b => good_split self sub_X b
  | None => True
  end.

(** The order that a sort by [key] establishes. *)
Definition key_le {A : Type} (key : A -> Q) (a b : A) : Prop :=
  key a <= key b.

(** What a call of [_fit_node] that returns has done: it has written a
    terminal node, or it has chosen a split and built the two children from
    empty dictionaries. *)
Inductive fit_step (self : DecisionTree) (fuel : nat) (sub_X : matrix)
    (sub_y : list Z) (depth : nat) (nd t : node) : Prop :=
| step_terminal (c : Z) :
    t = set_terminal nd c -> fit_step self fuel sub_X sub_y depth nd t
| step_split (b : best_split) (nd' l r : node) :
    search_split self sub_X sub_y depth = Ok (Some b) ->
    set_nonterminal self nd b = Ok nd' ->
    length (split b) = length sub_X ->
    length (split b) = length sub_y ->
    _fit_node fuel self (select (split b) sub_X) (select (split b) sub_y)
              empty_node (S depth) = Ok l ->
    _fit_node fuel self (select (map negb (split b)) sub_X)
              (select (map negb (split b)) sub_y) empty_node (S depth)
    = Ok r ->
    t = set_children nd' l r ->
    fit_step self fuel sub_X sub_y depth nd t.

(** Two calls of [_fit_node] that differ only in the dictionary they write
    into. *)
Definition same_writes (self : DecisionTree) (nd nd' : node)
    (r r' : result node) : Prop :=
  match r, r' with
  | Ok t, Ok t' =>
      (exists c, t = set_terminal nd c /\ t' = set_terminal nd' c) \/
      (exists b m m' l r,
          set_nonterminal self nd b = Ok m /\
          set_nonterminal self nd' b = Ok m' /\
          t = set_children m l r /\ t' = set_children m' l r)
  | Raise e, Raise e' => e = e'
  | OutOfFuel, OutOfFuel => True
  | _, _ => False
  end.

(** The inputs that [fit] is meant for: a rectangular matrix with a declared
    type for each column, numbers in the real columns, as many labels as
    rows, and at least one row. *)
Definition rectangular (ncols : nat) (X : matrix) : Prop :=
  Forall (fun row => length row = ncols) X.

Definition well_formed (self : DecisionTree) (ncols : nat) (X : matrix)
    (y : list Z) : Prop :=
  rectangular ncols X /\
  (ncols <= length (_feature_types self))%nat /\
  (forall f row, nth_error (_feature_types self) f = Some real ->
                 In row X -> exists q, nth f row (Real 0) = Real q) /\
  length X = length y /\
  y <> [].

(* ------------------------------------------------------------------ *)
(** ** The constructor and [get_params] *)

(** The names of the feature types as the caller writes them. *)
Definition feature_type_of_name (x : string) : feature_type :=
  if String.eqb x "real" then real else categorical.

Definition name_of_feature_type (ft : feature_type) : string :=
  match ft with
  | real => "real"%string
  | categorical => "categorical"%string
  end.

(** Lines 70-80.  The object is the record of its parameters together with
    the dictionary [_tree]; a type name that passes the test of line 73 is
    kept as the type it names. *)
Definition __init__ (feature_types : list string) (max_depth : option Z)
    (min_samples_split min_samples_leaf : option Z)
  : result (DecisionTree * node) :=
  if existsb (fun x => negb (String.eqb x "real")
                       && negb (String.eqb x "categorical")) feature_types
  then Raise ValueError
  else Ok ({| _feature_types := map feature_type_of_name feature_types;
              _max_depth := max_depth;
              _min_samples_split := min_samples_split;
              _min_samples_leaf := min_samples_leaf |},
           empty_node).

(** Lines 192-199: the dictionary of the four parameters. *)
Record params : Type := {
  p_feature_types : list string;
  p_max_depth : option Z;
  p_min_samples_split : option Z;
  p_min_samples_leaf : option Z
}.

Definition get_params (self : DecisionTree) : params :=
  {| p_feature_types := map name_of_feature_type (_feature_types self);
     p_max_depth := _max_depth self;
     p_min_samples_split := _min_samples_split self;
     p_min_samples_leaf := _min_samples_leaf self |}.

(* ------------------------------------------------------------------ *)
(** ** Further notions used in the statements *)

(** All the labels of a set of samples are the same. *)
Definition pure_samples (S : list (Q * Z)) : Prop :=
  forall p q, In p S -> In q S -> snd p = snd q.

(** The number of tests on the longest way from a node to a terminal node;
    only the keys that [_predict_node] reads count. *)
Fixpoint height (nd : node) : nat :=
  match nd with
  | Node ty _ _ _ _ lc rc =>
      match ty with
      | Some nonterminal =>
          match lc, rc with
          | Some l, Some r => S (Nat.max (height l) (height r))
          | _, _ => 1%nat
          end
      | _ => 0%nat
      end
  end.

(** A walk through the tree with the samples that reach each node:
    [Pin X y X_l y_l X_r y_r] holds at every inner node, for the samples
    [X], [y] that reach it and those that its test sends to the left and to
    the right; [Pleaf c X y] holds at every terminal node, for its class [c]
    and the samples that reach it. *)
Fixpoint forall_nodes (self : DecisionTree)
    (Pin : matrix -> list Z -> matrix -> list Z -> matrix -> list Z -> Prop)
    (Pleaf : Z -> matrix -> list Z -> Prop)
    (nd : node) (X : matrix) (y : list Z) {struct nd} : Prop :=
  match nd with
  | Node ty cl _ _ _ lc rc =>
      match ty with
      | Some nonterminal =>
          match lc, rc with
          | Some l, Some r =>
              let m := map (goes_left self nd) X in
              Pin X y (select m X) (select m y)
                  (select (map negb m) X) (select (map negb m) y) /\
              forall_nodes self Pin Pleaf l (select m X) (select m y) /\
              forall_nodes self Pin Pleaf r (select (map negb m) X)
                           (select (map negb m) y)
          | _, _ => False
          end
      | Some terminal =>
          match cl with
          | Some c => Pleaf c X y
          | None => False
          end
      | None => False
      end
  end.

(** How often the label [c] occurs in [y]. *)
Definition count_of (c : Z) (y : list Z) : nat := count_occ Z.eq_dec y c.

(** The condition of line 146 under which a split that was found is given
    up. *)
Definition too_small (self : DecisionTree) (sub_X : matrix) : bool :=
  match _min_samples_split self with
  | Some m => (Z.of_nat (length sub_X) <? m)%Z
  | None => false
  end.

(** The counter after the labels [seen]: its keys are the labels of [seen],
    in the order of their first occurrences, each with its number of
    occurrences. *)
Definition counts_of (c : list (Z * Z)) (seen : list Z) : Prop :=
  NoDup (map fst c) /\
  (forall k n, In (k, n) c -> In k seen /\ n = Z.of_nat (count_of k seen)) /\
  (forall k, In k seen -> In k (map fst c)) /\
  (forall ks1 k1 ks2 k2,
      map fst c = ks1 ++ k1 :: ks2 -> In k2 ks2 ->
      exists s1 s2, seen = s1 ++ k1 :: s2 /\ ~ In k2 s1).

(** [c] is a label of [y] that no label outnumbers. *)
Definition is_mode (c : Z) (y : list Z) : Prop :=
  In c y /\ forall c', (count_of c' y <= count_of c y)%nat.

(** A query row that [_predict_node] can route: it has the [ncols] columns
    and a number in every real one. *)
Definition well_formed_row (self : DecisionTree) (ncols : nat)
    (x : list cell) : Prop :=
  length x = ncols /\
  forall f, nth_error (_feature_types self) f = Some real ->
            exists q, nth f x (Real 0) = Real q.




(** The numbers among the entries of a column. *)
Definition numbers (col : list cell) : list Q :=
  flat_map (fun c => match c with
                     | Real q => [q]
                     | Categ _ => []
                     end) col.

(** Numbers that [float64] holds and tells apart: each is a finite number
    of the format, and the mean of two different ones, as line 41 computes
    it, is finite and above the smaller one. *)
Definition well_separated (fv : list Q) : Prop :=
  (forall q, In q fv -> is_float q /\ convertible q) /\
  (forall a b, In a fv -> In b fv -> a < b ->
               exists q, mean2 b a = Fin q /\ a < q).

(** A sample matrix whose real columns are well separated, with no more
    rows than [float64] counts exactly and halves. *)
Definition separated (self : DecisionTree) (X : matrix) : Prop :=
  (Z.of_nat (length X) <= 2 ^ 52)%Z /\
  forall f, nth_error (_feature_types self) f = Some real ->
            well_separated (numbers (column f X)).

(** The mask stored by the loop, if any, has rows on both sides. *)
Definition two_sided (best : option best_split) : Prop :=
  match best with
  | Some b => In true (split b) /\ In false (split b)
  | None => True
  end.

(** The split that the loop body proposes for one feature on its own: what
    it stores when nothing has been stored before. *)
Definition candidate (self : DecisionTree) (sub_X : matrix) (sub_y : list Z)
    (feature : nat) : result (option best_split) :=
  fit_feature self sub_X sub_y feature None.

(** How many entries of a column are the category [k]. *)
Definition count_cell (k : cell) (col : list cell) : Z :=
  Z.of_nat (length (filter (cell_eqb k) col)).

(** The share of the label 1 among the rows of the category [k]. *)
Definition positive_rate (col : list cell) (y : list Z) (k : cell) : Q :=
  ZQ (count_cell k (select (map (fun l => Z.eqb l 1) y) col))
  / ZQ (count_cell k col).

(** The same share as line 109 computes it: the quotient of the two counts,
    rounded to [float64]. *)
Definition positive_rate_f64 (col : list cell) (y : list Z) (k : cell) : Q :=
  fdiv (ZQ (count_cell k (select (map (fun l => Z.eqb l 1) y) col)))
       (ZQ (count_cell k col)).

(* ================================================================== *)
(** * Properties *)

Unset Implicit Arguments.

(** ** Results *)

Lemma bind_ok_inv {A B : Type} (m : result A) (k : A -> result B) (b : B) :
  bind m k = Ok b -> exists a, m = Ok a /\ k a = Ok b.
Proof.
  destruct m as [a| |]; simpl; intros H; try discriminate.
  exists a; split; [reflexivity | exact H].
Qed.

Ltac inv_bind H :=
  let a := fresh "a" in
  let Ha := fresh "Hm" in
  apply bind_ok_inv in H; destruct H as [a [Ha H]].

Lemma mapM_inv {A B : Type} (f : A -> result B) (l : list A) (l' : list B) :
  mapM f l = Ok l' -> Forall2 (fun a b => f a = Ok b) l l'.
Proof.
  revert l'; induction l as [|a l IH]; simpl; intros l' H.
  - injection H as <-; constructor.
  - inv_bind H. inv_bind H. injection H as <-.
    constructor; [assumption | now apply IH].
Qed.

Lemma mapM_ok {A B : Type} (f : A -> result B) (g : A -> B) (l : list A) :
  (forall a, In a l -> f a = Ok (g a)) -> mapM f l = Ok (map g l).
Proof.
  induction l as [|a l IH]; simpl; intros H; [reflexivity|].
  rewrite (H a) by now left. simpl.
  rewrite IH by (intros; apply H; now right). reflexivity.
Qed.

Lemma mapM_length {A B : Type} (f : A -> result B) (l : list A) (l' : list B) :
  mapM f l = Ok l' -> length l' = length l.
Proof.
  intros H; apply mapM_inv in H. symmetry; eapply Forall2_length; eassumption.
Qed.

Lemma mapM_fuel {A B : Type} (f : A -> result B) (l : list A) :
  (forall a, f a <> OutOfFuel) -> mapM f l <> OutOfFuel.
Proof.
  intros Hf; induction l as [|a l IH]; simpl; [discriminate|].
  specialize (Hf a). destruct (f a); simpl; try congruence.
  destruct (mapM f l); simpl; congruence.
Qed.

Lemma getitem_nat {A : Type} (v : list A) (i : nat) (d : A) :
  (i < length v)%nat -> getitem v (Z.of_nat i) = Ok (nth i v d).
Proof.
  intros Hi. unfold getitem.
  destruct (Z.of_nat i <? 0)%Z eqn:E; [apply Z.ltb_lt in E; lia|].
  rewrite E, Nat2Z.id.
  destruct (nth_error v i) eqn:En.
  - now rewrite (nth_error_nth _ _ d En).
  - apply nth_error_None in En; lia.
Qed.

Lemma getitem_nat_inv {A : Type} (v : list A) (i : nat) (a d : A) :
  getitem v (Z.of_nat i) = Ok a -> (i < length v)%nat /\ a = nth i v d.
Proof.
  unfold getitem.
  destruct (Z.of_nat i <? 0)%Z eqn:E; [apply Z.ltb_lt in E; lia|].
  rewrite E, Nat2Z.id.
  destruct (nth_error v i) eqn:En; intros H; [|discriminate].
  injection H as <-. split.
  - apply nth_error_Some; congruence.
  - now rewrite (nth_error_nth _ _ d En).
Qed.

Lemma getitem_fuel {A : Type} (v : list A) (i : Z) : getitem v i <> OutOfFuel.
Proof.
  unfold getitem. destruct (_ <? 0)%Z; [discriminate|].
  destruct (nth_error _ _); discriminate.
Qed.

Lemma take_ok {A : Type} (v : list A) (idx : list nat) (d : A) :
  (forall i, In i idx -> (i < length v)%nat) ->
  take v (map Z.of_nat idx) = Ok (map (fun i => nth i v d) idx).
Proof.
  intros H. unfold take.
  induction idx as [|i idx IH]; simpl; [reflexivity|].
  rewrite (getitem_nat v _ d) by (apply H; now left). simpl.
  rewrite IH by (intros; apply H; now right). reflexivity.
Qed.

Lemma take_inv {A : Type} (v : list A) (idx : list nat) (d : A) (l : list A) :
  take v (map Z.of_nat idx) = Ok l ->
  l = map (fun i => nth i v d) idx /\ (forall i, In i idx -> (i < length v)%nat).
Proof.
  unfold take. revert l; induction idx as [|i idx IH]; simpl; intros l H.
  - injection H as <-. split; [reflexivity | intros ? []].
  - inv_bind H. inv_bind H. injection H as <-.
    apply (getitem_nat_inv v i _ d) in Hm as [Hi ->].
    destruct (IH _ Hm0) as [-> Hall]. split; [reflexivity|].
    intros j [<-|Hj]; auto.
Qed.

Lemma select_map_filter {A : Type} (p : A -> bool) (l : list A) :
  select (map p l) l = filter p l.
Proof.
  induction l as [|a l IH]; simpl; [reflexivity|].
  destruct (p a); now rewrite IH.
Qed.

Lemma select_length_le {A : Type} (mask : list bool) (v : list A) :
  (length (select mask v) <= length v)%nat.
Proof.
  revert v; induction mask as [|b mask IH]; intros [|a v]; simpl; try lia.
  specialize (IH v). destruct b; simpl; lia.
Qed.

Lemma select_length_lt {A : Type} (mask : list bool) (v : list A) (b : bool) :
  length mask = length v -> In b mask ->
  (length (select (map (fun c => negb (Bool.eqb c b)) mask) v) < length v)%nat.
Proof.
  revert v; induction mask as [|c mask IH]; intros [|a v]; simpl;
    try discriminate; intros Hl Hin; [contradiction|].
  injection Hl as Hl. destruct Hin as [->|Hin].
  - rewrite Bool.eqb_reflx. simpl.
    pose proof (select_length_le (map (fun c => negb (Bool.eqb c b)) mask) v).
    lia.
  - specialize (IH v Hl Hin). destruct (negb (Bool.eqb c b)); simpl; lia.
Qed.

(** ** Comparisons of rationals *)

Lemma Qltb_lt (x y : Q) : Qltb x y = true <-> x < y.
Proof.
  unfold Qltb. rewrite negb_true_iff. split.
  - intros H. apply Qnot_le_lt. intros Hle.
    apply Qle_bool_iff in Hle. congruence.
  - intros H. destruct (Qle_bool y x) eqn:E; [|reflexivity].
    apply Qle_bool_iff in E. apply Qle_not_lt in E. contradiction.
Qed.

Lemma Qltb_ge (x y : Q) : Qltb x y = false <-> y <= x.
Proof.
  unfold Qltb. rewrite negb_false_iff. apply Qle_bool_iff.
Qed.

Lemma Qle_bool_false (x y : Q) : Qle_bool x y = false <-> y < x.
Proof.
  rewrite <- Qltb_lt. unfold Qltb. now rewrite negb_true_iff.
Qed.

Lemma Qeq_bool_false (x y : Q) : Qeq_bool x y = false <-> ~ x == y.
Proof.
  split.
  - intros H E. apply Qeq_bool_iff in E. congruence.
  - intros H. destruct (Qeq_bool x y) eqn:E; [|reflexivity].
    apply Qeq_bool_iff in E. contradiction.
Qed.

(** ** float64: rounding to the nearest number of the format *)

Lemma pow2_pos (e : Z) : 0 < pow2 e.
Proof. unfold pow2. apply Qpower_0_lt. reflexivity. Qed.

Lemma pow2_add (a b : Z) : pow2 (a + b) == pow2 a * pow2 b.
Proof. unfold pow2. apply Qpower_plus. discriminate. Qed.

Lemma pow2_sub (a b : Z) : pow2 (a - b) == pow2 a / pow2 b.
Proof. unfold pow2. apply Qpower_minus. discriminate. Qed.

Lemma pow2_le (a b : Z) : (a <= b)%Z -> pow2 a <= pow2 b.
Proof. intros H. unfold pow2. apply Qpower_le_compat_l; [assumption | discriminate]. Qed.

Lemma pow2_lt (a b : Z) : (a < b)%Z -> pow2 a < pow2 b.
Proof. intros H. unfold pow2. apply Qpower_lt_compat_l; [assumption | reflexivity]. Qed.

Lemma pow2_lt_inv (a b : Z) : pow2 a < pow2 b -> (a < b)%Z.
Proof. intros H. apply (Qpower_lt_compat_l_inv 2); [exact H | reflexivity]. Qed.

Lemma pow2_Z (n : Z) : (0 <= n)%Z -> pow2 n == inject_Z (2 ^ n).
Proof. intros H. unfold pow2. now rewrite Zpower_Qpower. Qed.

Lemma pow2_succ (a : Z) : pow2 (a + 1) == 2 * pow2 a.
Proof. rewrite pow2_add. unfold pow2 at 2. simpl. ring. Qed.

Lemma pow2_0 : pow2 0 == 1.
Proof. reflexivity. Qed.

(** [ilog2 q] is the exponent of the power of two at or just below [q]. *)
Lemma ilog2_spec (q : Q) :
  0 < q -> pow2 (ilog2 q) <= q /\ q < pow2 (ilog2 q + 1).
Proof.
  intros Hq. unfold ilog2.
  destruct q as [n d]. cbn [Qnum Qden].
  assert (Hn : (0 < n)%Z).
  { unfold Qlt in Hq. simpl in Hq. lia. }
  set (a := Z.log2 n). set (b := Z.log2 (Z.pos d)).
  destruct (Z.log2_spec n Hn) as [Ha1 Ha2]. fold a in Ha1, Ha2.
  destruct (Z.log2_spec (Z.pos d) (Pos2Z.is_pos d)) as [Hb1 Hb2].
  fold b in Hb1, Hb2.
  assert (Ha0 : (0 <= a)%Z) by apply Z.log2_nonneg.
  assert (Hb0 : (0 <= b)%Z) by apply Z.log2_nonneg.
  assert (Hup : n # d < pow2 (a - b + 1)).
  { replace (a - b + 1)%Z with (Z.succ a - b)%Z by lia.
    rewrite pow2_sub, (pow2_Z (Z.succ a)), (pow2_Z b) by lia.
    rewrite Qmake_Qdiv.
    apply Qlt_shift_div_l.
    - rewrite <- (pow2_Z b) by lia. apply pow2_pos.
    - unfold Qdiv. rewrite <- Qmult_assoc, (Qmult_comm (/ _)), Qmult_assoc.
      apply Qlt_shift_div_r; [reflexivity|].
      rewrite <- !inject_Z_mult. rewrite <- Zlt_Qlt. nia. }
  assert (Hlow : pow2 (a - b - 1) <= n # d).
  { replace (a - b - 1)%Z with (a - Z.succ b)%Z by lia.
    rewrite pow2_sub, (pow2_Z a), (pow2_Z (Z.succ b)) by lia.
    rewrite Qmake_Qdiv.
    apply Qle_shift_div_r.
    - rewrite <- (pow2_Z (Z.succ b)) by lia. apply pow2_pos.
    - unfold Qdiv. rewrite <- Qmult_assoc, (Qmult_comm (/ _)), Qmult_assoc.
      apply Qle_shift_div_l; [reflexivity|].
      rewrite <- !inject_Z_mult. rewrite <- Zle_Qle. nia. }
  destruct (Qle_bool (pow2 (a - b)) (n # d)) eqn:E.
  - apply Qle_bool_iff in E. split; assumption.
  - split; [assumption|].
    replace (a - b - 1 + 1)%Z with (a - b)%Z by lia.
    apply Qnot_le_lt. intros H. apply Qle_bool_iff in H. congruence.
Qed.

Lemma ilog2_unique (q : Q) (k : Z) :
  pow2 k <= q -> q < pow2 (k + 1) -> ilog2 q = k.
Proof.
  intros H1 H2.
  assert (Hq : 0 < q) by (eapply Qlt_le_trans; [apply pow2_pos | exact H1]).
  destruct (ilog2_spec q Hq) as [G1 G2].
  assert (ilog2 q < k + 1)%Z
    by (apply pow2_lt_inv; eapply Qle_lt_trans; eassumption).
  assert (k < ilog2 q + 1)%Z
    by (apply pow2_lt_inv; eapply Qle_lt_trans; eassumption).
  lia.
Qed.

Lemma ilog2_comp (x y : Q) : x == y -> 0 < x -> ilog2 x = ilog2 y.
Proof.
  intros E Hx. symmetry. apply ilog2_unique.
  - rewrite <- E. now apply ilog2_spec.
  - rewrite <- E. now apply ilog2_spec.
Qed.

(** ** Rounding to the nearest integer, ties to even *)

Lemma rhe_cases (y : Q) :
  let f := Qfloor y in
  inject_Z f <= y /\ y < inject_Z f + 1 /\
  ((round_half_even y = f /\ y - inject_Z f <= 1 # 2) \/
   (round_half_even y = (f + 1)%Z /\ 1 # 2 <= y - inject_Z f)).
Proof.
  intros f. pose proof (Qfloor_le y) as H1. pose proof (Qlt_floor y) as H2.
  fold f in H1, H2. rewrite inject_Z_plus in H2.
  split; [assumption|]. split; [assumption|].
  unfold round_half_even. fold f.
  destruct (Qcompare_spec (y - inject_Z f) (1 # 2)) as [E|E|E].
  - destruct (Z.even f); [left | right]; split; try reflexivity; lra.
  - left. split; [reflexivity | lra].
  - right. split; [reflexivity | lra].
Qed.

Lemma Qabs_le_abs (a b : Q) : a <= b \/ a <= - b -> - a <= b \/ - a <= - b ->
  Qabs a <= Qabs b.
Proof.
  intros H1 H2. apply Qabs_Qle_condition.
  pose proof (Qle_Qabs b) as B1. pose proof (Qle_Qabs (- b)) as B2.
  rewrite Qabs_opp in B2. split.
  - destruct H2; lra.
  - destruct H1; lra.
Qed.

Lemma rhe_nearest (y : Q) (z : Z) :
  Qabs (inject_Z (round_half_even y) - y) <= Qabs (inject_Z z - y).
Proof.
  destruct (rhe_cases y) as [H1 [H2 H]]. set (f := Qfloor y) in *.
  destruct (Z_le_gt_dec z f) as [Hz|Hz].
  - assert (inject_Z z <= inject_Z f) by now rewrite <- Zle_Qle.
    destruct H as [[-> H]|[-> H]]; rewrite ?inject_Z_plus;
      change (inject_Z 1) with 1; apply Qabs_le_abs; right; lra.
  - assert (H0 : inject_Z (f + 1) <= inject_Z z) by (rewrite <- Zle_Qle; lia).
    rewrite inject_Z_plus in H0. change (inject_Z 1) with 1 in H0.
    destruct H as [[-> H]|[-> H]]; rewrite ?inject_Z_plus;
      change (inject_Z 1) with 1; apply Qabs_le_abs; left; lra.
Qed.

Lemma rhe_comp (x y : Q) : x == y -> round_half_even x = round_half_even y.
Proof.
  intros E. unfold round_half_even.
  assert (F : Qfloor x = Qfloor y) by now rewrite E.
  rewrite F. now rewrite E.
Qed.

Lemma rhe_le (y : Q) (n : Z) : y <= inject_Z n -> (round_half_even y <= n)%Z.
Proof.
  intros Hy. destruct (rhe_cases y) as [H1 [H2 H]]. set (f := Qfloor y) in *.
  assert (Hf : (f <= n)%Z) by (rewrite Zle_Qle; lra).
  destruct H as [[-> H]|[-> H]]; [assumption|].
  destruct (Z.eq_dec f n) as [->|Hn]; [lra | lia].
Qed.

Lemma rhe_ge (y : Q) (n : Z) : inject_Z n <= y -> (n <= round_half_even y)%Z.
Proof.
  intros Hy. destruct (rhe_cases y) as [H1 [H2 H]]. set (f := Qfloor y) in *.
  assert (Hf : (n <= f)%Z).
  { unfold f. rewrite <- (Qfloor_Z n). now apply Qfloor_resp_le. }
  destruct H as [[-> H]|[-> H]]; lia.
Qed.

Lemma rhe_Z (n : Z) : round_half_even (inject_Z n) = n.
Proof.
  apply Z.le_antisymm; [apply rhe_le | apply rhe_ge]; apply Qle_refl.
Qed.

(** ** The binary64 numbers *)

Lemma is_float_comp (x y : Q) : x == y -> is_float x -> is_float y.
Proof.
  intros E [m [e [H1 [H2 H3]]]]. exists m, e.
  split; [assumption|]. split; [assumption|]. now rewrite <- E.
Qed.

Lemma is_float_opp (x : Q) : is_float x -> is_float (- x).
Proof.
  intros [m [e [H1 [H2 H3]]]]. exists (- m)%Z, e.
  split; [lia|]. split; [assumption|]. rewrite H3, inject_Z_opp. ring.
Qed.

Lemma is_float_0 : is_float 0.
Proof. exists 0%Z, 0%Z. split; [lia|]. split; [lia | ring]. Qed.

Lemma rnd_pos_eq (q : Q) :
  rnd_pos q ==
  inject_Z (round_half_even (q / pow2 (Z.max (ilog2 q - 52) (-1074))))
  * pow2 (Z.max (ilog2 q - 52) (-1074)).
Proof. unfold rnd_pos. apply Qred_correct. Qed.

Lemma Qabs_scale (a b c : Q) : 0 < c -> Qabs a <= Qabs b ->
  Qabs (a * c) <= Qabs (b * c).
Proof.
  intros Hc H. rewrite !Qabs_Qmult. rewrite (Qabs_pos c) by lra.
  apply Qmult_le_compat_r; [assumption | lra].
Qed.

(** On the grid of its exponent the rounded number is a nearest one. *)
Lemma rnd_pos_grid (q : Q) (z : Z) :
  Qabs (rnd_pos q - q)
  <= Qabs (inject_Z z * pow2 (Z.max (ilog2 q - 52) (-1074)) - q).
Proof.
  rewrite rnd_pos_eq. set (e := Z.max (ilog2 q - 52) (-1074)).
  pose proof (pow2_pos e) as He.
  pose proof (rhe_nearest (q / pow2 e) z) as H.
  apply (Qabs_scale _ _ (pow2 e) He) in H.
  assert (E : forall a, (a - q / pow2 e) * pow2 e == a * pow2 e - q)
    by (intros a; field; lra).
  now rewrite !E in H.
Qed.

Lemma rnd_pos_bounds (q : Q) :
  0 < q ->
  let e := Z.max (ilog2 q - 52) (-1074) in
  (0 <= round_half_even (q / pow2 e) <= 2 ^ 53)%Z.
Proof.
  intros Hq e. pose proof (pow2_pos e) as He.
  destruct (ilog2_spec q Hq) as [_ Hk]. split.
  - apply rhe_ge. apply Qle_shift_div_l; [assumption|].
    change (inject_Z 0) with 0. lra.
  - apply rhe_le. apply Qle_shift_div_r; [assumption|].
    rewrite <- (pow2_Z 53) by lia. rewrite <- pow2_add.
    apply Qlt_le_weak. eapply Qlt_le_trans; [exact Hk|].
    apply pow2_le. unfold e. lia.
Qed.

Lemma rnd_pos_float (q : Q) : 0 < q -> is_float (rnd_pos q).
Proof.
  intros Hq. pose proof (rnd_pos_bounds q Hq) as H. cbv zeta in H.
  exists (round_half_even (q / pow2 (Z.max (ilog2 q - 52) (-1074)))),
         (Z.max (ilog2 q - 52) (-1074)).
  split; [lia|]. split; [lia | apply rnd_pos_eq].
Qed.

Lemma rnd_pos_nonneg (q : Q) : 0 < q -> 0 <= rnd_pos q.
Proof.
  intros Hq. pose proof (rnd_pos_bounds q Hq) as [H _].
  rewrite rnd_pos_eq. apply Qmult_le_0_compat.
  - change 0 with (inject_Z 0). now rewrite <- Zle_Qle.
  - apply Qlt_le_weak, pow2_pos.
Qed.

(** Among all the numbers of the format the rounded number is a nearest
    one. *)
Lemma rnd_pos_nearest (q f : Q) :
  0 < q -> is_float f -> Qabs (rnd_pos q - q) <= Qabs (f - q).
Proof.
  intros Hq [m [e' [Hm [He' Hf]]]].
  set (e := Z.max (ilog2 q - 52) (-1074)).
  destruct (Qlt_le_dec 0 f) as [Hpos|Hneg].
  - destruct (Z_le_gt_dec e e') as [Hle|Hgt].
    + pose proof (rnd_pos_grid q (m * 2 ^ (e' - e))) as G. fold e in G.
      assert (E : inject_Z (m * 2 ^ (e' - e)) * pow2 e == f).
      { rewrite Hf, inject_Z_mult, <- (pow2_Z (e' - e)) by lia.
        rewrite <- Qmult_assoc, <- pow2_add.
        now replace (e' - e + e)%Z with e' by lia. }
      now rewrite E in G.
    + pose proof (rnd_pos_grid q (2 ^ 52)) as G. fold e in G.
      assert (Ee : e = (ilog2 q - 52)%Z) by (unfold e in *; lia).
      destruct (ilog2_spec q Hq) as [Hk _].
      assert (E : inject_Z (2 ^ 52) * pow2 e == pow2 (ilog2 q)).
      { rewrite <- (pow2_Z 52) by lia. rewrite <- pow2_add.
        now replace (52 + e)%Z with (ilog2 q) by lia. }
      rewrite E in G.
      assert (Hfk : f <= pow2 (ilog2 q)).
      { rewrite Hf.
        apply Qle_trans with (inject_Z (2 ^ 53) * pow2 e').
        - apply Qmult_le_compat_r; [|apply Qlt_le_weak, pow2_pos].
          rewrite <- Zle_Qle. lia.
        - rewrite <- (pow2_Z 53) by lia. rewrite <- pow2_add.
          apply pow2_le. lia. }
      eapply Qle_trans; [exact G|].
      apply Qabs_le_abs; right; lra.
  - pose proof (rnd_pos_grid q 0) as G. fold e in G.
    eapply Qle_trans; [exact G|].
    change (inject_Z 0) with 0.
    apply Qabs_le_abs; right; lra.
Qed.

Lemma rnd_pos_comp (x y : Q) : x == y -> 0 < x -> rnd_pos x = rnd_pos y.
Proof.
  intros E Hx. unfold rnd_pos. rewrite <- (ilog2_comp x y E Hx).
  apply Qred_complete.
  rewrite (rhe_comp (x / pow2 (Z.max (ilog2 x - 52) (-1074)))
                    (y / pow2 (Z.max (ilog2 x - 52) (-1074))))
    by (apply Qdiv_comp; [exact E | reflexivity]).
  reflexivity.
Qed.

(** ** Rounding of any rational *)

Lemma rnd_0 (q : Q) : q == 0 -> rnd q = 0.
Proof.
  intros E. unfold rnd. destruct (Qcompare_spec q 0); [reflexivity | lra | lra].
Qed.

Lemma rnd_gt (q : Q) : 0 < q -> rnd q = rnd_pos q.
Proof.
  intros H. unfold rnd. destruct (Qcompare_spec q 0); [lra | lra | reflexivity].
Qed.

Lemma rnd_lt (q : Q) : q < 0 -> rnd q = - rnd_pos (- q).
Proof.
  intros H. unfold rnd. destruct (Qcompare_spec q 0); [lra | reflexivity | lra].
Qed.

Lemma rnd_comp (x y : Q) : x == y -> rnd x = rnd y.
Proof.
  intros E. destruct (Q_dec x 0) as [[H|H]|H].
  - rewrite (rnd_lt x H), (rnd_lt y) by (rewrite <- E; exact H).
    f_equal. apply rnd_pos_comp; [now rewrite E | lra].
  - rewrite (rnd_gt x H), (rnd_gt y) by (rewrite <- E; exact H).
    now apply rnd_pos_comp.
  - rewrite (rnd_0 x H), (rnd_0 y) by (rewrite <- E; exact H). reflexivity.
Qed.

#[local] Instance rnd_proper : Proper (Qeq ==> Qeq) rnd.
Proof. intros x y E. now rewrite (rnd_comp x y E). Qed.

Lemma rnd_opp (q : Q) : rnd (- q) == - rnd q.
Proof.
  destruct (Q_dec q 0) as [[H|H]|H].
  - rewrite (rnd_lt q H), (rnd_gt (- q)) by lra. ring.
  - rewrite (rnd_gt q H), (rnd_lt (- q)) by lra.
    rewrite (rnd_pos_comp (- - q) q); [reflexivity | ring | lra].
  - rewrite (rnd_0 q H), (rnd_0 (- q)) by lra. reflexivity.
Qed.

Lemma rnd_float (q : Q) : is_float (rnd q).
Proof.
  destruct (Q_dec q 0) as [[H|H]|H].
  - rewrite (rnd_lt q H). apply is_float_opp, rnd_pos_float. lra.
  - rewrite (rnd_gt q H). now apply rnd_pos_float.
  - rewrite (rnd_0 q H). apply is_float_0.
Qed.

Lemma rnd_nearest (q f : Q) : is_float f -> Qabs (rnd q - q) <= Qabs (f - q).
Proof.
  intros Hf. destruct (Q_dec q 0) as [[H|H]|H].
  - rewrite (rnd_lt q H).
    assert (G : Qabs (rnd_pos (- q) - - q) <= Qabs (- f - - q))
      by (apply rnd_pos_nearest; [lra | now apply is_float_opp]).
    rewrite <- (Qabs_opp (- rnd_pos (- q) - q)), <- (Qabs_opp (f - q)).
    assert (E1 : - (- rnd_pos (- q) - q) == rnd_pos (- q) - - q) by ring.
    assert (E2 : - (f - q) == - f - - q) by ring.
    now rewrite E1, E2.
  - rewrite (rnd_gt q H). now apply rnd_pos_nearest.
  - rewrite (rnd_0 q H). rewrite H. apply Qabs_le_abs.
    + destruct (Qlt_le_dec 0 f); [left | right]; lra.
    + destruct (Qlt_le_dec 0 f); [left | right]; lra.
Qed.

(** A number of the format is its own rounding. *)
Lemma rnd_id (q : Q) : is_float q -> rnd q == q.
Proof.
  intros Hf. pose proof (rnd_nearest q q Hf) as H.
  assert (E : Qabs (q - q) == 0).
  { assert (E : q - q == 0) by ring. now rewrite E. }
  rewrite E in H. apply Qabs_Qle_condition in H. lra.
Qed.

(** Rounding keeps the order. *)
Lemma rnd_mono (x y : Q) : x <= y -> rnd x <= rnd y.
Proof.
  intros Hxy. destruct (Qlt_le_dec (rnd y) (rnd x)) as [Hlt|]; [|assumption].
  exfalso.
  pose proof (rnd_nearest x (rnd y) (rnd_float y)) as Hx.
  pose proof (rnd_nearest y (rnd x) (rnd_float x)) as Hy.
  assert (E : x == y).
  { apply Qabs_Qle_condition in Hx. apply Qabs_Qle_condition in Hy.
    pose proof (Qle_Qabs (rnd y - x)). pose proof (Qle_Qabs (- (rnd y - x))).
    pose proof (Qle_Qabs (rnd x - y)). pose proof (Qle_Qabs (- (rnd x - y))).
    rewrite Qabs_opp in *.
    destruct (Qlt_le_dec x y); [|lra]. exfalso.
    revert Hx Hy H H0 H1 H2.
    apply Qabs_case; intros; revert Hx Hy H0 H1 H2 H3;
      apply Qabs_case; intros; lra. }
  rewrite (rnd_comp x y E) in Hlt. lra.
Qed.

(** ** The stable sort *)

Section SortedBy.
Context {A : Type}.
Variable key : A -> Q.

Lemma insert_by_perm (a : A) (l : list A) :
  Permutation (insert_by key a l) (a :: l).
Proof.
  induction l as [|b l IH]; simpl; [reflexivity|].
  destruct (Qle_bool (key a) (key b)); [reflexivity|].
  rewrite IH. apply perm_swap.
Qed.

Lemma sorted_by_perm (l : list A) : Permutation (sorted_by key l) l.
Proof.
  induction l as [|a l IH]; simpl; [reflexivity|].
  rewrite insert_by_perm. now constructor.
Qed.

Lemma insert_by_sorted (a : A) (l : list A) :
  StronglySorted (key_le key) l -> StronglySorted (key_le key) (insert_by key a l).
Proof.
  induction 1 as [|b l Hs IH Hb]; simpl.
  - repeat constructor.
  - destruct (Qle_bool (key a) (key b)) eqn:E.
    + apply Qle_bool_iff in E. constructor.
      * now constructor.
      * constructor; [exact E|].
        rewrite Forall_forall in *. intros c Hc.
        unfold key_le in *. specialize (Hb c Hc). lra.
    + apply Qle_bool_false in E. constructor; [assumption|].
      rewrite Forall_forall in *. intros c Hc.
      apply (Permutation_in _ (insert_by_perm a l)) in Hc.
      destruct Hc as [<-|Hc]; unfold key_le in *; [lra | now apply Hb].
Qed.

Lemma sorted_by_sorted (l : list A) : StronglySorted (key_le key) (sorted_by key l).
Proof.
  induction l as [|a l IH]; simpl; [constructor | now apply insert_by_sorted].
Qed.

(** Sorting a sorted list leaves it as it is. *)
Lemma sorted_by_id (l : list A) :
  StronglySorted (key_le key) l -> sorted_by key l = l.
Proof.
  induction 1 as [|a l Hs IH Ha]; simpl; [reflexivity|].
  rewrite IH. destruct l as [|b l]; simpl; [reflexivity|].
  inversion Ha as [|? ? Hab _]; subst.
  apply Qle_bool_iff in Hab. now rewrite Hab.
Qed.
End SortedBy.

Lemma StronglySorted_map_key {A : Type} (key : A -> Q) (l : list A) :
  StronglySorted (key_le key) l -> StronglySorted Qle (map key l).
Proof.
  induction 1 as [|a l Hs IH Ha]; simpl; constructor; [assumption|].
  rewrite Forall_forall in *. intros x Hx.
  apply in_map_iff in Hx as [b [<- Hb]]. now apply Ha.
Qed.

Lemma map_nth_seq {A : Type} (v : list A) (d : A) :
  map (fun i => nth i v d) (seq 0 (length v)) = v.
Proof.
  apply (nth_ext _ _ d d).
  - now rewrite length_map, length_seq.
  - intros n Hn. rewrite length_map, length_seq in Hn.
    rewrite (nth_indep _ d (nth 0 v d)) by now rewrite length_map, length_seq.
    rewrite (map_nth (fun i => nth i v d)) at 1.
    rewrite seq_nth by assumption. reflexivity.
Qed.

Lemma argsort_perm (v : list Q) : Permutation (argsort v) (seq 0 (length v)).
Proof. apply sorted_by_perm. Qed.

Lemma argsort_bound (v : list Q) (i : nat) :
  In i (argsort v) -> (i < length v)%nat.
Proof.
  intros H. apply (Permutation_in _ (argsort_perm v)) in H.
  apply in_seq in H. lia.
Qed.

Lemma sorted_values_perm (v : list Q) : Permutation (sorted_values v) v.
Proof.
  unfold sorted_values.
  rewrite (Permutation_map _ (argsort_perm v)). now rewrite map_nth_seq.
Qed.

Lemma sorted_values_sorted (v : list Q) : StronglySorted Qle (sorted_values v).
Proof.
  unfold sorted_values, argsort.
  apply StronglySorted_map_key with (key := fun i => nth i v 0).
  apply sorted_by_sorted.
Qed.

(** ** Distinct values of a sorted array *)


Lemma dedup_cons2 (a b : Q) (l : list Q) :
  dedup (a :: b :: l) =
  if Qeq_bool a b then dedup (b :: l) else a :: dedup (b :: l).
Proof. reflexivity. Qed.

Lemma dedup_In (x : Q) (l : list Q) : In x (dedup l) -> In x l.
Proof.
  induction l as [|a l IH]; [simpl; tauto|].
  destruct l as [|b l]; [simpl; tauto|].
  rewrite dedup_cons2. destruct (Qeq_bool a b).
  - intros H. right. now apply IH.
  - intros [<-|H]; [now left | right; now apply IH].
Qed.

Lemma dedup_InA (x : Q) (l : list Q) : InA Qeq x (dedup l) <-> InA Qeq x l.
Proof.
  induction l as [|a l IH]; [simpl; tauto|].
  destruct l as [|b l]; [simpl; tauto|].
  rewrite dedup_cons2. destruct (Qeq_bool a b) eqn:E.
  - rewrite IH. apply Qeq_bool_iff in E. split; [now right|].
    intros H. apply InA_cons in H as [H|H]; [|assumption].
    left. rewrite H. exact E.
  - rewrite (InA_cons Qeq x a (dedup (b :: l))), IH.
    rewrite (InA_cons Qeq x a (b :: l)). tauto.
Qed.

Lemma dedup_sorted (l : list Q) :
  StronglySorted Qle l -> StronglySorted Qlt (dedup l).
Proof.
  induction 1 as [|a l Hs IH Ha]; [constructor|].
  destruct l as [|b l]; [repeat constructor|].
  rewrite dedup_cons2.
  destruct (Qeq_bool a b) eqn:E; [assumption|].
  apply Qeq_bool_false in E. constructor; [assumption|].
  rewrite Forall_forall in *. intros x Hx. apply dedup_In in Hx.
  inversion Hs as [|? ? _ Hb]; subst. rewrite Forall_forall in Hb.
  assert (a <= b) by (apply Ha; now left).
  assert (a < b) by (apply Qle_lt_or_eq in H as [H|H]; [assumption|tauto]).
  destruct Hx as [<-|Hx]; [assumption|].
  specialize (Hb x Hx). lra.
Qed.

Lemma np_unique_sorted_values (l : list Q) :
  StronglySorted Qle l -> np_unique l = dedup l.
Proof.
  intros H. unfold np_unique. now rewrite sorted_by_id.
Qed.

Lemma np_unique_sorted (v : list Q) : StronglySorted Qlt (np_unique v).
Proof.
  unfold np_unique. apply dedup_sorted.
  exact (sorted_by_sorted (fun x => x) v).
Qed.

Lemma Permutation_InA (x : Q) (l l' : list Q) :
  Permutation l l' -> InA Qeq x l -> InA Qeq x l'.
Proof.
  intros P H. apply InA_alt in H as [y [E Hy]].
  apply InA_alt. exists y; split; [assumption|].
  now apply (Permutation_in _ P).
Qed.

Lemma np_unique_InA (x : Q) (v : list Q) :
  InA Qeq x (np_unique v) <-> InA Qeq x v.
Proof.
  unfold np_unique. rewrite dedup_InA. split; apply Permutation_InA.
  - apply sorted_by_perm.
  - symmetry; apply sorted_by_perm.
Qed.

(** Two ascending lists of the same numbers are the same, number by number. *)
Lemma sorted_same_numbers (l l' : list Q) :
  StronglySorted Qlt l -> StronglySorted Qlt l' ->
  (forall x, InA Qeq x l <-> InA Qeq x l') -> Forall2 Qeq l l'.
Proof.
  intros Hl Hl' E. apply eqlistA_altdef.
  apply SortA_equivlistA_eqlistA with (ltA := Qlt).
  - exact Q_Setoid.
  - split; [intros x H; exact (Qlt_irrefl x H) | intros x y z; apply Qlt_trans].
  - exact Qlt_compat.
  - now apply StronglySorted_Sorted.
  - now apply StronglySorted_Sorted.
  - exact E.
Qed.

Lemma first_index_eq (u u' : Q) (v : list Q) :
  u == u' -> first_index u v = first_index u' v.
Proof.
  intros E. induction v as [|a v IH]; simpl; [reflexivity|].
  rewrite IH. now rewrite (Qeqb_comp a a (Qeq_refl a) u u' E).
Qed.

Lemma count_le_eq (u u' : Q) (v : list Q) :
  u == u' -> count_le u v = count_le u' v.
Proof.
  intros E. unfold count_le. f_equal. apply filter_ext.
  intros a. now rewrite (Qleb_comp a a (Qeq_refl a) u u' E).
Qed.

Lemma sorted_snoc_inv (l : list Q) (a : Q) :
  StronglySorted Qle (l ++ [a]) ->
  StronglySorted Qle l /\ Forall (fun x => x <= a) l.
Proof.
  induction l as [|b l IH]; simpl; intros H.
  - split; constructor.
  - inversion H as [|? ? Hs Hb]; subst. destruct (IH Hs) as [Hs' Hle].
    rewrite Forall_forall in Hb. split.
    + constructor; [assumption|]. rewrite Forall_forall. intros x Hx.
      apply Hb, in_or_app. now left.
    + constructor; [|assumption]. apply Hb, in_or_app. right; now left.
Qed.

(** In a sorted array the first occurrence of [u] from the end sits just
    after the entries that are at most [u]. *)
Lemma first_index_rev_sorted (u : Q) (l : list Q) :
  StronglySorted Qle l -> InA Qeq u l ->
  (first_index u (rev l) + count_le u l = length l)%nat.
Proof.
  unfold count_le. induction l as [|a l IH] using rev_ind; intros Hs Hin.
  - inversion Hin.
  - apply sorted_snoc_inv in Hs as [Hs Hle].
    rewrite rev_app_distr, filter_app, !length_app. simpl.
    destruct (Qeq_bool a u) eqn:E.
    + apply Qeq_bool_iff in E.
      assert (Ha : Qle_bool a u = true) by (apply Qle_bool_iff; lra).
      rewrite Ha. simpl. f_equal. f_equal. apply forallb_filter_id.
      apply forallb_forall. rewrite Forall_forall in Hle. intros x Hx.
      apply Qle_bool_iff. specialize (Hle x Hx). lra.
    + apply Qeq_bool_false in E.
      apply InA_app_iff in Hin as [Hin|Hin].
      * assert (u <= a).
        { apply InA_alt in Hin as [y [Ey Hy]]. rewrite Forall_forall in Hle.
          specialize (Hle y Hy). lra. }
        assert (Ha : Qle_bool a u = false).
        { apply Qle_bool_false. apply Qle_lt_or_eq in H as [H|H];
            [assumption | symmetry in H; contradiction]. }
        rewrite Ha. simpl. specialize (IH Hs Hin). lia.
      * apply InA_cons in Hin as [Hin|Hin]; [|inversion Hin].
        symmetry in Hin. contradiction.
Qed.

Lemma count_le_bound (u : Q) (v : list Q) : (count_le u v <= length v)%nat.
Proof. apply filter_length_le. Qed.

Lemma count_le_pos (u : Q) (v : list Q) :
  InA Qeq u v -> (1 <= count_le u v)%nat.
Proof.
  intros H. apply InA_alt in H as [y [E Hy]]. unfold count_le.
  assert (Hf : In y (filter (fun x => Qle_bool x u) v)).
  { apply filter_In. split; [assumption|]. apply Qle_bool_iff. lra. }
  destruct (filter _ v); [contradiction | simpl; lia].
Qed.

(** ** Cumulative sums *)

Lemma nth_cumsum_from (l : list Z) (acc : Z) (i : nat) :
  (i < length l)%nat ->
  nth i (cumsum_from acc l) 0%Z = (acc + np_sum (firstn (S i) l))%Z.
Proof.
  revert acc i; induction l as [|x l IH]; intros acc i Hi; simpl in *; [lia|].
  destruct i as [|i].
  - rewrite firstn_O. simpl. lia.
  - rewrite IH by lia. simpl. lia.
Qed.

Lemma cumsum_from_length (l : list Z) (acc : Z) :
  length (cumsum_from acc l) = length l.
Proof. revert acc; induction l; simpl; intros; [reflexivity | now rewrite IHl]. Qed.

Lemma getitem_cumsum (l : list Z) (k : nat) :
  (1 <= k <= length l)%nat ->
  getitem (cumsum l) (Z.of_nat k - 1) = Ok (np_sum (firstn k l)).
Proof.
  intros Hk. replace (Z.of_nat k - 1)%Z with (Z.of_nat (k - 1)) by lia.
  unfold cumsum. rewrite (getitem_nat _ _ 0%Z) by (rewrite cumsum_from_length; lia).
  rewrite nth_cumsum_from by lia.
  replace (S (k - 1)) with k by lia. reflexivity.
Qed.

(** ** The vectorised computation, entry by entry *)

Lemma removelast_map {A B : Type} (f : A -> B) (l : list A) :
  removelast (map f l) = map f (removelast l).
Proof.
  induction l as [|a l IH]; [reflexivity|].
  destruct l as [|b l]; [reflexivity|].
  change (f a :: removelast (map f (b :: l)) = f a :: map f (removelast (b :: l))).
  now rewrite IH.
Qed.

Lemma removelast_In {A : Type} (x : A) (l : list A) :
  In x (removelast l) -> In x l.
Proof.
  induction l as [|a l IH]; [tauto|].
  destruct l as [|b l]; [simpl; tauto|].
  change (In x (a :: removelast (b :: l)) -> In x (a :: b :: l)).
  intros [<-|H]; [now left | right; now apply IH].
Qed.

Lemma map2_map_same {A B C D : Type} (f : B -> C -> D) (g : A -> B)
    (h : A -> C) (l : list A) :
  map2 f (map g l) (map h l) = map (fun x => f (g x) (h x)) l.
Proof. induction l as [|a l IH]; simpl; [reflexivity | now rewrite IH]. Qed.

Lemma mapM_map {A B C : Type} (f : B -> result C) (h : A -> B) (l : list A) :
  mapM f (map h l) = mapM (fun x => f (h x)) l.
Proof. induction l as [|a l IH]; simpl; [reflexivity | now rewrite IH]. Qed.

Lemma Forall2_map_eq {A B C : Type} (R : A -> B -> Prop) (f : A -> C)
    (g : B -> C) (l : list A) (l' : list B) :
  Forall2 R l l' -> (forall a b, In b l' -> R a b -> f a = g b) ->
  map f l = map g l'.
Proof.
  induction 1 as [|a b l l' Hab _ IH]; intros H; simpl; [reflexivity|].
  rewrite (H a b) by (auto; now left).
  rewrite IH by (intros; apply H; auto; now right). reflexivity.
Qed.

Lemma In_InA_Q (x : Q) (l : list Q) : In x l -> InA Qeq x l.
Proof. intros H. apply InA_alt. exists x. split; [reflexivity | assumption]. Qed.

Lemma length_left_eq (sf : list Q) :
  StronglySorted Qle sf ->
  removelast (map (fun i => (Z.of_nat (length sf) - Z.of_nat i)%Z)
                  (unique_index (rev sf)))
  = map (fun u => Z.of_nat (count_le u sf)) (removelast (dedup sf)).
Proof.
  intros Hs. rewrite <- removelast_map. f_equal.
  unfold unique_index. rewrite map_map.
  apply Forall2_map_eq with (R := Qeq).
  - apply sorted_same_numbers.
    + apply np_unique_sorted.
    + now apply dedup_sorted.
    + intros x. rewrite np_unique_InA, dedup_InA.
      exact (@InA_rev _ Qeq x sf).
  - intros a b Hb E. rewrite (first_index_eq _ _ _ E).
    pose proof (first_index_rev_sorted b sf Hs) as F.
    rewrite <- F at 1.
    + lia.
    + apply In_InA_Q. now apply dedup_In.
Qed.

(** ** float64: signs, bounds and the mean of two numbers *)

Lemma rnd_zero : rnd 0 = 0.
Proof. reflexivity. Qed.

Lemma rnd_one : rnd 1 = 1.
Proof. vm_compute. reflexivity. Qed.

Lemma rnd_nonneg (x : Q) : 0 <= x -> 0 <= rnd x.
Proof. intros H. apply rnd_mono in H. now rewrite rnd_zero in H. Qed.

Lemma rnd_nonpos (x : Q) : x <= 0 -> rnd x <= 0.
Proof. intros H. apply rnd_mono in H. now rewrite rnd_zero in H. Qed.

Lemma rnd_le_1 (x : Q) : x <= 1 -> rnd x <= 1.
Proof. intros H. apply rnd_mono in H. now rewrite rnd_one in H. Qed.

Lemma rnd_ge_1 (x : Q) : 1 <= x -> 1 <= rnd x.
Proof. intros H. apply rnd_mono in H. now rewrite rnd_one in H. Qed.

Lemma rnd_idem (x : Q) : rnd (rnd x) == rnd x.
Proof. apply rnd_id, rnd_float. Qed.

Lemma is_float_double (x : Q) : is_float x -> is_float (x + x).
Proof.
  intros [m [e [H1 [H2 H3]]]]. exists m, (e + 1)%Z.
  split; [assumption|]. split; [lia|]. rewrite pow2_succ, H3. ring.
Qed.

Lemma overflows_false (r : Q) :
  overflows r = false <-> - pow2 1024 < r /\ r < pow2 1024.
Proof.
  unfold overflows. rewrite Qle_bool_false. apply Qabs_Qlt_condition.
Qed.

Lemma overflows_true (r : Q) :
  overflows r = true <-> r <= - pow2 1024 \/ pow2 1024 <= r.
Proof.
  destruct (overflows r) eqn:E.
  - split; [intros _ | reflexivity].
    destruct (Qlt_le_dec (- pow2 1024) r) as [H1|H1]; [|now left].
    destruct (Qlt_le_dec r (pow2 1024)) as [H2|H2]; [|now right].
    assert (F : overflows r = false) by (apply overflows_false; now split).
    congruence.
  - apply overflows_false in E as [H1 H2].
    split; [discriminate|]. intros [H|H]; lra.
Qed.

Lemma mean2_fin (a b q : Q) :
  mean2 a b = Fin q ->
  overflows (fadd a b) = false /\ q = fdiv (fadd a b) 2.
Proof.
  unfold mean2. destruct (overflows (fadd a b)).
  - destruct (Qle_bool 0 (fadd a b)); discriminate.
  - intros H; injection H as <-. now split.
Qed.

Lemma mean2_finite (a b : Q) :
  overflows (fadd a b) = false -> mean2 a b = Fin (fdiv (fadd a b) 2).
Proof. intros H. unfold mean2. now rewrite H. Qed.


Lemma le_float64_trans (s t u : float64) :
  le_float64 s t -> le_float64 t u -> le_float64 s u.
Proof.
  destruct s, t, u; simpl; auto; try contradiction. apply Qle_trans.
Qed.

(** The mean grows with the two numbers. *)
Lemma mean2_mono (a b a' b' : Q) :
  a <= a' -> b <= b' -> le_float64 (mean2 a b) (mean2 a' b').
Proof.
  intros Ha Hb.
  assert (Hs : fadd a b <= fadd a' b') by (apply rnd_mono; lra).
  pose proof (pow2_pos 1024) as Hp.
  unfold mean2.
  destruct (overflows (fadd a b)) eqn:E; destruct (overflows (fadd a' b')) eqn:E'.
  - destruct (Qle_bool 0 (fadd a b)) eqn:S; [|exact I].
    apply Qle_bool_iff in S.
    assert (Qle_bool 0 (fadd a' b') = true) as -> by (apply Qle_bool_iff; lra).
    exact I.
  - destruct (Qle_bool 0 (fadd a b)) eqn:S; [|exact I]. exfalso.
    apply Qle_bool_iff in S. apply overflows_true in E.
    apply overflows_false in E'. destruct E; lra.
  - destruct (Qle_bool 0 (fadd a' b')) eqn:S; [exact I|]. exfalso.
    apply Qle_bool_false in S. apply overflows_true in E'.
    apply overflows_false in E. destruct E'; lra.
  - simpl. apply rnd_mono. apply Qmult_le_compat_r; [assumption|].
    now compute.
Qed.

(** The mean of two numbers of the format lies between them when it is
    finite. *)
Lemma mean2_between (a b q : Q) :
  is_float a -> is_float b -> a <= b -> mean2 b a = Fin q -> a <= q <= b.
Proof.
  intros Fa Fb Hab H. apply mean2_fin in H as [_ ->]. unfold fdiv, fadd.
  assert (La : a + a <= rnd (b + a)).
  { rewrite <- (rnd_id (a + a)) by now apply is_float_double.
    apply rnd_mono. lra. }
  assert (Lb : rnd (b + a) <= b + b).
  { rewrite <- (rnd_id (b + b)) by now apply is_float_double.
    apply rnd_mono. lra. }
  split.
  - rewrite <- (rnd_id a Fa) at 1. apply rnd_mono.
    apply Qle_shift_div_l; [reflexivity | lra].
  - rewrite <- (rnd_id b Fb) at 2. apply rnd_mono.
    apply Qle_shift_div_r; [reflexivity | lra].
Qed.



(** ** float64: whole numbers *)

Lemma is_float_int (z : Z) : (Z.abs z <= 2 ^ 53)%Z -> is_float (inject_Z z).
Proof.
  intros H. exists z, 0%Z. split; [assumption|]. split; [lia|].
  rewrite pow2_0. ring.
Qed.

Lemma is_float_half (z : Z) :
  (Z.abs z <= 2 ^ 53)%Z -> is_float (inject_Z z / 2).
Proof.
  intros H. exists z, (-1)%Z. split; [assumption|]. split; [lia|].
  assert (E : pow2 (-1) == 1 # 2) by reflexivity. rewrite E. field.
Qed.

Lemma pow2_53_1024 : inject_Z (2 ^ 53) < pow2 1024.
Proof. rewrite <- (pow2_Z 53) by lia. apply pow2_lt. lia. Qed.

Lemma small_convertible (q : Q) :
  is_float q -> - inject_Z (2 ^ 53) <= q -> q <= inject_Z (2 ^ 53) ->
  convertible q.
Proof.
  intros F H1 H2. unfold convertible. apply overflows_false.
  pose proof (rnd_id q F) as E. pose proof pow2_53_1024 as P.
  split; lra.
Qed.

(** The mean of two whole numbers up to [2^52] is computed exactly. *)
Lemma mean2_int (a b : Z) :
  (0 <= a)%Z -> (a < b)%Z -> (b <= 2 ^ 52)%Z ->
  exists q, mean2 (inject_Z b) (inject_Z a) = Fin q /\ inject_Z a < q.
Proof.
  intros Ha Hab Hb.
  assert (B : (Z.abs (b + a) <= 2 ^ 53)%Z)
    by (change (2 ^ 53)%Z with (2 * 2 ^ 52)%Z; lia).
  assert (E : fadd (inject_Z b) (inject_Z a) == inject_Z (b + a)).
  { unfold fadd. rewrite (rnd_comp _ (inject_Z (b + a)))
      by (rewrite inject_Z_plus; reflexivity).
    now apply rnd_id, is_float_int. }
  assert (L0 : 0 <= inject_Z (b + a))
    by (change 0 with (inject_Z 0); rewrite <- Zle_Qle; lia).
  assert (L1 : inject_Z (b + a) <= inject_Z (2 ^ 53))
    by (rewrite <- Zle_Qle; lia).
  assert (L2 : inject_Z a < inject_Z b) by now rewrite <- Zlt_Qlt.
  pose proof pow2_53_1024 as P. pose proof (pow2_pos 1024) as P0.
  assert (O : overflows (fadd (inject_Z b) (inject_Z a)) = false)
    by (apply overflows_false; split; lra).
  rewrite (mean2_finite _ _ O). eexists. split; [reflexivity|].
  unfold fdiv.
  rewrite (rnd_comp _ (inject_Z (b + a) / 2))
    by (apply Qdiv_comp; [exact E | reflexivity]).
  rewrite (rnd_id _ (is_float_half _ B)), inject_Z_plus.
  unfold Qdiv. change (/ 2) with (1 # 2). clear -L2. lra.
Qed.

(** ** The conversion of the feature vector *)

Lemma to_float64_ok (q : Q) : convertible q -> to_float64 q = Ok (rnd q).
Proof. unfold convertible, to_float64. now intros ->. Qed.

Lemma to_float64_inv (q r : Q) :
  to_float64 q = Ok r -> r = rnd q /\ convertible q.
Proof.
  unfold to_float64, convertible. destruct (overflows (rnd q));
    [discriminate|]. intros H; injection H as <-. now split.
Qed.

Lemma to_float64_cases (q : Q) :
  to_float64 q = Ok (rnd q) \/ to_float64 q = Raise OverflowError.
Proof. unfold to_float64. destruct (overflows (rnd q)); auto. Qed.

Lemma mapM_to_float64_ok (fv : list Q) :
  Forall convertible fv -> mapM to_float64 fv = Ok (float64_array fv).
Proof.
  induction 1 as [|q fv Hq _ IH]; simpl; [reflexivity|].
  now rewrite (to_float64_ok q Hq), IH.
Qed.

Lemma mapM_to_float64_inv (fv fv' : list Q) :
  mapM to_float64 fv = Ok fv' ->
  fv' = float64_array fv /\ Forall convertible fv.
Proof.
  revert fv'; induction fv as [|q fv IH]; simpl; intros fv' H.
  - injection H as <-. split; [reflexivity | constructor].
  - inv_bind H. inv_bind H. injection H as <-.
    apply to_float64_inv in Hm as [-> Hq].
    destruct (IH _ Hm0) as [-> Hfv]. split; [reflexivity | now constructor].
Qed.


Lemma float64_array_length (fv : list Q) :
  length (float64_array fv) = length fv.
Proof. apply length_map. Qed.


(** ** The vectorised computation as a whole *)

Lemma find_best_split_eq (fv : list Q) (tv : list Z) :
  Forall convertible fv -> (length fv <= length tv)%nat ->
  find_best_split fv tv =
  let sf := sorted_values (float64_array fv) in
  let U := dedup sf in
  let Qs :=
    map (gain_at sf (sorted_targets (float64_array fv) tv)) (removelast U) in
  i <- argmax Qs ;;
  threshold_best <- getitem (thresholds_of U) (Z.of_nat i) ;;
  gini_best <- np_max Qs ;;
  Ok (thresholds_of U, Qs, threshold_best, gini_best).
Proof.
  intros Hc Hlen. unfold find_best_split.
  rewrite (mapM_to_float64_ok fv Hc). cbn [bind].
  pose proof (float64_array_length fv) as Hl.
  set (fv' := float64_array fv) in *.
  rewrite (take_ok fv' _ 0) by apply argsort_bound.
  rewrite (take_ok tv _ 0%Z)
    by (intros i Hi; apply argsort_bound in Hi; lia).
  cbn [bind]. fold (sorted_values fv'). fold (sorted_targets fv' tv).
  pose proof (sorted_values_sorted fv') as Hs.
  rewrite (np_unique_sorted_values _ Hs).
  rewrite (length_left_eq _ Hs).
  set (st := sorted_targets fv' tv).
  set (sf := sorted_values fv') in *.
  set (R := removelast (dedup sf)).
  assert (Ht : take (cumsum st)
                 (map (fun l => (l - 1)%Z)
                      (map (fun u => Z.of_nat (count_le u sf)) R))
               = Ok (map (fun u => np_sum (firstn (count_le u sf) st)) R)).
  { unfold take. rewrite map_map, mapM_map. apply mapM_ok.
    intros u Hu. apply getitem_cumsum.
    assert (length st = length sf).
    { unfold st, sf, sorted_targets, sorted_values. now rewrite !length_map. }
    split.
    - apply count_le_pos. apply In_InA_Q. apply dedup_In.
      now apply removelast_In.
    - rewrite H. apply count_le_bound. }
  rewrite Ht. cbn [bind].
  repeat (rewrite ?map_map, ?map2_map_same).
  reflexivity.
Qed.

Lemma find_best_split_lengths (fv : list Q) (tv : list Z)
    (out : list float64 * list Q * float64 * Q) :
  find_best_split fv tv = Ok out ->
  Forall convertible fv /\ (length fv <= length tv)%nat.
Proof.
  unfold find_best_split. intros H. inv_bind H.
  apply mapM_to_float64_inv in Hm as [-> Hc]. split; [assumption|].
  inv_bind H. inv_bind H.
  apply (take_inv tv _ 0%Z _) in Hm0 as [_ Hb].
  rewrite <- (float64_array_length fv).
  destruct (le_lt_dec (length (float64_array fv)) (length tv)) as [|Hlt];
    [assumption|].
  assert (Hin : In (length tv) (argsort (float64_array fv))).
  { apply (Permutation_in _ (Permutation_sym (argsort_perm _))).
    apply in_seq. lia. }
  apply Hb in Hin. lia.
Qed.

Lemma to_float64_fuel (q : Q) : to_float64 q <> OutOfFuel.
Proof. destruct (to_float64_cases q) as [-> | ->]; discriminate. Qed.

Lemma find_best_split_fuel (fv : list Q) (tv : list Z) :
  find_best_split fv tv <> OutOfFuel.
Proof.
  unfold find_best_split.
  destruct (mapM to_float64 fv) as [fv'| |] eqn:E0; simpl; try discriminate.
  2:{ exfalso. revert E0. apply mapM_fuel. intros; apply to_float64_fuel. }
  destruct (take fv' _) as [sf| |] eqn:E1; simpl; try discriminate.
  2:{ exfalso. revert E1. apply mapM_fuel. intros; apply getitem_fuel. }
  destruct (take tv _) as [st| |] eqn:E2; simpl; try discriminate.
  2:{ exfalso. revert E2. apply mapM_fuel. intros; apply getitem_fuel. }
  destruct (take (cumsum st) _) as [p| |] eqn:E3; simpl; try discriminate.
  2:{ exfalso. revert E3. apply mapM_fuel. intros; apply getitem_fuel. }
  destruct (argmax _) as [i| |] eqn:E4; simpl; try discriminate.
  2:{ destruct (map2 fsub _ _); discriminate. }
  destruct (getitem _ (Z.of_nat i)) as [t| |] eqn:E5; simpl; try discriminate.
  2:{ exfalso. revert E5. apply getitem_fuel. }
  destruct (np_max _) as [g| |] eqn:E6; simpl; try discriminate.
  destruct (map2 fsub _ _); discriminate.
Qed.

(** ** Thresholds and neighbours *)

Lemma thresholds_of_cons2 (a b : Q) (U : list Q) :
  thresholds_of (a :: b :: U) = mean2 b a :: thresholds_of (b :: U).
Proof. reflexivity. Qed.

Lemma removelast_cons2 {A : Type} (a b : A) (U : list A) :
  removelast (a :: b :: U) = a :: removelast (b :: U).
Proof. reflexivity. Qed.

Lemma adjacent_cons2 (a b : Q) (U : list Q) :
  adjacent (a :: b :: U) = (a, b) :: adjacent (b :: U).
Proof. reflexivity. Qed.

Lemma thresholds_adjacent (U : list Q) : thresholds_of U = adjacent_means U.
Proof.
  unfold adjacent_means.
  induction U as [|a U IH]; [reflexivity|].
  destruct U as [|b U]; [reflexivity|].
  rewrite thresholds_of_cons2, adjacent_cons2, IH. reflexivity.
Qed.

Lemma removelast_adjacent (U : list Q) : removelast U = map fst (adjacent U).
Proof.
  induction U as [|a U IH]; [reflexivity|].
  destruct U as [|b U]; [reflexivity|].
  rewrite removelast_cons2, adjacent_cons2, IH. reflexivity.
Qed.

Lemma adjacent_spec (U : list Q) (a b : Q) :
  StronglySorted Qlt U -> In (a, b) (adjacent U) ->
  a < b /\ In a U /\ In b U /\ forall x, In x U -> x <= a \/ b <= x.
Proof.
  induction 1 as [|c U Hs IH Hc]; [intros []|].
  destruct U as [|d U]; [intros []|].
  rewrite adjacent_cons2. rewrite Forall_forall in Hc.
  intros [E|Hin].
  - injection E as -> ->. repeat split.
    + apply Hc; now left.
    + now left.
    + right; now left.
    + intros x [<-|Hx]; [left; lra|].
      right. destruct Hx as [<-|Hx]; [lra|].
      inversion Hs as [|? ? _ Hd]; subst. rewrite Forall_forall in Hd.
      specialize (Hd x Hx). lra.
  - destruct (IH Hin) as [Hab [Ha [Hb Hx]]]. repeat split; auto.
    + now right.
    + now right.
    + intros x [<-|Hx']; [|now apply Hx].
      left. specialize (Hc a Ha). lra.
Qed.

Lemma adjacent_length (U : list Q) : length (adjacent U) = pred (length U).
Proof.
  induction U as [|a U IH]; [reflexivity|].
  destruct U as [|b U]; [reflexivity|].
  rewrite adjacent_cons2. simpl length in *. now rewrite IH.
Qed.

(** The thresholds ascend; two of them can be the same number. *)
Lemma thresholds_sorted (U : list Q) :
  StronglySorted Qlt U -> StronglySorted le_float64 (thresholds_of U).
Proof.
  induction 1 as [|a U Hs IH Ha]; [constructor|].
  destruct U as [|b U]; [constructor|].
  rewrite thresholds_of_cons2. constructor; [assumption|].
  rewrite Forall_forall in *. intros t Ht.
  rewrite thresholds_adjacent in Ht.
  apply in_map_iff in Ht as [[c d] [<- Hcd]]. simpl.
  destruct (adjacent_spec _ _ _ Hs Hcd) as [Hlt [Hc [Hd _]]].
  assert (a < b) by (apply Ha; now left).
  assert (b <= c).
  { destruct Hc as [<-|Hc]; [lra|].
    inversion Hs as [|? ? _ Hb]; subst. rewrite Forall_forall in Hb.
    specialize (Hb c Hc). lra. }
  apply mean2_mono; lra.
Qed.


(** A list of at least two distinct values has at least two entries once
    sorted and freed of repetitions. *)
Lemma two_distinct_dedup (fv : list Q) :
  two_distinct fv -> (2 <= length (dedup (sorted_values fv)))%nat.
Proof.
  intros [a [b [Ha [Hb Hab]]]].
  assert (Hin : forall x, In x fv -> InA Qeq x (dedup (sorted_values fv))).
  { intros x Hx. apply dedup_InA.
    apply (Permutation_InA _ _ _ (Permutation_sym (sorted_values_perm fv))).
    now apply In_InA_Q. }
  pose proof (Hin a Ha) as Ia. pose proof (Hin b Hb) as Ib.
  destruct (dedup (sorted_values fv)) as [|u [|u' U]].
  - inversion Ia.
  - exfalso. apply Hab.
    apply InA_cons in Ia as [Ia|Ia]; [|inversion Ia].
    apply InA_cons in Ib as [Ib|Ib]; [|inversion Ib].
    now rewrite Ia, Ib.
  - simpl; lia.
Qed.

(** ** The first maximum *)

Section Argmax.
Let pick (m y : Q) : Q := if Qltb m y then y else m.

Lemma argmax_from_spec (l pre : list Q) (bi : nat) :
  is_first_max pre bi ->
  is_first_max (pre ++ l) (argmax_from (nth bi pre 0) bi (length pre) l) /\
  fold_left pick l (nth bi pre 0)
  = nth (argmax_from (nth bi pre 0) bi (length pre) l) (pre ++ l) 0.
Proof.
  revert pre bi; induction l as [|x l IH]; intros pre bi Hm.
  - simpl. rewrite app_nil_r. split; [assumption | reflexivity].
  - destruct Hm as [Hb [Hmax Hfirst]].
    assert (E : pre ++ x :: l = (pre ++ [x]) ++ l)
      by now rewrite <- app_assoc.
    rewrite E. simpl. unfold pick at 2.
    destruct (Qltb (nth bi pre 0) x) eqn:C.
    + apply Qltb_lt in C.
      assert (Hx : nth (length pre) (pre ++ [x]) 0 = x)
        by now rewrite nth_middle.
      assert (Hm' : is_first_max (pre ++ [x]) (length pre)).
      { repeat split.
        - rewrite length_app; simpl; lia.
        - intros j Hj. rewrite Hx. rewrite length_app in Hj; simpl in Hj.
          destruct (Nat.eq_dec j (length pre)) as [->|Hn].
          + rewrite Hx. lra.
          + rewrite app_nth1 by lia. specialize (Hmax j). 
            assert (nth j pre 0 <= nth bi pre 0) by (apply Hmax; lia). lra.
        - intros j Hj. rewrite Hx, app_nth1 by lia.
          assert (nth j pre 0 <= nth bi pre 0) by (apply Hmax; lia). lra. }
      specialize (IH (pre ++ [x]) (length pre) Hm').
      rewrite Hx in IH. rewrite length_app in IH. simpl in IH.
      replace (length pre + 1)%nat with (S (length pre)) in IH by lia.
      exact IH.
    + apply Qltb_ge in C.
      assert (Hb' : nth bi (pre ++ [x]) 0 = nth bi pre 0)
        by now rewrite app_nth1.
      assert (Hm' : is_first_max (pre ++ [x]) bi).
      { repeat split.
        - rewrite length_app; simpl; lia.
        - intros j Hj. rewrite Hb'. rewrite length_app in Hj; simpl in Hj.
          destruct (Nat.eq_dec j (length pre)) as [->|Hn].
          + now rewrite nth_middle.
          + rewrite app_nth1 by lia. apply Hmax; lia.
        - intros j Hj. rewrite Hb', app_nth1 by lia. now apply Hfirst. }
      specialize (IH (pre ++ [x]) bi Hm').
      rewrite Hb' in IH. rewrite length_app in IH. simpl in IH.
      replace (length pre + 1)%nat with (S (length pre)) in IH by lia.
      exact IH.
Qed.

Lemma argmax_spec (l : list Q) (i : nat) :
  argmax l = Ok i -> is_first_max l i /\ np_max l = Ok (nth i l 0).
Proof.
  destruct l as [|x l]; [discriminate|]. simpl. intros H; injection H as <-.
  assert (Hm : is_first_max [x] 0).
  { repeat split; simpl; try lia.
    intros [|j] Hj; simpl in *; [lra | lia]. }
  destruct (argmax_from_spec l _ _ Hm) as [H1 H2]. simpl in H1, H2.
  split; [exact H1|]. f_equal. exact H2.
Qed.

Lemma argmax_returns (l : list Q) : l <> [] -> exists i, argmax l = Ok i.
Proof. destruct l; [congruence | intros _; eexists; reflexivity]. Qed.
End Argmax.

(** ** What find_best_split returns *)

Lemma find_best_split_inv (fv : list Q) (tv : list Z) (ths : list float64)
    (Qs : list Q) (tb : float64) (gb : Q) :
  find_best_split fv tv = Ok (ths, Qs, tb, gb) ->
  let fv' := float64_array fv in
  let U := dedup (sorted_values fv') in
  ths = thresholds_of U /\
  Qs = map (gain_at (sorted_values fv') (sorted_targets fv' tv))
           (removelast U) /\
  exists i, is_first_max Qs i /\ (i < length ths)%nat /\
            tb = nth i ths (Fin 0) /\ gb = nth i Qs 0.
Proof.
  intros H. pose proof (find_best_split_lengths _ _ _ H) as [Hc Hlen].
  rewrite (find_best_split_eq _ _ Hc Hlen) in H. cbv zeta in H.
  inv_bind H. inv_bind H. inv_bind H. injection H as <- <- <- <-.
  cbv zeta. repeat split.
  exists a. apply argmax_spec in Hm as [Hfirst Hmax].
  rewrite Hmax in Hm1. injection Hm1 as <-.
  apply (getitem_nat_inv _ _ _ (Fin 0)) in Hm0 as [Hi ->].
  repeat split; try assumption; apply Hfirst.
Qed.

Lemma thresholds_gains_length (U : list Q) (g : Q -> Q) :
  length (thresholds_of U) = length (map g (removelast U)).
Proof.
  rewrite thresholds_adjacent, removelast_adjacent. unfold adjacent_means.
  now rewrite !length_map.
Qed.

Lemma find_best_split_returns (fv : list Q) (tv : list Z) :
  Forall convertible fv -> (length fv <= length tv)%nat ->
  two_distinct (float64_array fv) ->
  exists ths Qs tb gb, find_best_split fv tv = Ok (ths, Qs, tb, gb).
Proof.
  intros Hc Hlen H2. rewrite (find_best_split_eq _ _ Hc Hlen). cbv zeta.
  set (U := dedup (sorted_values (float64_array fv))).
  set (Qs := map _ (removelast U)).
  assert (HQ : Qs <> []).
  { pose proof (two_distinct_dedup _ H2) as HU. fold U in HU.
    unfold Qs. rewrite removelast_adjacent.
    destruct U as [|a [|b U]]; simpl in HU; try lia.
    rewrite adjacent_cons2. discriminate. }
  destruct (argmax_returns _ HQ) as [i Hi]. rewrite Hi. cbn [bind].
  pose proof (argmax_spec _ _ Hi) as [[Hb _] Hmax].
  rewrite (getitem_nat _ _ (Fin 0))
    by (unfold Qs in Hb; erewrite thresholds_gains_length; exact Hb).
  cbn [bind]. rewrite Hmax. cbn [bind]. now do 4 eexists.
Qed.

(** The neighbours among the distinct sorted values of an array: they are
    entries of the array, and no entry lies between them. *)
Lemma neighbours_spec (fv : list Q) (a b : Q) :
  In (a, b) (adjacent (dedup (sorted_values fv))) ->
  In a fv /\ In b fv /\ a < b /\ forall x, In x fv -> x <= a \/ b <= x.
Proof.
  intros Hab.
  pose proof (dedup_sorted _ (sorted_values_sorted fv)) as HU.
  destruct (adjacent_spec _ _ _ HU Hab) as [Hlt [Ha [Hb Hx]]].
  assert (Hfv : forall x, In x (dedup (sorted_values fv)) -> In x fv).
  { intros x Hin. apply dedup_In in Hin.
    now apply (Permutation_in _ (sorted_values_perm fv)). }
  repeat split; auto.
  intros x Hin.
  assert (HA : InA Qeq x (dedup (sorted_values fv))).
  { apply dedup_InA.
    apply (Permutation_InA _ _ _ (Permutation_sym (sorted_values_perm fv))).
    now apply In_InA_Q. }
  apply InA_alt in HA as [y [E Hy]]. destruct (Hx y Hy); [left|right]; lra.
Qed.


Lemma distinct_sorted_dedup (fv : list Q) :
  distinct_sorted_values fv (dedup (sorted_values fv)).
Proof.
  split.
  - apply dedup_sorted, sorted_values_sorted.
  - intros x. rewrite dedup_InA. split; apply Permutation_InA.
    + apply sorted_values_perm.
    + symmetry; apply sorted_values_perm.
Qed.




(** ** The gains against the reference definition *)

Lemma Permutation_filter {A : Type} (f : A -> bool) (l l' : list A) :
  Permutation l l' -> Permutation (filter f l) (filter f l').
Proof.
  induction 1 as [|x l l' _ IH|x y l|l l' l'' _ IH1 _ IH2]; simpl.
  - constructor.
  - destruct (f x); [now constructor | assumption].
  - destruct (f x), (f y); try reflexivity. apply perm_swap.
  - now transitivity (filter f l').
Qed.

Lemma np_sum_perm (l l' : list Z) : Permutation l l' -> np_sum l = np_sum l'.
Proof.
  induction 1 as [|x l l' _ IH|x y l|l l' l'' _ IH1 _ IH2]; simpl; lia.
Qed.

Lemma combine_map_same {A B C : Type} (f : A -> B) (g : A -> C) (l : list A) :
  combine (map f l) (map g l) = map (fun i => (f i, g i)) l.
Proof. induction l as [|a l IH]; simpl; [reflexivity | now rewrite IH]. Qed.

Lemma combine_sorted_perm (fv : list Q) (tv : list Z) :
  length tv = length fv ->
  Permutation (combine (sorted_values fv) (sorted_targets fv tv))
              (combine fv tv).
Proof.
  intros Hlen. unfold sorted_values, sorted_targets.
  rewrite combine_map_same.
  rewrite (Permutation_map _ (argsort_perm fv)).
  rewrite <- combine_map_same. rewrite map_nth_seq.
  rewrite <- Hlen. rewrite map_nth_seq. reflexivity.
Qed.

Lemma filter_fst_combine_length {B : Type} (f : Q -> bool) (l : list Q)
    (m : list B) :
  length m = length l ->
  length (filter (fun p => f (fst p)) (combine l m)) = length (filter f l).
Proof.
  revert m; induction l as [|a l IH]; intros [|b m] H; simpl in *;
    try discriminate; [reflexivity|].
  injection H as H. destruct (f a); simpl; now rewrite IH.
Qed.

(** In a sorted array the entries that are at most [u] come first, so the
    cumulative sum sampled after them adds up exactly their labels. *)
Lemma sum_firstn_sorted (u : Q) (sf : list Q) (st : list Z) :
  StronglySorted Qle sf -> length st = length sf ->
  np_sum (firstn (count_le u sf) st)
  = np_sum (map snd (filter (fun p => Qle_bool (fst p) u) (combine sf st))).
Proof.
  unfold count_le. intros Hs; revert st.
  induction Hs as [|a sf Hs IH Ha]; intros [|y st] H; simpl in *;
    try discriminate; [reflexivity|].
  injection H as H. destruct (Qle_bool a u) eqn:E; simpl.
  - now rewrite IH.
  - apply Qle_bool_false in E. rewrite Forall_forall in Ha.
    assert (Hnil : forall (l : list (Q * Z)),
               (forall p, In p l -> In (fst p) sf) ->
               filter (fun p => Qle_bool (fst p) u) l = []).
    { induction l as [|p l IHl]; intros Hl; simpl; [reflexivity|].
      assert (Qle_bool (fst p) u = false) as ->.
      { apply Qle_bool_false. specialize (Ha (fst p) (Hl p (or_introl eq_refl))).
        lra. }
      apply IHl. intros q Hq. apply Hl. now right. }
    rewrite Hnil.
    + replace (filter (fun x => Qle_bool x u) sf) with (@nil Q);
        [reflexivity|].
      symmetry. clear -Ha E. induction sf as [|b sf IHs]; simpl; [reflexivity|].
      assert (Qle_bool b u = false) as ->.
      { apply Qle_bool_false. specialize (Ha b (or_introl eq_refl)). lra. }
      apply IHs. intros x Hx. apply Ha. now right.
    + intros [x z] Hp. simpl. eapply in_combine_l; eassumption.
Qed.

Lemma filter_split_length {A : Type} (f : A -> bool) (l : list A) :
  (length (filter f l) + length (filter (fun x => negb (f x)) l)
   = length l)%nat.
Proof.
  induction l as [|a l IH]; simpl; [reflexivity|].
  destruct (f a); simpl; lia.
Qed.

Lemma filter_split_sum (f : Q * Z -> bool) (l : list (Q * Z)) :
  (np_sum (map snd (filter f l))
   + np_sum (map snd (filter (fun x => negb (f x)) l))
   = np_sum (map snd l))%Z.
Proof.
  induction l as [|a l IH]; simpl; [reflexivity|].
  destruct (f a); simpl; lia.
Qed.

Lemma binary_counts (S : list (Q * Z)) :
  binary_samples S ->
  Z.of_nat (length (filter (fun p => Z.eqb (snd p) 1) S)) = np_sum (map snd S)
  /\ Z.of_nat (length (filter (fun p => Z.eqb (snd p) 0) S))
     = (Z.of_nat (length S) - np_sum (map snd S))%Z.
Proof.
  induction 1 as [|[x y] S Hy _ IH]; [split; reflexivity|].
  simpl in Hy. destruct IH as [IH1 IH0].
  destruct Hy as [-> | ->]; cbn -[Z.of_nat Z.add Z.sub];
    rewrite ?Nat2Z.inj_succ; fold (np_sum (map snd S)); split; lia.
Qed.

Lemma map_snd_combine {A B : Type} (l : list A) (m : list B) :
  length m = length l -> map snd (combine l m) = m.
Proof.
  revert m; induction l as [|a l IH]; intros [|b m] H; simpl in *;
    try discriminate; [reflexivity|].
  injection H as H. now rewrite IH.
Qed.

Lemma filter_length_lt {A : Type} (f : A -> bool) (l : list A) (x : A) :
  In x l -> f x = false -> (length (filter f l) < length l)%nat.
Proof.
  induction l as [|a l IH]; simpl; [tauto|].
  intros [->|Hin] Hx.
  - rewrite Hx. pose proof (filter_length_le f l). lia.
  - specialize (IH Hin Hx). destruct (f a); simpl; lia.
Qed.

Lemma binary_samples_combine (fv : list Q) (tv : list Z) :
  binary tv -> binary_samples (combine fv tv).
Proof.
  intros Hb. apply Forall_forall. intros [x y] Hp. simpl.
  apply in_combine_r in Hp. unfold binary in Hb.
  rewrite Forall_forall in Hb. now apply Hb.
Qed.

Lemma binary_samples_filter (f : Q * Z -> bool) (S : list (Q * Z)) :
  binary_samples S -> binary_samples (filter f S).
Proof.
  unfold binary_samples. rewrite !Forall_forall. intros H p Hp.
  apply filter_In in Hp as [Hp _]. now apply H.
Qed.


(** The entry of [Qs] computed for the distinct value [a] is the reference
    gain, in [float64], at every threshold above [a] and not above its
    successor [b]. *)
Lemma gain_at_ref (fv : list Q) (tv : list Z) (a b q : Q) :
  length tv = length fv -> binary tv ->
  In (a, b) (adjacent (dedup (sorted_values fv))) ->
  a < q -> q <= b ->
  gain_at (sorted_values fv) (sorted_targets fv tv) a = Gain_f64 fv tv q.
Proof.
  intros Hlen Hbin Hab Hm1 Hm2.
  pose proof (sorted_values_sorted fv) as Hs.
  pose proof (dedup_sorted _ Hs) as HU.
  destruct (adjacent_spec _ _ _ HU Hab) as [Hlt [Ha [Hb Hx]]].
  set (sf := sorted_values fv) in *.
  set (st := sorted_targets fv tv).
  assert (Hlsf : length sf = length fv)
    by apply (Permutation_length (sorted_values_perm fv)).
  assert (Hlst : length st = length sf)
    by (unfold st, sorted_targets, sf, sorted_values; now rewrite !length_map).
  pose proof (combine_sorted_perm fv tv Hlen) as HP. fold sf st in HP.
  set (P := combine fv tv) in *. set (Ps := combine sf st) in *.
  assert (Hside : forall x, In x sf -> x <= a \/ b <= x).
  { intros x Hin.
    assert (HA : InA Qeq x (dedup sf))
      by (apply dedup_InA; now apply In_InA_Q).
    apply InA_alt in HA as [y [E Hy]]. destruct (Hx y Hy); [left|right]; lra. }
  assert (HL : left_part q Ps = filter (fun p => Qle_bool (fst p) a) Ps).
  { apply filter_ext_in. intros [x y] Hp. simpl.
    apply in_combine_l in Hp. destruct (Hside x Hp) as [H|H].
    - assert (Qle_bool x a = true) as -> by now apply Qle_bool_iff.
      apply Qltb_lt. lra.
    - assert (Qle_bool x a = false) as -> by (apply Qle_bool_false; lra).
      apply Qltb_ge. lra. }
  assert (HR : right_part q Ps
               = filter (fun p => negb (Qle_bool (fst p) a)) Ps).
  { apply filter_ext_in. intros [x y] Hp. simpl.
    apply in_combine_l in Hp. destruct (Hside x Hp) as [H|H].
    - assert (Qle_bool x a = true) as -> by now apply Qle_bool_iff.
      apply Qle_bool_false. lra.
    - assert (Qle_bool x a = false) as -> by (apply Qle_bool_false; lra).
      apply Qle_bool_iff. lra. }
  assert (HlenL : length (left_part q P) = count_le a sf).
  { unfold left_part.
    rewrite <- (Permutation_length
                  (Permutation_filter (fun p => Qltb (fst p) q) _ _ HP)).
    fold (left_part q Ps). rewrite HL.
    unfold Ps.
    now rewrite (filter_fst_combine_length (fun x => Qle_bool x a)). }
  assert (HposL : np_sum (map snd (left_part q P))
                  = np_sum (firstn (count_le a sf) st)).
  { unfold left_part.
    rewrite <- (np_sum_perm _ _
                  (Permutation_map snd
                     (Permutation_filter (fun p => Qltb (fst p) q) _ _ HP))).
    fold (left_part q Ps). rewrite HL.
    symmetry. now apply sum_firstn_sorted. }
  assert (HlenR : (length (right_part q P) + count_le a sf = length sf)%nat).
  { unfold right_part.
    rewrite <- (Permutation_length
                  (Permutation_filter (fun p => Qle_bool q (fst p)) _ _ HP)).
    fold (right_part q Ps). rewrite HR.
    pose proof (filter_split_length (fun p : Q * Z => Qle_bool (fst p) a) Ps)
      as F.
    unfold Ps in F at 1 3.
    rewrite (filter_fst_combine_length (fun x => Qle_bool x a)) in F
      by assumption.
    rewrite length_combine in F. unfold count_le. lia. }
  assert (HposR : np_sum (map snd (right_part q P))
                  = (np_sum st - np_sum (firstn (count_le a sf) st))%Z).
  { unfold right_part.
    rewrite <- (np_sum_perm _ _
                  (Permutation_map snd
                     (Permutation_filter (fun p => Qle_bool q (fst p))
                                         _ _ HP))).
    fold (right_part q Ps). rewrite HR.
    pose proof (filter_split_sum (fun p => Qle_bool (fst p) a) Ps) as F.
    unfold Ps in F at 1 3.
    rewrite <- (sum_firstn_sorted a sf st Hs Hlst) in F.
    rewrite (map_snd_combine _ _ Hlst) in F. lia. }
  assert (HbP : binary_samples P) by now apply binary_samples_combine.
  assert (E1 : positives (left_part q P)
               = np_sum (firstn (count_le a sf) st)).
  { unfold positives. rewrite <- HposL.
    apply binary_counts. now apply binary_samples_filter. }
  assert (E2 : positives (right_part q P)
               = (np_sum st - np_sum (firstn (count_le a sf) st))%Z).
  { unfold positives. rewrite <- HposR.
    apply binary_counts. now apply binary_samples_filter. }
  assert (E3 : Z.of_nat (length (right_part q P))
               = (Z.of_nat (length sf) - Z.of_nat (count_le a sf))%Z) by lia.
  assert (E4 : length P = length st)
    by (unfold P; rewrite length_combine; lia).
  unfold Gain_f64, H_f64, gain_at. cbv zeta. fold P.
  now rewrite E1, E2, E3, E4, HlenL.
Qed.

(** What [find_best_split] returns on a binary target vector of the length
    of the feature vector: a threshold and a gain for each pair of
    neighbours. *)
(** ** float64: the sign of the gain *)

Lemma ZQ_nonneg (z : Z) : (0 <= z)%Z -> 0 <= ZQ z.
Proof. intros H. unfold ZQ, Qle. simpl. lia. Qed.

Lemma ZQ_le (a b : Z) : (a <= b)%Z -> ZQ a <= ZQ b.
Proof. intros H. unfold ZQ. now rewrite <- Zle_Qle. Qed.

Lemma Qdiv_nonneg (a b : Q) : 0 <= a -> 0 <= b -> 0 <= a / b.
Proof.
  intros Ha Hb. unfold Qdiv. apply Qmult_le_0_compat; [assumption|].
  now apply Qinv_le_0_compat.
Qed.

Lemma Qdiv_le_1 (a b : Q) : 0 <= a -> a <= b -> a / b <= 1.
Proof.
  intros Ha Hab. destruct (Qeq_dec b 0) as [E|N].
  - rewrite E. unfold Qdiv. assert (F : / 0 == 0) by reflexivity.
    rewrite F. lra.
  - apply Qle_shift_div_r; lra.
Qed.

(** The quotient of two counts, the first at most the second, is a
    [float64] number between 0 and 1. *)
Lemma true_divide_unit (s l : Z) :
  (0 <= s <= l)%Z -> 0 <= true_divide s l /\ true_divide s l <= 1.
Proof.
  intros [H0 H1]. unfold true_divide, fdiv.
  assert (A : 0 <= rnd (ZQ s)) by (apply rnd_nonneg, ZQ_nonneg; lia).
  assert (B : rnd (ZQ s) <= rnd (ZQ l)) by now apply rnd_mono, ZQ_le.
  split.
  - apply rnd_nonneg, Qdiv_nonneg; lra.
  - apply rnd_le_1, Qdiv_le_1; assumption.
Qed.

Lemma true_divide_zero (l : Z) : true_divide 0 l = 0.
Proof.
  unfold true_divide, fdiv. change (rnd (ZQ 0)) with 0.
  apply rnd_0. unfold Qdiv. ring.
Qed.

Lemma true_divide_same (l : Z) : (0 < l)%Z -> true_divide l l = 1.
Proof.
  intros H. unfold true_divide, fdiv.
  assert (P : 1 <= rnd (ZQ l)).
  { apply rnd_ge_1. change 1 with (ZQ 1). apply ZQ_le. lia. }
  rewrite (rnd_comp _ 1); [exact rnd_one|]. field. lra.
Qed.

Lemma true_divide_nonpos (l n : Z) :
  (0 <= l)%Z -> (0 <= n)%Z -> true_divide (- l) n <= 0.
Proof.
  intros Hl Hn. unfold true_divide, fdiv.
  assert (A : rnd (ZQ (- l)) <= 0).
  { apply rnd_nonpos. change 0 with (ZQ 0). apply ZQ_le. lia. }
  assert (B : 0 <= rnd (ZQ n)) by (apply rnd_nonneg, ZQ_nonneg; lia).
  apply rnd_nonpos.
  assert (E : rnd (ZQ (- l)) / rnd (ZQ n)
              == - (- rnd (ZQ (- l)) / rnd (ZQ n)))
    by (unfold Qdiv; ring).
  rewrite E.
  assert (0 <= - rnd (ZQ (- l)) / rnd (ZQ n))
    by (apply Qdiv_nonneg; lra).
  lra.
Qed.

Lemma true_divide_nonneg (l n : Z) :
  (0 <= l)%Z -> (0 <= n)%Z -> 0 <= true_divide l n.
Proof.
  intros Hl Hn. unfold true_divide, fdiv.
  apply rnd_nonneg, Qdiv_nonneg; apply rnd_nonneg, ZQ_nonneg; lia.
Qed.

Lemma true_divide_float (a b : Z) : is_float (true_divide a b).
Proof. apply rnd_float. Qed.

(** [H] of a [float64] number between 0 and 1 is not negative. *)
Lemma H_of_nonneg (p : Q) : is_float p -> 0 <= p -> p <= 1 -> 0 <= H_of p.
Proof.
  intros Fp H0 H1. unfold H_of, fsub, fmul.
  assert (Pp : rnd (p * p) <= p).
  { rewrite <- (rnd_id p Fp) at 3. apply rnd_mono.
    nra. }
  set (q := rnd (1 - p)).
  assert (Q0 : 0 <= q) by (apply rnd_nonneg; lra).
  assert (Q1 : q <= 1) by (apply rnd_le_1; lra).
  assert (Qq : rnd (q * q) <= q).
  { assert (E : rnd q == q) by apply rnd_idem.
    apply Qle_trans with (rnd q); [apply rnd_mono; nra | lra]. }
  assert (A : q <= rnd (1 - rnd (p * p))) by (apply rnd_mono; lra).
  apply rnd_nonneg. lra.
Qed.

Lemma H_of_zero : H_of 0 = 0.
Proof. vm_compute. reflexivity. Qed.

Lemma H_of_one : H_of 1 = 0.
Proof. vm_compute. reflexivity. Qed.

Lemma positives_bounds (S : list (Q * Z)) :
  (0 <= positives S <= Z.of_nat (length S))%Z.
Proof.
  unfold positives. pose proof (filter_length_le (fun p => Z.eqb (snd p) 1) S).
  lia.
Qed.

Lemma H_f64_nonneg (S : list (Q * Z)) : 0 <= H_f64 S.
Proof.
  unfold H_f64.
  destruct (true_divide_unit _ _ (positives_bounds S)) as [H0 H1].
  apply H_of_nonneg; [apply true_divide_float | assumption | assumption].
Qed.

(** ** The error of the rounded gain *)
















(** ** The thresholds with their gains *)









(** ** Entries, dictionaries and counters *)

Lemma cell_eqb_refl (a : cell) : cell_eqb a a = true.
Proof.
  destruct a as [q|s]; simpl.
  - apply Qeq_bool_iff; reflexivity.
  - apply String.eqb_refl.
Qed.

Lemma cell_eqb_sym (a b : cell) : cell_eqb a b = cell_eqb b a.
Proof.
  destruct a as [x|s], b as [y|t]; simpl; try reflexivity.
  - destruct (Qeq_bool x y) eqn:E, (Qeq_bool y x) eqn:F; try reflexivity.
    + apply Qeq_bool_iff in E. apply Qeq_bool_false in F.
      exfalso; apply F; now symmetry.
    + apply Qeq_bool_iff in F. apply Qeq_bool_false in E.
      exfalso; apply E; now symmetry.
  - apply String.eqb_sym.
Qed.

Lemma cell_eqb_trans (a b c : cell) :
  cell_eqb a b = true -> cell_eqb b c = true -> cell_eqb a c = true.
Proof.
  destruct a as [x|s], b as [y|t], c as [z|u]; simpl; try discriminate.
  - rewrite !Qeq_bool_iff. intros -> ->. reflexivity.
  - rewrite !String.eqb_eq. congruence.
Qed.

Lemma cell_eqb_compat (a b c : cell) :
  cell_eqb a b = true -> cell_eqb a c = cell_eqb b c.
Proof.
  intros E. destruct (cell_eqb a c) eqn:F, (cell_eqb b c) eqn:G;
    try reflexivity.
  - rewrite cell_eqb_sym in E.
    now rewrite (cell_eqb_trans _ _ _ E F) in G.
  - now rewrite (cell_eqb_trans _ _ _ E G) in F.
Qed.

Lemma isin_true (c : cell) (l : list cell) :
  isin c l = true <-> exists k, In k l /\ cell_eqb c k = true.
Proof. unfold isin. apply existsb_exists. Qed.

Lemma isin_false (c : cell) (l : list cell) :
  isin c l = false <-> forall k, In k l -> cell_eqb c k = false.
Proof.
  split.
  - intros H k Hk. destruct (cell_eqb c k) eqn:E; [|reflexivity].
    assert (isin c l = true) by (apply isin_true; eauto). congruence.
  - intros H. destruct (isin c l) eqn:E; [|reflexivity].
    apply isin_true in E as [k [Hk E]]. rewrite (H k Hk) in E. discriminate.
Qed.

Lemma isin_In (c : cell) (l : list cell) : In c l -> isin c l = true.
Proof. intros H. apply isin_true. exists c. split; [assumption | apply cell_eqb_refl]. Qed.

Lemma isin_compat (a b : cell) (l : list cell) :
  cell_eqb a b = true -> isin a l = isin b l.
Proof.
  intros E. induction l as [|k l IH]; simpl; [reflexivity|].
  now rewrite IH, (cell_eqb_compat _ _ k E).
Qed.

Lemma isin_perm (c : cell) (l l' : list cell) :
  Permutation l l' -> isin c l = isin c l'.
Proof.
  induction 1 as [|x l l' _ IH|x y l|l l' l'' _ IH1 _ IH2]; simpl.
  - reflexivity.
  - now rewrite IH.
  - destruct (cell_eqb c x), (cell_eqb c y); reflexivity.
  - congruence.
Qed.

Lemma isin_nodup_by (c : cell) (l : list cell) :
  isin c (nodup_by cell_eqb l) = isin c l.
Proof.
  induction l as [|a l IH]; simpl; [reflexivity|].
  destruct (existsb (cell_eqb a) l) eqn:E; simpl; rewrite IH; [|reflexivity].
  destruct (cell_eqb c a) eqn:F; [|reflexivity]. simpl.
  fold (isin a l) in E. now rewrite (isin_compat _ _ l F).
Qed.

Lemma isin_filter (c : cell) (p : cell -> bool) (l : list cell) :
  (forall a b, cell_eqb a b = true -> p a = p b) ->
  isin c (filter p l) = isin c l && p c.
Proof.
  intros Hp. induction l as [|a l IH]; simpl; [reflexivity|].
  destruct (p a) eqn:Pa; simpl; rewrite IH.
  - destruct (cell_eqb c a) eqn:E; simpl; [|reflexivity].
    rewrite (Hp c a E), Pa. reflexivity.
  - destruct (cell_eqb c a) eqn:E; simpl; [|reflexivity].
    rewrite (Hp c a E), Pa. now rewrite andb_false_r.
Qed.

Lemma distinct_keys_perm (l l' : list cell) :
  Permutation l l' -> distinct_keys l = distinct_keys l'.
Proof.
  induction 1 as [|x l l' P IH|x y l|l l' l'' _ IH1 _ IH2]; simpl.
  - reflexivity.
  - now rewrite IH, (isin_perm x _ _ P).
  - rewrite (cell_eqb_sym y x).
    destruct (cell_eqb x y), (isin x l), (isin y l); reflexivity.
  - congruence.
Qed.

Lemma counter_add_isin (x k : cell) (c : list (cell * Z)) :
  isin x (map fst (counter_add cell_eqb k c))
  = isin x (map fst c) || cell_eqb x k.
Proof.
  induction c as [|[k' n] c IH]; simpl.
  - now rewrite orb_false_r.
  - destruct (cell_eqb k' k) eqn:E; simpl.
    + assert (F : cell_eqb x k = cell_eqb x k').
      { rewrite (cell_eqb_sym x k), (cell_eqb_sym x k'). symmetry.
        now apply cell_eqb_compat. }
      rewrite F. destruct (cell_eqb x k'); simpl; [reflexivity|].
      now rewrite orb_false_r.
    + rewrite IH. now rewrite orb_assoc.
Qed.

Lemma counter_add_distinct (k : cell) (c : list (cell * Z)) :
  distinct_keys (map fst c) = true ->
  distinct_keys (map fst (counter_add cell_eqb k c)) = true.
Proof.
  induction c as [|[k' n] c IH]; simpl; [reflexivity|].
  intros H. apply andb_prop in H as [H1 H2].
  destruct (cell_eqb k' k) eqn:E; simpl.
  - now rewrite H1, H2.
  - rewrite counter_add_isin, E, IH by assumption.
    apply negb_true_iff in H1. now rewrite H1.
Qed.

Lemma counter_add_In (x k : cell) (c : list (cell * Z)) :
  In x (map fst (counter_add cell_eqb k c)) -> In x (map fst c) \/ x = k.
Proof.
  induction c as [|[k' n] c IH]; simpl.
  - intros [<-|[]]. now right.
  - destruct (cell_eqb k' k); simpl.
    + intros H. now left.
    + intros [<-|H]; [left; now left|].
      destruct (IH H); [left; now right | now right].
Qed.

Lemma Counter_keys (xs : list cell) :
  distinct_keys (map fst (Counter cell_eqb xs)) = true /\
  forall x, In x (map fst (Counter cell_eqb xs)) -> In x xs.
Proof.
  unfold Counter.
  assert (G : forall xs c,
             distinct_keys (map fst c) = true ->
             distinct_keys
               (map fst (fold_left (fun c k => counter_add cell_eqb k c) xs c))
             = true /\
             forall x,
               In x (map fst (fold_left
                                (fun c k => counter_add cell_eqb k c) xs c)) ->
               In x (map fst c) \/ In x xs).
  { clear xs. induction xs as [|k xs IH]; intros c Hc; simpl.
    - split; [assumption | tauto].
    - destruct (IH (counter_add cell_eqb k c) (counter_add_distinct k c Hc))
        as [H1 H2].
      split; [assumption|]. intros x Hx.
      destruct (H2 x Hx) as [H|H]; [|tauto].
      apply counter_add_In in H. intuition. }
  destruct (G xs [] eq_refl) as [H1 H2]. split; [assumption|].
  intros x Hx. destruct (H2 x Hx) as [[]|H]. assumption.
Qed.

Lemma map_fst_combine {A B : Type} (l : list A) (m : list B) :
  length m = length l -> map fst (combine l m) = l.
Proof.
  revert m; induction l as [|a l IH]; intros [|b m] H; simpl in *;
    try discriminate; [reflexivity|].
  injection H as H. now rewrite IH.
Qed.

(** In a dictionary of pairwise different keys, the keys selected by a test
    on the value contain [c] exactly when the value found for [c] passes the
    test. *)
Lemma dict_get_isin {V : Type} (q : V -> bool) (d : list (cell * V))
    (c : cell) (r : V) :
  distinct_keys (map fst d) = true ->
  dict_get cell_eqb d c = Some r ->
  isin c (map fst (filter (fun x => q (snd x)) d)) = q r.
Proof.
  induction d as [|[k v] d IH]; simpl; [discriminate|].
  intros Hd Hg. apply andb_prop in Hd as [H1 H2].
  apply negb_true_iff in H1.
  destruct (cell_eqb k c) eqn:E.
  - injection Hg as <-.
    assert (Hout : isin c (map fst (filter (fun x => q (snd x)) d)) = false).
    { apply isin_false. intros k' Hk'.
      apply in_map_iff in Hk' as [[k'' v'] [<- Hin]]. simpl.
      apply filter_In in Hin as [Hin _].
      rewrite <- (cell_eqb_compat _ _ k'' E).
      apply (proj1 (isin_false k (map fst d)) H1).
      apply in_map_iff. now exists (k'', v'). }
    destruct (q v); simpl; [|assumption].
    now rewrite (cell_eqb_sym c k), E.
  - specialize (IH H2 Hg). destruct (q v); simpl; [|assumption].
    now rewrite (cell_eqb_sym c k), E.
Qed.

(** ** The encoding of a categorical column *)

Lemma encode_categorical_inv (col : list cell) (sub_y : list Z)
    (cm : list (cell * nat)) (fvc : list cell) :
  encode_categorical col sub_y = Ok (cm, fvc) ->
  distinct_keys (map fst cm) = true /\
  (forall k, In k (map fst cm) -> In k col) /\
  Forall2 (fun x c => exists r, dict_get cell_eqb cm x = Some r /\
                                c = Real (NQ r)) col fvc.
Proof.
  unfold encode_categorical. intros H. inv_bind H. inv_bind H.
  injection H as <- <-.
  set (ratio := map _ (Counter cell_eqb col)) in *.
  assert (Hkeys : map fst (combine (map fst (sorted_by snd ratio))
                             (seq 0 (length (map fst (sorted_by snd ratio)))))
                  = map fst (sorted_by snd ratio))
    by (apply map_fst_combine; now rewrite length_seq).
  assert (HP : Permutation (map fst (sorted_by snd ratio))
                           (map fst (Counter cell_eqb col))).
  { rewrite (Permutation_map fst (sorted_by_perm snd ratio)).
    unfold ratio. rewrite map_map. simpl. reflexivity. }
  destruct (Counter_keys col) as [Hd Hin].
  repeat split.
  - rewrite Hkeys, (distinct_keys_perm _ _ HP). exact Hd.
  - intros k Hk. rewrite Hkeys in Hk. apply Hin.
    now apply (Permutation_in _ HP).
  - apply mapM_inv in Hm0.
    eapply Forall2_impl; [|exact Hm0]. simpl.
    intros x c Hx. inv_bind Hx. injection Hx as <-.
    destruct (dict_get cell_eqb _ x) as [r|]; [|discriminate].
    injection Hm1 as <-. now exists r.
Qed.

Lemma as_float64_inv (v : list cell) (fv : list Q) :
  as_float64 v = Ok fv -> Forall2 (fun c q => c = Real q) v fv.
Proof.
  intros H. apply mapM_inv in H. eapply Forall2_impl; [|exact H].
  intros [q|s] q' E; simpl in E; [|discriminate].
  inv_bind E. now injection E as <-.
Qed.

Lemma as_float64_convertible (v : list cell) (fv : list Q) :
  as_float64 v = Ok fv -> Forall convertible fv.
Proof.
  intros H. apply mapM_inv in H.
  induction H as [|c q v fv Hc _ IH]; constructor; [|assumption].
  destruct c as [q0|s]; simpl in Hc; [|discriminate].
  inv_bind Hc. injection Hc as <-. now apply to_float64_inv in Hm as [_ Hm].
Qed.

Lemma len_unique_inv (v : list cell) (n : nat) :
  len_unique v = Ok n -> n = n_unique v.
Proof.
  unfold len_unique. destruct (_ && _); [discriminate|].
  now intros H; injection H as <-.
Qed.

(** ** The loop over the features *)

Lemma Forall2_column (P : cell -> Q -> Prop) (f : nat) (X : matrix)
    (fv : list Q) :
  Forall2 P (column f X) fv ->
  Forall2 (fun row q => P (nth f row (Real 0)) q) X fv.
Proof.
  revert fv; induction X as [|row X IH]; intros fv H; simpl in H;
    inversion H; subst; constructor; auto.
Qed.

Lemma mask_select_inv {A : Type} (mask : list bool) (v l : list A) :
  mask_select mask v = Ok l -> length mask = length v /\ l = select mask v.
Proof.
  unfold mask_select. destruct (Nat.eqb _ _) eqn:E; [|discriminate].
  apply Nat.eqb_eq in E. intros H; injection H as <-. now split.
Qed.

Lemma negb_lt_float_map (thr : float64) (fv : list Q) :
  map negb (map (fun v => lt_float v thr) fv)
  = map (fun v => ge_float v thr) fv.
Proof.
  rewrite map_map. apply map_ext. intros v. destruct thr; simpl;
    try reflexivity. unfold Qltb. apply negb_involutive.
Qed.

(** The step of the loop keeps what [good_split] says. *)
Lemma fit_feature_good (self : DecisionTree) (sub_X : matrix)
    (sub_y : list Z) (feature : nat) (best best' : option best_split) :
  good_best self sub_X best ->
  fit_feature self sub_X sub_y feature best = Ok best' ->
  good_best self sub_X best'.
Proof.
  intros Hgood H. unfold fit_feature in H.
  inv_bind H. rename a into ft.
  destruct (nth_error (_feature_types self) feature) as [ft'|] eqn:Eft;
    [|discriminate].
  injection Hm as ->.
  inv_bind H. destruct a as [cm fvc].
  apply bind_ok_inv in H as [n [_ H]].
  destruct (n <=? 1)%nat; [injection H as <-; assumption|].
  inv_bind H. rename a into fv.
  inv_bind H. destruct a as [[[ths Qs] thr] gini].
  inv_bind H. inv_bind H.
  apply mask_select_inv in Hm2 as [Hl1 ->].
  apply mask_select_inv in Hm3 as [Hl2 ->].
  match type of H with
  | (if ?c then _ else _) = _ => destruct c eqn:Ec
  end; [|injection H as <-; assumption].
  injection H as <-. apply andb_prop in Ec as [Hvalid _].
  assert (Hsizes : forall k, _min_samples_leaf self = Some k ->
            (k <= Z.of_nat (length (select (map (fun v => lt_float v thr) fv)
                                           sub_X)))%Z /\
            (k <= Z.of_nat
                    (length (select (map negb
                                         (map (fun v => lt_float v thr) fv))
                                    sub_X)))%Z).
  { intros k Hk. rewrite Hk in Hvalid. apply andb_prop in Hvalid as [V1 V2].
    apply Z.leb_le in V1, V2. rewrite negb_lt_float_map. split; assumption. }
  apply as_float64_inv in Hm0.
  exists ft. simpl. destruct ft.
  - (* a real feature *)
    injection Hm as <- <-.
    apply Forall2_column in Hm0.
    split; [exact Eft|]. split; [exact I|].
    split; [|exact Hsizes].
    symmetry. eapply Forall2_map_eq; [exact Hm0|].
    intros row q _ E. simpl in E. simpl. now rewrite E.
  - (* a categorical feature *)
    apply encode_categorical_inv in Hm as [Hd [Hin Hf]].
    assert (HF : Forall2 (fun x q => exists r,
                            dict_get cell_eqb cm x = Some r /\ q = NQ r)
                         (column feature sub_X) fv).
    { clear -Hf Hm0. revert fv Hm0.
      induction Hf as [|x c col fvc [r [Hr ->]] _ IH]; intros fv Hm0;
        inversion Hm0; subst; constructor.
      - exists r. split; [assumption|]. congruence.
      - now apply IH. }
    apply Forall2_column in HF.
    split; [exact Eft|].
    split; [|split; [|exact Hsizes]].
    + intros c Hc. apply Hin.
      apply in_map_iff in Hc as [[k' r'] [<- Hk]].
      apply filter_In in Hk as [Hk _]. apply in_map_iff. now exists (k', r').
    + symmetry. eapply Forall2_map_eq; [exact HF|].
      intros row q _ [r [Hr ->]]. simpl.
      apply (dict_get_isin (fun r => lt_float (NQ r) thr)); assumption.
Qed.

Lemma foldM_invariant {A S : Type} (P : S -> Prop) (f : A -> S -> result S)
    (l : list A) (s s' : S) :
  (forall a s s', P s -> f a s = Ok s' -> P s') ->
  P s -> foldM f l s = Ok s' -> P s'.
Proof.
  intros Hf. revert s; induction l as [|a l IH]; simpl; intros s Hs H.
  - now injection H as <-.
  - inv_bind H. eapply IH; [|exact H]. eapply Hf; eassumption.
Qed.

Lemma search_split_good (self : DecisionTree) (sub_X : matrix)
    (sub_y : list Z) (depth : nat) (best : option best_split) :
  search_split self sub_X sub_y depth = Ok best -> good_best self sub_X best.
Proof.
  unfold search_split. destruct (continue_split_condition _ _ _).
  - apply foldM_invariant; [|exact I].
    intros f s s'. apply fit_feature_good.
  - intros H; injection H as <-. exact I.
Qed.

(** ** The recursion of [_fit_node] *)

Lemma fit_node_unfold (fuel : nat) (self : DecisionTree) (sub_X : matrix)
    (sub_y : list Z) (nd : node) (depth : nat) :
  _fit_node (S fuel) self sub_X sub_y nd depth =
  (y0 <- getitem sub_y 0 ;;
   if forallb (fun y => Z.eqb y y0) sub_y then Ok (set_terminal nd y0)
   else
     best <- search_split self sub_X sub_y depth ;;
     let too_small :=
       match _min_samples_split self with
       | Some m => (Z.of_nat (length sub_X) <? m)%Z
       | None => false
       end in
     match best with
     | Some b =>
         if too_small then
           c <- most_common1 (Counter Z.eqb sub_y) ;; Ok (set_terminal nd c)
         else
           nd <- set_nonterminal self nd b ;;
           X_l <- mask_select (split b) sub_X ;;
           y_l <- mask_select (split b) sub_y ;;
           l <- _fit_node fuel self X_l y_l empty_node (S depth) ;;
           X_r <- mask_select (map negb (split b)) sub_X ;;
           y_r <- mask_select (map negb (split b)) sub_y ;;
           r <- _fit_node fuel self X_r y_r empty_node (S depth) ;;
           Ok (set_children nd l r)
     | None =>
         c <- most_common1 (Counter Z.eqb sub_y) ;; Ok (set_terminal nd c)
     end).
Proof. reflexivity. Qed.

Lemma fit_node_inv (fuel : nat) (self : DecisionTree) (sub_X : matrix)
    (sub_y : list Z) (nd : node) (depth : nat) (t : node) :
  _fit_node (S fuel) self sub_X sub_y nd depth = Ok t ->
  fit_step self fuel sub_X sub_y depth nd t.
Proof.
  rewrite fit_node_unfold. intros H. inv_bind H.
  destruct (forallb _ sub_y).
  { injection H as <-. now apply step_terminal with (c := a). }
  inv_bind H. cbv zeta in H. destruct a0 as [b|].
  2:{ inv_bind H. injection H as <-. now apply step_terminal with (c := a0). }
  destruct (match _min_samples_split self with
            | Some m => (Z.of_nat (length sub_X) <? m)%Z
            | None => false
            end).
  { inv_bind H. injection H as <-. now apply step_terminal with (c := a0). }
  inv_bind H. inv_bind H. inv_bind H. inv_bind H.
  inv_bind H. inv_bind H. inv_bind H. injection H as <-.
  apply mask_select_inv in Hm2 as [L1 ->].
  apply mask_select_inv in Hm3 as [L2 ->].
  apply mask_select_inv in Hm5 as [_ ->].
  apply mask_select_inv in Hm6 as [_ ->].
  eapply step_split; eauto.
Qed.

(** *** Purity *)

Lemma getitem_head {A : Type} (a : A) (l : list A) : getitem (a :: l) 0 = Ok a.
Proof. reflexivity. Qed.

Lemma fit_node_pure_eq (self : DecisionTree) (sub_X : matrix)
    (sub_y : list Z) (nd : node) (depth fuel : nat) (c : Z) :
  sub_y <> [] -> (forall y, In y sub_y -> y = c) ->
  _fit_node (S fuel) self sub_X sub_y nd depth = Ok (set_terminal nd c).
Proof.
  intros Hne Hall.
  rewrite fit_node_unfold. destruct sub_y as [|y0 ys]; [congruence|].
  rewrite getitem_head. cbn [bind].
  assert (y0 = c) as -> by (apply Hall; now left).
  assert (forallb (fun y => Z.eqb y c) (c :: ys) = true) as ->.
  { apply forallb_forall. intros y Hy. apply Z.eqb_eq. now apply Hall. }
  reflexivity.
Qed.

(** C5.  A non-empty subsample whose labels are all the same label [c]
    yields a terminal node holding [c], whatever the stopping parameters,
    the depth and the dictionary written into: the test of purity comes
    first. *)
Theorem fit_node_pure (self : DecisionTree) (sub_X : matrix) (sub_y : list Z)
    (nd : node) (depth fuel : nat) (c : Z) :
  sub_y <> [] -> (forall y, In y sub_y -> y = c) ->
  _fit_node (S fuel) self sub_X sub_y nd depth = Ok (set_terminal nd c) /\
  ntype (set_terminal nd c) = Some terminal /\
  nclass (set_terminal nd c) = Some c.
Proof.
  intros Hne Hall. split; [|split; reflexivity].
  now apply fit_node_pure_eq.
Qed.

Lemma fit_node_pure_witness :
  let self := {| _feature_types := [real]; _max_depth := Some 0%Z;
                 _min_samples_split := Some 10%Z;
                 _min_samples_leaf := Some 5%Z |} in
  _fit_node 1 self [[Real 1]; [Real 2]] [1; 1]%Z empty_node 0
  = Ok (set_terminal empty_node 1%Z) /\
  ntype (set_terminal empty_node 1%Z) = Some terminal /\
  nclass (set_terminal empty_node 1%Z) = Some 1%Z.
Proof.
  intros self. apply fit_node_pure.
  - discriminate.
  - intros y [<-|[<-|[]]]; reflexivity.
Defined.

(** *** Termination *)

Lemma bind_fuel {A B : Type} (m : result A) (k : A -> result B) :
  m <> OutOfFuel -> (forall a, m = Ok a -> k a <> OutOfFuel) ->
  bind m k <> OutOfFuel.
Proof. destruct m as [a| |]; simpl; intros H1 H2; auto; discriminate. Qed.

Lemma mask_select_fuel {A : Type} (mask : list bool) (v : list A) :
  mask_select mask v <> OutOfFuel.
Proof. unfold mask_select. destruct (Nat.eqb _ _); discriminate. Qed.

Lemma lookup_fuel {A : Type} (e : exn) (o : option A) : lookup e o <> OutOfFuel.
Proof. destruct o; discriminate. Qed.

Lemma encode_categorical_fuel (col : list cell) (sub_y : list Z) :
  encode_categorical col sub_y <> OutOfFuel.
Proof.
  unfold encode_categorical.
  apply bind_fuel; [apply mask_select_fuel|]. intros clicked _.
  apply bind_fuel; [|discriminate].
  apply mapM_fuel. intros x.
  apply bind_fuel; [apply lookup_fuel | discriminate].
Qed.

Lemma fit_feature_fuel (self : DecisionTree) (sub_X : matrix)
    (sub_y : list Z) (feature : nat) (best : option best_split) :
  fit_feature self sub_X sub_y feature best <> OutOfFuel.
Proof.
  unfold fit_feature.
  apply bind_fuel; [apply lookup_fuel|]. intros ft _.
  apply bind_fuel.
  { destruct ft; [discriminate | apply encode_categorical_fuel]. }
  intros [cm fvc] _.
  apply bind_fuel.
  { unfold len_unique. destruct (_ && _); discriminate. }
  intros n _. destruct (n <=? 1)%nat; [discriminate|].
  apply bind_fuel.
  { apply mapM_fuel. intros [q|s]; [|discriminate].
    apply bind_fuel; [apply to_float64_fuel | discriminate]. }
  intros fv _. apply bind_fuel; [apply find_best_split_fuel|].
  intros [[[ths Qs] thr] gini] _.
  apply bind_fuel; [apply mask_select_fuel|]. intros left _.
  apply bind_fuel; [apply mask_select_fuel|]. intros right _.
  match goal with |- (if ?c then _ else _) <> _ => destruct c end;
    discriminate.
Qed.

Lemma foldM_fuel {A S : Type} (f : A -> S -> result S) (l : list A) (s : S) :
  (forall a s, f a s <> OutOfFuel) -> foldM f l s <> OutOfFuel.
Proof.
  intros Hf. revert s; induction l as [|a l IH]; intros s; simpl;
    [discriminate|].
  apply bind_fuel; [apply Hf | intros; apply IH].
Qed.

Lemma search_split_fuel (self : DecisionTree) (sub_X : matrix)
    (sub_y : list Z) (depth : nat) :
  search_split self sub_X sub_y depth <> OutOfFuel.
Proof.
  unfold search_split. destruct (continue_split_condition _ _ _);
    [|discriminate].
  apply foldM_fuel. intros; apply fit_feature_fuel.
Qed.

Lemma select_shorter_left {A : Type} (mask : list bool) (v : list A) :
  length mask = length v -> In false mask ->
  (length (select mask v) < length v)%nat.
Proof.
  intros Hl Hin.
  pose proof (select_length_lt mask v false Hl Hin) as H.
  rewrite (map_ext _ (fun c => c)) in H by (intros []; reflexivity).
  now rewrite map_id in H.
Qed.

Lemma select_shorter_right {A : Type} (mask : list bool) (v : list A) :
  length mask = length v -> In true mask ->
  (length (select (map negb mask) v) < length v)%nat.
Proof.
  intros Hl Hin.
  pose proof (select_length_lt mask v true Hl Hin) as H.
  now rewrite (map_ext _ negb) in H by (intros []; reflexivity).
Qed.

(** A call that returns has been given labels: an empty label vector fails
    at [sub_y[0]]. *)
Lemma fit_node_labels (fuel : nat) (self : DecisionTree) (sub_X : matrix)
    (sub_y : list Z) (nd : node) (depth : nat) (t : node) :
  _fit_node fuel self sub_X sub_y nd depth = Ok t -> sub_y <> [].
Proof.
  destruct fuel as [|fuel]; [discriminate|].
  rewrite fit_node_unfold. intros H ->. discriminate.
Qed.

Lemma select_In_true {A : Type} (mask : list bool) (v : list A) :
  select mask v <> [] -> In true mask.
Proof.
  revert v; induction mask as [|b mask IH]; intros v H; simpl in H;
    [congruence|].
  destruct v as [|a v]; [congruence|].
  destruct b; [now left | right; eauto].
Qed.

(** A split whose two children have been fitted has sent rows to both
    sides. *)
Lemma fit_step_sides (self : DecisionTree) (fuel : nat) (mask : list bool)
    (sub_X : matrix) (sub_y : list Z) (depth : nat) (l r : node) :
  _fit_node fuel self (select mask sub_X) (select mask sub_y)
            empty_node depth = Ok l ->
  _fit_node fuel self (select (map negb mask) sub_X)
            (select (map negb mask) sub_y) empty_node depth = Ok r ->
  In true mask /\ In false mask.
Proof.
  intros Hl Hr. apply fit_node_labels in Hl, Hr.
  apply select_In_true in Hl, Hr. split; [assumption|].
  apply in_map_iff in Hr as [b [Hb Hin]]. now destruct b.
Qed.

(** *** The nodes that a split writes *)

Lemma set_nonterminal_inv (self : DecisionTree) (nd nd' : node)
    (b : best_split) (ft : feature_type) :
  nth_error (_feature_types self) (feature_best b) = Some ft ->
  set_nonterminal self nd b = Ok nd' ->
  ntype nd' = Some nonterminal /\
  feature_split nd' = Some (feature_best b) /\
  match ft, threshold_best b with
  | real, Thr t => threshold nd' = Some t
  | categorical, Cats cs => categories_split nd' = Some cs
  | _, _ => False
  end.
Proof.
  unfold set_nonterminal. intros Hft H. rewrite Hft in H. simpl in H.
  destruct ft, (threshold_best b); try discriminate;
    injection H as <-; repeat split.
Qed.

Lemma goes_left_routes (self : DecisionTree) (nd' l r : node)
    (b : best_split) (ft : feature_type) (nd : node) :
  nth_error (_feature_types self) (feature_best b) = Some ft ->
  set_nonterminal self nd b = Ok nd' ->
  forall x, goes_left self (set_children nd' l r) x
            = routes_left ft (feature_best b) (threshold_best b) x.
Proof.
  intros Hft H x.
  destruct (set_nonterminal_inv _ _ _ _ _ Hft H) as [_ [Hf Hs]].
  unfold goes_left. simpl. rewrite Hf, Hft.
  destruct ft, (threshold_best b); try contradiction; now rewrite Hs.
Qed.

Lemma leaf_sizes_ok_terminal (self : DecisionTree) (k : Z) (nd : node)
    (c : Z) (X : matrix) :
  leaf_sizes_ok self k (set_terminal nd c) X.
Proof. destruct nd; exact I. Qed.

Lemma leaf_sizes_ok_split (self : DecisionTree) (k : Z) (nd l r : node)
    (X : matrix) :
  ntype nd = Some nonterminal ->
  leaf_sizes_ok self k (set_children nd l r) X <->
  (k <= Z.of_nat (length (filter (goes_left self (set_children nd l r)) X)))%Z
  /\ (k <= Z.of_nat
            (length (filter (fun x => negb (goes_left self
                                              (set_children nd l r) x)) X)))%Z
  /\ leaf_sizes_ok self k l (filter (goes_left self (set_children nd l r)) X)
  /\ leaf_sizes_ok self k r
       (filter (fun x => negb (goes_left self (set_children nd l r) x)) X).
Proof.
  destruct nd as [ty cl fs th cs lc rc]. simpl. intros ->. reflexivity.
Qed.

Lemma select_negb_map_filter {A : Type} (p : A -> bool) (l : list A) :
  select (map negb (map p l)) l = filter (fun x => negb (p x)) l.
Proof. rewrite map_map. apply select_map_filter. Qed.

Lemma fit_node_leaf_sizes (fuel : nat) (self : DecisionTree) (k : Z)
    (sub_X : matrix) (sub_y : list Z) (nd : node) (depth : nat) (t : node) :
  _min_samples_leaf self = Some k ->
  _fit_node fuel self sub_X sub_y nd depth = Ok t ->
  leaf_sizes_ok self k t sub_X.
Proof.
  intros Hk. revert sub_X sub_y nd depth t.
  induction fuel as [|fuel IH]; intros sub_X sub_y nd depth t H;
    [discriminate|].
  apply fit_node_inv in H.
  destruct H as [c ->|b nd' l r Hs Hn L1 L2 Hl Hr ->].
  - apply leaf_sizes_ok_terminal.
  - apply search_split_good in Hs.
    destruct Hs as [ft [Hft [_ [Hsplit Hsz]]]].
    destruct (Hsz k Hk) as [S1 S2].
    pose proof (goes_left_routes self nd' l r b ft nd Hft Hn) as G.
    destruct (set_nonterminal_inv _ _ _ _ _ Hft Hn) as [Hty _].
    apply IH in Hl, Hr.
    rewrite Hsplit in *. rewrite select_map_filter in *.
    rewrite select_negb_map_filter in *.
    apply leaf_sizes_ok_split; [assumption|].
    rewrite (filter_ext _ _ G).
    rewrite (filter_ext (fun x => negb (goes_left _ _ x))
                        (fun x => negb (routes_left ft (feature_best b)
                                          (threshold_best b) x)))
      by (intros x; now rewrite G).
    repeat split; assumption.
Qed.

(** C6.  In a tree fitted with [min_samples_leaf = k] every inner node
    sends at least [k] of its rows to each side; and when the search finds
    no valid split for labels that are not all the same, the node is a
    terminal one holding the most frequent label. *)
Theorem fit_leaf_sizes (self : DecisionTree) (k : Z) (X : matrix)
    (y : list Z) (tree t : node) :
  _min_samples_leaf self = Some k ->
  fit self X y tree = Ok t ->
  leaf_sizes_ok self k t X /\
  (search_split self X y 0 = Ok None ->
   (exists a b, In a y /\ In b y /\ a <> b) ->
   exists c, most_common1 (Counter Z.eqb y) = Ok c /\
             t = set_terminal tree c).
Proof.
  intros Hk H. split.
  - eapply fit_node_leaf_sizes; eassumption.
  - intros Hnone [a [b [Ha [Hb Hab]]]].
    unfold fit in H. rewrite fit_node_unfold in H. inv_bind H.
    destruct (forallb _ y) eqn:E.
    + exfalso. rewrite forallb_forall in E.
      apply E in Ha, Hb. apply Z.eqb_eq in Ha, Hb. congruence.
    + rewrite Hnone in H. simpl in H. inv_bind H. injection H as <-.
      now exists a1.
Qed.

Lemma fit_leaf_sizes_witness :
  let self := {| _feature_types := [real]; _max_depth := None;
                 _min_samples_split := None;
                 _min_samples_leaf := Some 2%Z |} in
  let X := [[Real 1]; [Real 2]; [Real 3]; [Real 4]] in
  (* the only good split, at 1.5, would leave one row on the left *)
  (let y := [0; 1; 1; 1]%Z in
   let t := set_terminal empty_node 1%Z in
   leaf_sizes_ok self 2 t X /\
   (search_split self X y 0 = Ok None ->
    (exists a b, In a y /\ In b y /\ a <> b) ->
    exists c, most_common1 (Counter Z.eqb y) = Ok c /\
              t = set_terminal empty_node c)) /\
  (* the split at 2.5 leaves two rows on each side *)
  (let y := [0; 0; 1; 1]%Z in
   let t := Node (Some nonterminal) None (Some 0%nat) (Some (Fin (5 # 2))) None
                 (Some (set_terminal empty_node 0%Z))
                 (Some (set_terminal empty_node 1%Z)) in
   leaf_sizes_ok self 2 t X /\
   (search_split self X y 0 = Ok None ->
    (exists a b, In a y /\ In b y /\ a <> b) ->
    exists c, most_common1 (Counter Z.eqb y) = Ok c /\
              t = set_terminal empty_node c)).
Proof.
  intros self X. split; intros y t.
  - apply (fit_leaf_sizes self 2 X y empty_node t).
    + reflexivity.
    + vm_compute. reflexivity.
  - apply (fit_leaf_sizes self 2 X y empty_node t).
    + reflexivity.
    + vm_compute. reflexivity.
Defined.

(** *** Categorical nodes *)

Lemma isin_right_categories (c : cell) (col cs : list cell) :
  isin c (right_categories col cs) = isin c col && negb (isin c cs).
Proof.
  unfold right_categories, observed_categories.
  rewrite isin_filter, isin_nodup_by; [reflexivity|].
  intros a b E. now rewrite (isin_compat _ _ cs E).
Qed.

Lemma good_split_partitions (self : DecisionTree) (sub_X : matrix)
    (b : best_split) (cs : list cell) :
  good_split self sub_X b ->
  In true (split b) -> In false (split b) ->
  nth_error (_feature_types self) (feature_best b) = Some categorical ->
  threshold_best b = Cats cs ->
  partitions_categories (column (feature_best b) sub_X) cs.
Proof.
  intros [ft [Hft [Hkind [Hsplit _]]]] Htrue Hfalse Hcat Hcs.
  rewrite Hcat in Hft. injection Hft as <-. rewrite Hcs in *.
  rewrite Hsplit in Htrue, Hfalse.
  apply in_map_iff in Htrue as [rowl [Hl Hinl]].
  apply in_map_iff in Hfalse as [rowr [Hr Hinr]].
  simpl in Hl, Hr. set (f := feature_best b) in *.
  assert (Hcolr : In (nth f rowr (Real 0)) (column f sub_X))
    by (apply (in_map (fun row => nth f row (Real 0))); exact Hinr).
  repeat split.
  - intros ->. discriminate.
  - intros E.
    assert (F : isin (nth f rowr (Real 0))
                     (right_categories (column f sub_X) cs) = true).
    { rewrite isin_right_categories, Hr, (isin_In _ _ Hcolr). reflexivity. }
    rewrite E in F. discriminate.
  - intros c Hc. rewrite isin_right_categories, Hc. apply andb_false_r.
  - unfold observed_categories. rewrite isin_nodup_by.
    rewrite isin_right_categories. intros ->.
    destruct (isin c cs); [now left | now right].
  - unfold observed_categories. rewrite isin_nodup_by.
    rewrite isin_right_categories. intros [Hc|Hc].
    + apply isin_true in Hc as [k [Hk E]]. apply isin_true.
      exists k. split; [now apply Hkind | assumption].
    + now apply andb_prop in Hc as [Hc _].
Qed.

(** C8.  Whenever [_fit_node] writes an inner node on a categorical
    feature, the stored list of categories and the remaining observed
    categories of that feature in the subsample of the node are both
    non-empty, share no category, and together are the observed ones. *)
Theorem fit_node_categories_partition (fuel : nat) (self : DecisionTree)
    (sub_X : matrix) (sub_y : list Z) (nd : node) (depth : nat) (t : node)
    (f : nat) :
  _fit_node fuel self sub_X sub_y nd depth = Ok t ->
  ntype t = Some nonterminal ->
  feature_split t = Some f ->
  nth_error (_feature_types self) f = Some categorical ->
  exists cs, categories_split t = Some cs /\
             partitions_categories (column f sub_X) cs.
Proof.
  destruct fuel as [|fuel]; [discriminate|].
  intros H Hty Hf Hcat. apply fit_node_inv in H.
  destruct H as [c ->|b nd' l r Hs Hn L1 L2 Hl Hr ->].
  - destruct nd; discriminate.
  - destruct (fit_step_sides _ _ _ _ _ _ _ _ Hl Hr) as [Htrue Hfalse].
    apply search_split_good in Hs. pose proof Hs as [ft [Hft _]].
    destruct (set_nonterminal_inv _ _ _ _ _ Hft Hn) as [_ [Hf' Hsv]].
    simpl in Hf. rewrite Hf' in Hf. injection Hf as <-.
    rewrite Hcat in Hft. injection Hft as <-.
    destruct (threshold_best b) as [thr|cs] eqn:E; [contradiction|].
    exists cs. split; [exact Hsv|].
    apply (good_split_partitions self sub_X b cs); assumption.
Qed.

Lemma fit_node_categories_partition_witness :
  let self := {| _feature_types := [categorical]; _max_depth := None;
                 _min_samples_split := None; _min_samples_leaf := None |} in
  let X := [[Categ "A"]; [Categ "B"]; [Categ "C"];
            [Categ "A"]; [Categ "B"]; [Categ "C"]]%string in
  let t := Node (Some nonterminal) None (Some 0%nat) None
                (Some [Categ "B"]%string)
                (Some (set_terminal empty_node 0%Z))
                (Some (Node (Some nonterminal) None (Some 0%nat) None
                            (Some [Categ "C"]%string)
                            (Some (set_terminal empty_node 0%Z))
                            (Some (set_terminal empty_node 1%Z)))) in
  exists cs, categories_split t = Some cs /\
             partitions_categories (column 0 X) cs.
Proof.
  intros self X t.
  apply (fit_node_categories_partition 7 self X [1; 0; 0; 1; 0; 1]%Z
           empty_node 0 t 0).
  - vm_compute. reflexivity.
  - reflexivity.
  - reflexivity.
  - reflexivity.
Defined.

(** *** Prediction *)

Lemma predict_node_unfold (self : DecisionTree) (x : list cell) (nd : node) :
  _predict_node self x nd =
  (ty <- lookup KeyError (ntype nd) ;;
   match ty with
   | terminal => lookup KeyError (nclass nd)
   | nonterminal =>
       feature <- lookup KeyError (feature_split nd) ;;
       ft <- lookup IndexError (nth_error (_feature_types self) feature) ;;
       match ft with
       | real =>
           v <- lookup IndexError (nth_error x feature) ;;
           t <- lookup KeyError (threshold nd) ;;
           b <- cell_lt v t ;;
           if b then
             match left_child nd with
             | Some l => _predict_node self x l
             | None => Raise KeyError
             end
           else
             match right_child nd with
             | Some r => _predict_node self x r
             | None => Raise KeyError
             end
       | categorical =>
           v <- lookup IndexError (nth_error x feature) ;;
           cats <- lookup KeyError (categories_split nd) ;;
           if isin v cats then
             match left_child nd with
             | Some l => _predict_node self x l
             | None => Raise KeyError
             end
           else
             match right_child nd with
             | Some r => _predict_node self x r
             | None => Raise KeyError
             end
       end
   end).
Proof. destruct nd; reflexivity. Qed.




(** *** Two runs *)

Lemma set_terminal_twice (nd : node) (c : Z) :
  set_terminal (set_terminal nd c) c = set_terminal nd c.
Proof. reflexivity. Qed.

Lemma predict_set_terminal (self : DecisionTree) (x : list cell) (nd : node)
    (c : Z) :
  _predict_node self x (set_terminal nd c) = Ok c.
Proof. reflexivity. Qed.

(** The writes of an inner node do not depend on the dictionary written
    into. *)
Lemma set_nonterminal_cases (self : DecisionTree) (b : best_split) :
  (exists e, forall nd, set_nonterminal self nd b = Raise e) \/
  (exists t,
      nth_error (_feature_types self) (feature_best b) = Some real /\
      forall nd, set_nonterminal self nd b
                 = Ok (set_threshold
                         (set_feature_split (set_type nd nonterminal)
                                            (feature_best b)) t)) \/
  (exists cs,
      nth_error (_feature_types self) (feature_best b) = Some categorical /\
      forall nd, set_nonterminal self nd b
                 = Ok (set_categories_split
                         (set_feature_split (set_type nd nonterminal)
                                            (feature_best b)) cs)).
Proof.
  unfold set_nonterminal.
  destruct (nth_error (_feature_types self) (feature_best b)) as [[|]|];
    simpl.
  - destruct (threshold_best b) as [t|cs].
    + right; left. exists t. split; reflexivity.
    + left. exists TypeError. reflexivity.
  - destruct (threshold_best b) as [t|cs].
    + left. exists TypeError. reflexivity.
    + right; right. exists cs. split; reflexivity.
  - left. exists IndexError. reflexivity.
Qed.

Lemma fit_node_same_writes (fuel : nat) (self : DecisionTree) (sub_X : matrix)
    (sub_y : list Z) (depth : nat) (nd nd' : node) :
  same_writes self nd nd' (_fit_node fuel self sub_X sub_y nd depth)
              (_fit_node fuel self sub_X sub_y nd' depth).
Proof.
  destruct fuel as [|fuel]; [exact I|].
  rewrite !fit_node_unfold.
  destruct (getitem sub_y 0) as [y0| |]; simpl; try easy.
  destruct (forallb _ sub_y); [left; now exists y0|].
  destruct (search_split self sub_X sub_y depth) as [best| |]; simpl;
    try easy.
  assert (Hterm : same_writes self nd nd'
                    (c <- most_common1 (Counter Z.eqb sub_y) ;;
                     Ok (set_terminal nd c))
                    (c <- most_common1 (Counter Z.eqb sub_y) ;;
                     Ok (set_terminal nd' c))).
  { destruct (most_common1 _) as [c| |]; simpl; try easy.
    left; now exists c. }
  destruct best as [b|]; [|exact Hterm].
  destruct (match _min_samples_split self with
            | Some m => (Z.of_nat (length sub_X) <? m)%Z
            | None => false
            end); [exact Hterm|].
  assert (Hrest : forall m m',
             set_nonterminal self nd b = Ok m ->
             set_nonterminal self nd' b = Ok m' ->
             same_writes self nd nd'
               (X_l <- mask_select (split b) sub_X ;;
                y_l <- mask_select (split b) sub_y ;;
                l <- _fit_node fuel self X_l y_l empty_node (S depth) ;;
                X_r <- mask_select (map negb (split b)) sub_X ;;
                y_r <- mask_select (map negb (split b)) sub_y ;;
                r <- _fit_node fuel self X_r y_r empty_node (S depth) ;;
                Ok (set_children m l r))
               (X_l <- mask_select (split b) sub_X ;;
                y_l <- mask_select (split b) sub_y ;;
                l <- _fit_node fuel self X_l y_l empty_node (S depth) ;;
                X_r <- mask_select (map negb (split b)) sub_X ;;
                y_r <- mask_select (map negb (split b)) sub_y ;;
                r <- _fit_node fuel self X_r y_r empty_node (S depth) ;;
                Ok (set_children m' l r))).
  { intros m m' Hm Hm'.
    destruct (mask_select (split b) sub_X) as [X_l| |]; simpl; try easy.
    destruct (mask_select (split b) sub_y) as [y_l| |]; simpl; try easy.
    destruct (_fit_node fuel self X_l y_l empty_node (S depth)) as [l| |];
      simpl; try easy.
    destruct (mask_select (map negb (split b)) sub_X) as [X_r| |]; simpl;
      try easy.
    destruct (mask_select (map negb (split b)) sub_y) as [y_r| |]; simpl;
      try easy.
    destruct (_fit_node fuel self X_r y_r empty_node (S depth)) as [r| |];
      simpl; try easy.
    right. now exists b, m, m', l, r. }
  destruct (set_nonterminal_cases self b) as [[e He]|[[t [_ Ht]]|[cs [_ Hc]]]].
  - rewrite !He. reflexivity.
  - rewrite (Ht nd), (Ht nd'). cbn [bind]. now apply Hrest.
  - rewrite (Hc nd), (Hc nd'). cbn [bind]. now apply Hrest.
Qed.

Lemma predict_same_writes (self : DecisionTree) (nd nd' t t' : node) :
  same_writes self nd nd' (Ok t) (Ok t') ->
  forall x, _predict_node self x t' = _predict_node self x t.
Proof.
  intros [[c [-> ->]]|[b [m [m' [l [r [Hm [Hm' [-> ->]]]]]]]]] x.
  - reflexivity.
  - destruct (set_nonterminal_cases self b)
      as [[e He]|[[t [Hft Ht]]|[cs [Hft Hc]]]].
    + rewrite He in Hm. discriminate.
    + rewrite Ht in Hm, Hm'. injection Hm as <-. injection Hm' as <-.
      rewrite !predict_node_unfold. simpl. rewrite Hft. reflexivity.
    + rewrite Hc in Hm, Hm'. injection Hm as <-. injection Hm' as <-.
      rewrite !predict_node_unfold. simpl. rewrite Hft. reflexivity.
Qed.

Lemma refit_same_writes (self : DecisionTree) (nd t t' : node) :
  same_writes self nd t (Ok t) (Ok t') -> t' = t.
Proof.
  intros [[c [E ->]]|[b [m [m' [l [r [Hm [Hm' [E ->]]]]]]]]].
  - rewrite E. reflexivity.
  - destruct (set_nonterminal_cases self b)
      as [[e He]|[[thr [_ Ht]]|[cs [_ Hc]]]].
    + rewrite He in Hm. discriminate.
    + rewrite Ht in Hm, Hm'. injection Hm as <-. injection Hm' as <-.
      rewrite E. reflexivity.
    + rewrite Hc in Hm, Hm'. injection Hm as <-. injection Hm' as <-.
      rewrite E. reflexivity.
Qed.

(** C9.  A second run of [fit] on the same input, on the object that the
    first run has fitted, leaves the tree as it is; a run on an object in
    any other state builds a tree that predicts the same labels on every
    query matrix. *)
Theorem fit_twice_same (self : DecisionTree) (X : matrix) (y : list Z)
    (tree t1 : node) :
  fit self X y tree = Ok t1 ->
  fit self X y t1 = Ok t1 /\
  forall tree', exists t2,
      fit self X y tree' = Ok t2 /\
      forall Xq, predict self Xq t2 = predict self Xq t1.
Proof.
  intros H. unfold fit in *.
  assert (Hany : forall tree', exists t2,
             _fit_node (S (length y)) self X y tree' 0 = Ok t2 /\
             same_writes self tree tree' (Ok t1) (Ok t2)).
  { intros tree'.
    pose proof (fit_node_same_writes (S (length y)) self X y 0 tree tree')
      as Hs.
    rewrite H in Hs.
    destruct (_fit_node (S (length y)) self X y tree' 0) as [t2| |];
      try contradiction.
    now exists t2. }
  split.
  - destruct (Hany t1) as [t2 [H2 Hs]]. rewrite H2. f_equal.
    now apply (refit_same_writes self tree).
  - intros tree'. destruct (Hany tree') as [t2 [H2 Hs]].
    exists t2. split; [exact H2|].
    intros Xq. unfold predict.
    pose proof (predict_same_writes self tree tree' t1 t2 Hs) as Hp.
    induction Xq as [|x Xq IH]; simpl; [reflexivity|].
    now rewrite Hp, IH.
Qed.

Lemma fit_twice_same_witness :
  let self := {| _feature_types := [real]; _max_depth := Some 1%Z;
                 _min_samples_split := None; _min_samples_leaf := None |} in
  let X := [[Real 1]; [Real 2]; [Real 3]; [Real 4]] in
  let y := [0; 0; 1; 1]%Z in
  let t1 := Node (Some nonterminal) None (Some 0%nat) (Some (Fin (5 # 2))) None
                 (Some (set_terminal empty_node 0%Z))
                 (Some (set_terminal empty_node 1%Z)) in
  fit self X y t1 = Ok t1 /\
  forall tree', exists t2,
      fit self X y tree' = Ok t2 /\
      forall Xq, predict self Xq t2 = predict self Xq t1.
Proof.
  intros self X y t1.
  apply (fit_twice_same self X y empty_node t1).
  vm_compute. reflexivity.
Defined.

(** *** The scenario of the specification *)

(** C1.  On [X = [[1],[2],[3],[4],[5],[6]]], [y = [0,0,0,1,1,1]] and
    [max_depth = 1], [fit] builds an inner node on feature 0 with the
    threshold 3.5, a left child predicting 0 and a right child predicting 1,
    and [predict] answers [0, 1] on [[0],[10]]. *)
Theorem fit_predict_scenario :
  let self := {| _feature_types := [real]; _max_depth := Some 1%Z;
                 _min_samples_split := None; _min_samples_leaf := None |} in
  let X := [[Real 1]; [Real 2]; [Real 3]; [Real 4]; [Real 5]; [Real 6]] in
  let y := [0; 0; 0; 1; 1; 1]%Z in
  let root := Node (Some nonterminal) None (Some 0%nat) (Some (Fin (7 # 2))) None
                   (Some (Node (Some terminal) (Some 0%Z)
                               None None None None None))
                   (Some (Node (Some terminal) (Some 1%Z)
                               None None None None None)) in
  fit self X y empty_node = Ok root /\
  7 # 2 == 3.5 /\
  predict self [[Real 0]; [Real 10]] root = Ok [0; 1]%Z.
Proof.
  intros self X y root. split; [|split].
  - vm_compute. reflexivity.
  - reflexivity.
  - vm_compute. reflexivity.
Qed.

(** *** Sample matrix and labels of different lengths *)

(** C7, as the code behaves: a pure label vector is answered by a terminal
    node without any look at the sample matrix. *)
Lemma fit_mismatch_counterexample :
  let self := {| _feature_types := [real]; _max_depth := None;
                 _min_samples_split := None; _min_samples_leaf := None |} in
  let X := [[Real 1]; [Real 2]] in
  let y := [0]%Z in
  length X <> length y /\
  fit self X y empty_node = Ok (set_terminal empty_node 0%Z) /\
  ~ (exists e, fit self X y empty_node = Raise e).
Proof.
  intros self X y. split; [|split].
  - discriminate.
  - reflexivity.
  - intros [e He]. discriminate.
Qed.

(** C7, amended.  [fit] does not compare the lengths.  When they differ, a
    non-empty label vector whose labels are all [c] yields a terminal node
    holding [c], and whatever [fit] returns is a terminal node: no inner
    node is built. *)
Theorem fit_mismatch (self : DecisionTree) (X : matrix) (y : list Z)
    (tree : node) :
  length X <> length y ->
  (forall c, y <> [] -> (forall l, In l y -> l = c) ->
             fit self X y tree = Ok (set_terminal tree c)) /\
  (forall t, fit self X y tree = Ok t ->
             exists c, t = set_terminal tree c /\ ntype t = Some terminal).
Proof.
  intros Hlen. split.
  - intros c Hne Hall. unfold fit.
    now apply (fit_node_pure_eq self X y tree 0 (length y) c).
  - intros t H. unfold fit in H. apply fit_node_inv in H.
    destruct H as [c ->|b nd' l r _ _ L1 L2 _ _ _].
    + exists c. split; reflexivity.
    + congruence.
Qed.

Lemma fit_mismatch_witness :
  let self := {| _feature_types := [real]; _max_depth := None;
                 _min_samples_split := None; _min_samples_leaf := None |} in
  let X := [[Real 1]; [Real 2]; [Real 3]] in
  let y := [1; 1]%Z in
  (forall c, y <> [] -> (forall l, In l y -> l = c) ->
             fit self X y empty_node = Ok (set_terminal empty_node c)) /\
  (forall t, fit self X y empty_node = Ok t ->
             exists c, t = set_terminal empty_node c /\
                       ntype t = Some terminal).
Proof.
  intros self X y. apply (fit_mismatch self X y empty_node). discriminate.
Defined.

(** *** Well-formed inputs are fitted *)

Lemma nodup_by_In (x : cell) (l : list cell) :
  In x (nodup_by cell_eqb l) -> In x l.
Proof.
  induction l as [|a l IH]; simpl; [tauto|].
  destruct (existsb (cell_eqb a) l); simpl; intuition.
Qed.

Lemma nodup_by_head (x : cell) (l r : list cell) :
  nodup_by cell_eqb l = x :: r -> isin x r = false.
Proof.
  revert x r; induction l as [|a l IH]; simpl; intros x r H; [discriminate|].
  destruct (existsb (cell_eqb a) l) eqn:E; [now apply IH|].
  injection H as <- <-. rewrite isin_nodup_by. exact E.
Qed.

Lemma n_unique_two_distinct (fvc : list cell) (fv : list Q) :
  (n_unique fvc <=? 1)%nat = false -> as_float64 fvc = Ok fv ->
  two_distinct fv.
Proof.
  intros Hn Hf. apply Nat.leb_gt in Hn. unfold n_unique in Hn.
  destruct (nodup_by cell_eqb fvc) as [|x [|y r]] eqn:E; simpl in Hn; try lia.
  pose proof (nodup_by_head _ _ _ E) as Hx.
  assert (Ix : In x fvc) by (apply nodup_by_In; rewrite E; now left).
  assert (Iy : In y fvc) by (apply nodup_by_In; rewrite E; right; now left).
  simpl in Hx. apply orb_false_iff in Hx as [Hxy _].
  apply as_float64_inv in Hf.
  assert (G : forall c, In c fvc -> exists q, c = Real q /\ In q fv).
  { clear -Hf. induction Hf as [|c q l l' Hc _ IH]; intros c' [].
    - subst. exists q. split; [reflexivity | now left].
    - destruct (IH c' H) as [q' [-> Hq']]. exists q'. split; [reflexivity|].
      now right. }
  destruct (G x Ix) as [a [-> Ha]]. destruct (G y Iy) as [b [-> Hb]].
  exists a, b. repeat split; try assumption.
  simpl in Hxy. now apply Qeq_bool_false.
Qed.

Lemma Counter_isin (x : cell) (xs : list cell) :
  isin x (map fst (Counter cell_eqb xs)) = isin x xs.
Proof.
  unfold Counter.
  assert (G : forall xs c,
             isin x (map fst (fold_left
                                (fun c k => counter_add cell_eqb k c) xs c))
             = isin x (map fst c) || isin x xs).
  { clear xs. induction xs as [|k xs IH]; intros c; simpl.
    - now rewrite orb_false_r.
    - rewrite IH, counter_add_isin. now rewrite orb_assoc. }
  now rewrite G.
Qed.

Lemma dict_get_some {V : Type} (d : list (cell * V)) (x : cell) :
  isin x (map fst d) = true -> exists r, dict_get cell_eqb d x = Some r.
Proof.
  induction d as [|[k v] d IH]; simpl; [discriminate|].
  rewrite (cell_eqb_sym x k). destruct (cell_eqb k x); simpl.
  - intros _. now exists v.
  - exact IH.
Qed.

Lemma mask_select_ok {A : Type} (mask : list bool) (v : list A) :
  length mask = length v -> mask_select mask v = Ok (select mask v).
Proof.
  intros H. unfold mask_select. apply Nat.eqb_eq in H. now rewrite H.
Qed.

Lemma dict_get_combine_seq (ks : list cell) (s : nat) (x : cell) (r : nat) :
  dict_get cell_eqb (combine ks (seq s (length ks))) x = Some r ->
  (s <= r)%nat /\ exists k, nth_error ks (r - s) = Some k /\
                            cell_eqb k x = true.
Proof.
  revert s; induction ks as [|k ks IH]; intros s; simpl; [discriminate|].
  destruct (cell_eqb k x) eqn:E.
  - intros H; injection H as <-. split; [lia|].
    exists k. rewrite Nat.sub_diag. now split.
  - intros H. destruct (IH (S s) H) as [Hle [k' [Hk' Ek']]].
    split; [lia|]. exists k'. split; [|assumption].
    replace (r - s)%nat with (S (r - S s)) by lia. exact Hk'.
Qed.

Lemma counter_add_length {K : Type} (eqb : K -> K -> bool) (k : K)
    (c : list (K * Z)) :
  (length (counter_add eqb k c) <= S (length c))%nat.
Proof.
  induction c as [|[k' n] c IH]; simpl; [lia|].
  destruct (eqb k' k); simpl; lia.
Qed.

Lemma Counter_length {K : Type} (eqb : K -> K -> bool) (xs : list K) :
  (length (Counter eqb xs) <= length xs)%nat.
Proof.
  unfold Counter.
  assert (G : forall xs c,
             (length (fold_left (fun c k => counter_add eqb k c) xs c)
              <= length c + length xs)%nat).
  { clear xs. induction xs as [|k xs IH]; intros c; simpl; [lia|].
    specialize (IH (counter_add eqb k c)).
    pose proof (counter_add_length eqb k c). lia. }
  apply (G xs []).
Qed.

(** The encoding of a column returns: every category has a rank, and the
    ranks are below the number of rows. *)
Lemma encode_categorical_total (col : list cell) (sub_y : list Z) :
  length sub_y = length col ->
  exists cm fvc, encode_categorical col sub_y = Ok (cm, fvc) /\
                 forall c, In c fvc ->
                           exists r, c = Real (NQ r) /\ (r < length col)%nat.
Proof.
  intros Hlen. unfold encode_categorical.
  rewrite mask_select_ok by now rewrite length_map. cbn [bind].
  set (ratio := map _ (Counter cell_eqb col)).
  set (ks := map fst (sorted_by snd ratio)).
  set (cm := combine ks _).
  assert (Hks : (length ks <= length col)%nat).
  { unfold ks.
    rewrite length_map, (Permutation_length (sorted_by_perm snd ratio)).
    unfold ratio. rewrite length_map. apply Counter_length. }
  assert (Hkeys : forall x, In x col -> isin x (map fst cm) = true).
  { intros x Hx. unfold cm.
    rewrite map_fst_combine by now rewrite length_seq.
    unfold ks.
    rewrite (isin_perm x _ _ (Permutation_map fst (sorted_by_perm snd ratio))).
    unfold ratio. rewrite map_map. simpl.
    change (map (fun x0 : cell * Z => fst x0) (Counter cell_eqb col))
      with (map fst (Counter cell_eqb col)).
    rewrite Counter_isin. now apply isin_In. }
  assert (G : forall l, (forall x, In x l -> In x col) ->
             exists fvc,
               mapM (fun x => r <- lookup KeyError (dict_get cell_eqb cm x) ;;
                              Ok (Real (NQ r))) l = Ok fvc /\
               forall c, In c fvc ->
                         exists r, c = Real (NQ r) /\ (r < length col)%nat).
  { induction l as [|x l IH]; intros Hl; simpl.
    - exists []. split; [reflexivity|]. intros c [].
    - destruct (dict_get_some cm x (Hkeys x (Hl x (or_introl eq_refl))))
        as [r Hr].
      rewrite Hr. cbn [lookup bind].
      destruct IH as [fvc [H1 H2]]; [intros; apply Hl; now right|].
      rewrite H1. cbn [bind]. eexists. split; [reflexivity|].
      intros c [<-|Hc]; [|now apply H2].
      exists r. split; [reflexivity|].
      apply dict_get_combine_seq in Hr as [_ [k [Hk _]]].
      assert (r - 0 < length ks)%nat by (apply nth_error_Some; congruence).
      lia. }
  destruct (G col (fun x H => H)) as [fvc [H1 H2]].
  rewrite H1. cbn [bind]. now exists cm, fvc.
Qed.

Lemma as_float64_length (v : list cell) (fv : list Q) :
  as_float64 v = Ok fv -> length fv = length v.
Proof. apply mapM_length. Qed.

Lemma numbers_In (q : Q) (col : list cell) :
  In q (numbers col) <-> In (Real q) col.
Proof.
  unfold numbers. rewrite in_flat_map. split.
  - intros [[q'|s] [Hc Hq]]; simpl in Hq; [|contradiction].
    destruct Hq as [<-|[]]. exact Hc.
  - intros H. exists (Real q). split; [assumption | now left].
Qed.

Lemma as_float64_numbers (col : list cell) (fv : list Q) :
  as_float64 col = Ok fv -> fv = numbers col.
Proof.
  intros H. apply as_float64_inv in H.
  induction H as [|c q col fv Hc _ IH]; [reflexivity|].
  subst c. simpl. now f_equal.
Qed.

Lemma as_float64_total (col : list cell) :
  (forall c, In c col -> exists q, c = Real q /\ convertible q) ->
  as_float64 col = Ok (numbers col).
Proof.
  unfold as_float64. induction col as [|c col IH]; intros H; [reflexivity|].
  destruct (H c (or_introl eq_refl)) as [q [-> Hq]].
  cbn [mapM]. rewrite (to_float64_ok q Hq). cbn [bind].
  rewrite IH by (intros; apply H; now right). reflexivity.
Qed.

Lemma len_unique_reals (col : list cell) :
  (forall c, In c col -> exists q, c = Real q) ->
  len_unique col = Ok (n_unique col).
Proof.
  intros H. unfold len_unique.
  assert (E : existsb (fun c => negb (is_real c)) col = false).
  { apply not_true_is_false. intros Hex.
    apply existsb_exists in Hex as [c [Hc Hn]].
    destruct (H c Hc) as [q ->]. discriminate. }
  rewrite E, andb_false_r. reflexivity.
Qed.

(** Ranks are well separated. *)
Lemma well_separated_ranks (fv : list Q) (n : nat) :
  (Z.of_nat n <= 2 ^ 52)%Z ->
  (forall q, In q fv -> exists r, q = NQ r /\ (r < n)%nat) ->
  well_separated fv.
Proof.
  intros Hn H.
  assert (B : (2 ^ 52 <= 2 ^ 53)%Z) by (apply Z.pow_le_mono_r; lia).
  split.
  - intros q Hq. destruct (H q Hq) as [r [-> Hr]]. unfold NQ.
    assert (F : is_float (inject_Z (Z.of_nat r)))
      by (apply is_float_int; lia).
    split; [exact F|]. apply small_convertible; [exact F | |].
    + rewrite <- inject_Z_opp, <- Zle_Qle. lia.
    + rewrite <- Zle_Qle. lia.
  - intros a b Ha Hb Hlt.
    destruct (H a Ha) as [ra [-> Hra]]. destruct (H b Hb) as [rb [-> Hrb]].
    unfold NQ in *. rewrite <- Zlt_Qlt in Hlt. apply mean2_int; lia.
Qed.

Lemma well_separated_incl (l l' : list Q) :
  (forall q, In q l' -> In q l) -> well_separated l -> well_separated l'.
Proof.
  intros Hi [H1 H2]. split; [intros q Hq; apply H1, Hi, Hq|].
  intros a b Ha Hb. apply H2; now apply Hi.
Qed.

Lemma mean2_comp (a b a' b' : Q) :
  a == a' -> b == b' -> mean2 a b = mean2 a' b'.
Proof.
  intros Ea Eb. unfold mean2, fadd.
  rewrite (rnd_comp (a + b) (a' + b')) by now rewrite Ea, Eb.
  reflexivity.
Qed.

(** On well separated numbers [find_best_split] returns a threshold with
    entries on both of its sides. *)
Lemma find_best_split_sided (fv : list Q) (tv : list Z) :
  well_separated fv -> (length fv <= length tv)%nat -> two_distinct fv ->
  exists ths Qs tb gb,
    find_best_split fv tv = Ok (ths, Qs, tb, gb) /\
    In true (map (fun v => lt_float v tb) fv) /\
    In false (map (fun v => lt_float v tb) fv).
Proof.
  intros [Hf Hm] Hlen H2.
  assert (Hc : Forall convertible fv)
    by (apply Forall_forall; intros q Hq; now apply Hf).
  assert (H2' : two_distinct (float64_array fv)).
  { destruct H2 as [a [b [Ha [Hb Hab]]]]. exists (rnd a), (rnd b).
    split; [now apply in_map|]. split; [now apply in_map|].
    rewrite (rnd_id a), (rnd_id b) by now apply Hf. exact Hab. }
  destruct (find_best_split_returns fv tv Hc Hlen H2')
    as [ths [Qs [tb [gb H]]]].
  exists ths, Qs, tb, gb. split; [exact H|].
  apply find_best_split_inv in H as [Hths [_ [i [_ [Hi [Htb _]]]]]].
  cbv zeta in Hths. rewrite thresholds_adjacent in Hths.
  unfold adjacent_means in Hths. subst ths. rewrite length_map in Hi.
  rewrite (nth_indep _ (Fin 0) (mean2 (snd (0, 0)) (fst (0, 0)))) in Htb
    by now rewrite length_map.
  rewrite (map_nth (fun ab => mean2 (snd ab) (fst ab))) in Htb.
  pose proof (nth_In _ (0, 0) Hi) as Hin.
  destruct (nth i _ (0, 0)) as [a' b']. cbn [fst snd] in Htb.
  destruct (neighbours_spec _ _ _ Hin) as [Ha' [Hb' [Hlt _]]].
  apply in_map_iff in Ha' as [a [Ea Ha]]. apply in_map_iff in Hb' as [b [Eb Hb]].
  destruct (Hf a Ha) as [Fa _]. destruct (Hf b Hb) as [Fb _].
  pose proof (rnd_id a Fa) as Ra. pose proof (rnd_id b Fb) as Rb.
  assert (Hab : a < b) by (subst a' b'; lra).
  destruct (Hm a b Ha Hb Hab) as [q [Hq Haq]].
  assert (Et : tb = Fin q).
  { rewrite Htb, <- Hq. apply mean2_comp; [rewrite <- Eb | rewrite <- Ea];
      assumption. }
  destruct (mean2_between a b q Fa Fb (Qlt_le_weak _ _ Hab) Hq) as [_ Hqb].
  rewrite Et. split; apply in_map_iff.
  - exists a. split; [|assumption]. simpl. now apply Qltb_lt.
  - exists b. split; [|assumption]. simpl. now apply Qltb_ge.
Qed.

Lemma encode_categorical_length (col : list cell) (sub_y : list Z)
    (cm : list (cell * nat)) (fvc : list cell) :
  encode_categorical col sub_y = Ok (cm, fvc) -> length fvc = length col.
Proof.
  intros H. apply encode_categorical_inv in H as [_ [_ H]].
  symmetry. eapply Forall2_length; eassumption.
Qed.

Lemma column_length (f : nat) (X : matrix) : length (column f X) = length X.
Proof. apply length_map. Qed.

(** The column of a feature, ready for [find_best_split]. *)
Lemma column_ready (self : DecisionTree) (ncols : nat) (sub_X : matrix)
    (sub_y : list Z) (feature : nat) (ft : feature_type) :
  well_formed self ncols sub_X sub_y -> separated self sub_X ->
  nth_error (_feature_types self) feature = Some ft ->
  exists cm fvc,
    match ft with
    | real => Ok ([], column feature sub_X)
    | categorical => encode_categorical (column feature sub_X) sub_y
    end = Ok (cm, fvc) /\
    length fvc = length sub_X /\
    len_unique fvc = Ok (n_unique fvc) /\
    as_float64 fvc = Ok (numbers fvc) /\
    well_separated (numbers fvc).
Proof.
  intros [Hrect [Hty [Htyped [Hlen Hne]]]] [Hn Hsep] Eft.
  destruct ft.
  - exists [], (column feature sub_X).
    assert (Hreal : forall c, In c (column feature sub_X) ->
                              exists q, c = Real q).
    { intros c Hc. apply in_map_iff in Hc as [row [<- Hrow]].
      exact (Htyped feature row Eft Hrow). }
    pose proof (Hsep feature Eft) as Hws.
    split; [reflexivity|]. split; [apply column_length|].
    split; [now apply len_unique_reals|]. split; [|exact Hws].
    apply as_float64_total. intros c Hc. destruct (Hreal c Hc) as [q ->].
    exists q. split; [reflexivity|]. apply Hws. now apply numbers_In.
  - destruct (encode_categorical_total (column feature sub_X) sub_y)
      as [cm [fvc [H1 H2]]]; [now rewrite column_length|].
    exists cm, fvc. split; [exact H1|].
    rewrite column_length in H2.
    assert (Hws : well_separated (numbers fvc)).
    { apply (well_separated_ranks _ (length sub_X)); [assumption|].
      intros q Hq. apply numbers_In in Hq.
      destruct (H2 _ Hq) as [r [E Hr]]. injection E as ->. now exists r. }
    split; [rewrite (encode_categorical_length _ _ _ _ H1);
            apply column_length|].
    split.
    { apply len_unique_reals. intros c Hc.
      destruct (H2 c Hc) as [r [-> _]]. now eexists. }
    split; [|exact Hws].
    apply as_float64_total. intros c Hc. destruct (H2 c Hc) as [r [-> Hr]].
    eexists. split; [reflexivity|]. apply Hws. now apply numbers_In.
Qed.

Lemma fit_feature_total (self : DecisionTree) (ncols : nat) (sub_X : matrix)
    (sub_y : list Z) (feature : nat) (best : option best_split) :
  well_formed self ncols sub_X sub_y -> separated self sub_X ->
  (feature < ncols)%nat -> two_sided best ->
  exists best', fit_feature self sub_X sub_y feature best = Ok best' /\
                two_sided best'.
Proof.
  intros Hwf Hsep Hf Hbest. unfold fit_feature.
  pose proof Hwf as [Hrect [Hty [Htyped [Hlen Hne]]]].
  destruct (nth_error (_feature_types self) feature) as [ft|] eqn:Eft.
  2:{ apply nth_error_None in Eft. lia. }
  cbn [lookup bind].
  destruct (column_ready self ncols sub_X sub_y feature ft Hwf Hsep Eft)
    as [cm [fvc [Hcol [Hl [Hlu [Hfv Hws]]]]]].
  rewrite Hcol. cbn [bind]. rewrite Hlu. cbn [bind].
  destruct (n_unique fvc <=? 1)%nat eqn:En; [now exists best|].
  rewrite Hfv. cbn [bind].
  pose proof (as_float64_length _ _ Hfv) as Hlfv.
  destruct (find_best_split_sided (numbers fvc) sub_y Hws)
    as [ths [Qs [tb [gb [Hb [Ht Hfa]]]]]].
  { lia. }
  { eapply n_unique_two_distinct; eassumption. }
  rewrite Hb. cbn [bind].
  rewrite !mask_select_ok by (rewrite length_map; lia). cbn [bind].
  match goal with
  | |- exists _, (if ?c then _ else _) = _ /\ _ => destruct c
  end; eexists; (split; [reflexivity|]); [now split | assumption].
Qed.

Lemma foldM_total_inv {A S : Type} (P : S -> Prop)
    (f : A -> S -> result S) (l : list A) (s : S) :
  (forall a s, In a l -> P s -> exists s', f a s = Ok s' /\ P s') ->
  P s -> exists s', foldM f l s = Ok s' /\ P s'.
Proof.
  revert s; induction l as [|a l IH]; intros s H Hs; simpl; [now exists s|].
  destruct (H a s (or_introl eq_refl) Hs) as [s1 [H1 P1]].
  rewrite H1. cbn [bind].
  apply IH; [|assumption]. intros a' s' Ha'. apply H. now right.
Qed.

Lemma shape1_rectangular (ncols : nat) (X : matrix) :
  rectangular ncols X -> X <> [] -> shape1 X = ncols.
Proof.
  intros H Hne. destruct X as [|row X]; [congruence|].
  now inversion H.
Qed.

Lemma search_split_total (self : DecisionTree) (ncols : nat) (sub_X : matrix)
    (sub_y : list Z) (depth : nat) :
  well_formed self ncols sub_X sub_y -> separated self sub_X ->
  exists best, search_split self sub_X sub_y depth = Ok best /\
               two_sided best.
Proof.
  intros Hwf Hsep. unfold search_split.
  destruct (continue_split_condition _ _ _); [|now exists None].
  apply foldM_total_inv; [|exact I]. intros f s Hf Hs. apply in_seq in Hf.
  apply (fit_feature_total self ncols); try assumption.
  destruct Hwf as [Hrect [_ [_ [Hlen Hne]]]].
  rewrite (shape1_rectangular ncols) in Hf; [lia | assumption|].
  intros ->. destruct sub_y; [congruence | discriminate].
Qed.

Lemma counter_add_nonempty {K : Type} (eqb : K -> K -> bool) (k : K)
    (c : list (K * Z)) :
  counter_add eqb k c <> [].
Proof. destruct c as [|[k' n] c]; simpl; [|destruct (eqb k' k)]; discriminate. Qed.

Lemma most_common1_total (y : list Z) :
  y <> [] -> exists c, most_common1 (Counter Z.eqb y) = Ok c.
Proof.
  intros Hne. unfold Counter.
  assert (G : forall l c, c <> [] ->
             fold_left (fun c k => counter_add Z.eqb k c) l c <> []).
  { induction l as [|k l IH]; intros c Hc; simpl; [assumption|].
    apply IH, counter_add_nonempty. }
  destruct y as [|k y]; [congruence|]. simpl.
  specialize (G y (counter_add Z.eqb k []) (counter_add_nonempty _ _ _)).
  destruct (fold_left _ y _); [congruence|]. simpl. now eexists.
Qed.

Lemma select_In {A : Type} (mask : list bool) (v : list A) (a : A) :
  In a (select mask v) -> In a v.
Proof.
  revert v; induction mask as [|b mask IH]; intros [|x v]; simpl; try tauto.
  destruct b; simpl; intuition.
Qed.

Lemma select_length_same {A B : Type} (mask : list bool) (v : list A)
    (w : list B) :
  length v = length w -> length (select mask v) = length (select mask w).
Proof.
  revert v w; induction mask as [|b mask IH]; intros [|x v] [|y w] H;
    simpl in *; try discriminate; try reflexivity.
  injection H as H. destruct b; simpl; now rewrite (IH v w H).
Qed.

Lemma select_nonempty {A : Type} (mask : list bool) (v : list A) :
  length mask = length v -> In true mask -> select mask v <> [].
Proof.
  revert v; induction mask as [|b mask IH]; intros [|x v] Hl Hin;
    simpl in *; try discriminate; try contradiction.
  injection Hl as Hl. destruct b; [discriminate|].
  destruct Hin as [|Hin]; [discriminate|]. now apply IH.
Qed.

Lemma well_formed_select (self : DecisionTree) (ncols : nat) (X : matrix)
    (y : list Z) (mask : list bool) :
  well_formed self ncols X y -> length mask = length X -> In true mask ->
  well_formed self ncols (select mask X) (select mask y).
Proof.
  intros [Hrect [Hty [Htyped [Hlen Hne]]]] Hl Hin. repeat split.
  - unfold rectangular in *. rewrite Forall_forall in *.
    intros row Hrow. apply Hrect. eapply select_In; eassumption.
  - assumption.
  - intros f row Hf Hrow. apply (Htyped f row Hf).
    eapply select_In; eassumption.
  - now apply select_length_same.
  - apply select_nonempty; [lia | assumption].
Qed.

Lemma column_select_In (f : nat) (mask : list bool) (X : matrix) (c : cell) :
  In c (column f (select mask X)) -> In c (column f X).
Proof.
  unfold column. intros H. apply in_map_iff in H as [row [<- Hrow]].
  apply (in_map (fun row => nth f row (Real 0))).
  eapply select_In; eassumption.
Qed.

Lemma separated_select (self : DecisionTree) (X : matrix) (mask : list bool) :
  separated self X -> separated self (select mask X).
Proof.
  intros [Hn H]. split.
  - pose proof (select_length_le mask X). lia.
  - intros f Hf.
    apply (well_separated_incl (numbers (column f X))); [|now apply H].
    intros q Hq. apply numbers_In. apply numbers_In in Hq.
    eapply column_select_In; eassumption.
Qed.

(** On a rectangular sample matrix whose real columns hold well separated
    numbers, with as many labels as rows and at least one, [_fit_node]
    returns a tree when it may nest more calls than there are labels. *)
Lemma fit_node_total (fuel : nat) (self : DecisionTree) (ncols : nat)
    (sub_X : matrix) (sub_y : list Z) (nd : node) (depth : nat) :
  (length sub_y < fuel)%nat -> well_formed self ncols sub_X sub_y ->
  separated self sub_X ->
  exists t, _fit_node fuel self sub_X sub_y nd depth = Ok t.
Proof.
  revert sub_X sub_y nd depth.
  induction fuel as [|fuel IH]; intros sub_X sub_y nd depth Hfuel Hwf Hsep;
    [lia|].
  rewrite fit_node_unfold.
  pose proof Hwf as [_ [_ [_ [Hlen Hne]]]].
  destruct sub_y as [|y0 ys] eqn:Ey; [congruence|].
  rewrite getitem_head. cbn [bind]. rewrite <- Ey in *. clear Hne.
  assert (Hne : sub_y <> []) by (rewrite Ey; discriminate).
  destruct (forallb _ sub_y); [now eexists|].
  destruct (search_split_total self ncols sub_X sub_y depth Hwf Hsep)
    as [best [Hbest Hsided]].
  rewrite Hbest. cbn [bind]. cbv zeta.
  destruct (most_common1_total sub_y Hne) as [c Hc].
  destruct best as [b|]; [|rewrite Hc; now eexists].
  destruct (match _min_samples_split self with
            | Some m => (Z.of_nat (length sub_X) <? m)%Z
            | None => false
            end); [rewrite Hc; now eexists|].
  apply search_split_good in Hbest.
  destruct Hbest as [ft [Hft [Hkind [Hsplit _]]]].
  destruct Hsided as [Htrue Hfalse].
  assert (Hls : length (split b) = length sub_X)
    by (rewrite Hsplit; apply length_map).
  assert (Hnt : exists nd', set_nonterminal self nd b = Ok nd').
  { unfold set_nonterminal. rewrite Hft. cbn [lookup bind].
    destruct ft, (threshold_best b); try contradiction; now eexists. }
  destruct Hnt as [nd' ->]. cbn [bind].
  rewrite !mask_select_ok by (rewrite ?length_map; lia). cbn [bind].
  destruct (IH (select (split b) sub_X) (select (split b) sub_y)
              empty_node (S depth)) as [l Hl].
  { pose proof (select_shorter_left (split b) sub_y ltac:(lia) Hfalse).
    lia. }
  { now apply well_formed_select. }
  { now apply separated_select. }
  rewrite Hl. cbn [bind].
  destruct (IH (select (map negb (split b)) sub_X)
              (select (map negb (split b)) sub_y) empty_node (S depth))
    as [r Hr].
  { pose proof (select_shorter_right (split b) sub_y ltac:(lia) Htrue).
    lia. }
  { apply well_formed_select; [assumption | now rewrite length_map|].
    apply in_map_iff. now exists false. }
  { now apply separated_select. }
  rewrite Hr. cbn [bind]. now eexists.
Qed.

(* ================================================================== *)
(** * Further properties of the code *)

(** ** find_best_split at its edges *)













(** X4.  What [find_best_split] returns has the shape its docstring
    promises: as many gains as thresholds, one less than there are distinct
    numbers in the converted feature vector, and the thresholds ascending;
    two thresholds can be the same number. *)
Theorem find_best_split_shape (fv : list Q) (tv : list Z)
    (ths : list float64) (Qs : list Q) (tb : float64) (gb : Q) :
  find_best_split fv tv = Ok (ths, Qs, tb, gb) ->
  length Qs = length ths /\
  StronglySorted le_float64 ths /\
  exists U, distinct_sorted_values (float64_array fv) U /\
            length U = S (length ths).
Proof.
  intros H. apply find_best_split_inv in H as [-> [-> [i [_ [Hi _]]]]].
  split; [symmetry; apply thresholds_gains_length|].
  split; [apply thresholds_sorted, dedup_sorted, sorted_values_sorted|].
  exists (dedup (sorted_values (float64_array fv))).
  split; [apply distinct_sorted_dedup|].
  rewrite thresholds_adjacent in *. unfold adjacent_means in *.
  rewrite length_map, adjacent_length in *.
  destruct (dedup (sorted_values (float64_array fv))); simpl in *; lia.
Qed.

Lemma find_best_split_shape_witness :
  length [- 1 # 4; - 1 # 2] = length [Fin (3 # 2); Fin (5 # 2)] /\
  StronglySorted le_float64 [Fin (3 # 2); Fin (5 # 2)] /\
  exists U, distinct_sorted_values (float64_array [3; 1; 2; 1; 3; 2]) U /\
            length U = S (length [Fin (3 # 2); Fin (5 # 2)]).
Proof.
  apply (find_best_split_shape [3; 1; 2; 1; 3; 2] [1; 0; 1; 0; 0; 1]%Z
           _ _ (Fin (3 # 2)) (- 1 # 4)).
  vm_compute. reflexivity.
Defined.

(** ** The sign of the gains *)

Lemma np_sum_constant_labels (S : list (Q * Z)) (c : Z) :
  (forall p, In p S -> snd p = c) ->
  np_sum (map snd S) = (c * Z.of_nat (length S))%Z.
Proof.
  induction S as [|p S IH]; intros H; [simpl; lia|].
  cbn -[Z.add Z.of_nat Z.mul]. fold (np_sum (map snd S)).
  rewrite Nat2Z.inj_succ, IH by (intros; apply H; now right).
  rewrite (H p) by now left. lia.
Qed.

(** A set of samples with one label has no impurity. *)
Lemma H_f64_pure (S : list (Q * Z)) :
  binary_samples S -> pure_samples S -> H_f64 S = 0.
Proof.
  intros Hb Hp. unfold H_f64. destruct S as [|p0 S'].
  - unfold positives. simpl. rewrite true_divide_zero. exact H_of_zero.
  - assert (Hc : forall p, In p (p0 :: S') -> snd p = snd p0)
      by (intros p Hin; apply Hp; [assumption | now left]).
    pose proof (np_sum_constant_labels _ _ Hc) as E.
    destruct (binary_counts _ Hb) as [P _]. fold (positives (p0 :: S')) in P.
    assert (C : snd p0 = 0%Z \/ snd p0 = 1%Z).
    { unfold binary_samples in Hb. rewrite Forall_forall in Hb.
      apply Hb. now left. }
    rewrite P, E. destruct C as [-> | ->].
    + rewrite Z.mul_0_l, true_divide_zero. exact H_of_zero.
    + rewrite Z.mul_1_l, true_divide_same by (simpl; lia). exact H_of_one.
Qed.

Lemma Gain_f64_sign (fv : list Q) (tv : list Z) (t : Q) :
  binary tv ->
  Gain_f64 fv tv t <= 0 /\
  (pure_samples (left_part t (combine fv tv)) /\
   pure_samples (right_part t (combine fv tv)) ->
   Gain_f64 fv tv t == 0).
Proof.
  intros Hbin. pose proof (binary_samples_combine fv tv Hbin) as Hb.
  unfold Gain_f64. cbv zeta. set (S := combine fv tv) in *.
  set (L := left_part t S). set (R := right_part t S).
  pose proof (H_f64_nonneg L) as HL. pose proof (H_f64_nonneg R) as HR.
  assert (WL : true_divide (- Z.of_nat (length L)) (Z.of_nat (length S)) <= 0)
    by (apply true_divide_nonpos; lia).
  assert (WR : 0 <= true_divide (Z.of_nat (length R)) (Z.of_nat (length S)))
    by (apply true_divide_nonneg; lia).
  unfold fsub, fmul. split.
  - apply rnd_nonpos.
    assert (A : rnd (true_divide (- Z.of_nat (length L))
                                 (Z.of_nat (length S)) * H_f64 L) <= 0)
      by (apply rnd_nonpos; nra).
    assert (B : 0 <= rnd (true_divide (Z.of_nat (length R))
                                      (Z.of_nat (length S)) * H_f64 R))
      by (apply rnd_nonneg; nra).
    lra.
  - intros [PL PR].
    rewrite (H_f64_pure L) by (try assumption; now apply binary_samples_filter).
    rewrite (H_f64_pure R) by (try assumption; now apply binary_samples_filter).
    rewrite !Qmult_0_r. rewrite rnd_zero.
    assert (E : 0 - 0 == 0) by ring. now rewrite (rnd_comp _ _ E).
Qed.

Lemma Forall2_map_in {A B : Type} (P : A -> B -> Prop) (f : A -> B)
    (l : list A) :
  (forall x, In x l -> P x (f x)) -> Forall2 P l (map f l).
Proof.
  induction l as [|a l IH]; intros H; simpl; constructor.
  - apply H. now left.
  - apply IH. intros x Hx. apply H. now right.
Qed.

(** X5.  With binary labels no gain is positive, and the gain of the split
    between two neighbours is zero when the labels on its left are all the
    same and the labels on its right are all the same. *)
Theorem find_best_split_gain_sign (fv : list Q) (tv : list Z)
    (ths : list float64) (Qs : list Q) (tb : float64) (gb : Q) :
  length tv = length fv -> binary tv ->
  find_best_split fv tv = Ok (ths, Qs, tb, gb) ->
  exists U,
    distinct_sorted_values (float64_array fv) U /\
    ths = adjacent_means U /\
    Forall2 (fun ab g =>
               g <= 0 /\
               (pure_samples (left_part (snd ab)
                                        (combine (float64_array fv) tv)) /\
                pure_samples (right_part (snd ab)
                                         (combine (float64_array fv) tv)) ->
                g == 0))
            (adjacent U) Qs.
Proof.
  intros Hlen Hbin H.
  apply find_best_split_inv in H as [-> [-> _]].
  exists (dedup (sorted_values (float64_array fv))).
  split; [apply distinct_sorted_dedup|].
  split; [apply thresholds_adjacent|].
  rewrite removelast_adjacent, map_map.
  assert (Hl : length tv = length (float64_array fv))
    by now rewrite float64_array_length.
  pose proof (fun a b q => gain_at_ref (float64_array fv) tv a b q Hl Hbin)
    as G.
  apply Forall2_map_in. intros [a b] Hab. cbn [fst snd].
  rewrite (G a b b Hab); [now apply Gain_f64_sign | | apply Qle_refl].
  now destruct (neighbours_spec _ _ _ Hab) as [_ [_ [Hlt _]]].
Qed.

Lemma find_best_split_gain_sign_witness :
  let fv := [1; 2; 3; 4] in
  let tv := [0; 0; 1; 1]%Z in
  exists U,
    distinct_sorted_values (float64_array fv) U /\
    [Fin (3 # 2); Fin (5 # 2); Fin (7 # 2)] = adjacent_means U /\
    Forall2 (fun ab g =>
               g <= 0 /\
               (pure_samples (left_part (snd ab)
                                        (combine (float64_array fv) tv)) /\
                pure_samples (right_part (snd ab)
                                         (combine (float64_array fv) tv)) ->
                g == 0))
            (adjacent U)
            [- 6004799503160661 # 18014398509481984; 0;
             - 1501199875790165 # 4503599627370496].
Proof.
  intros fv tv.
  apply (find_best_split_gain_sign fv tv _ _ (Fin (5 # 2)) 0).
  - reflexivity.
  - repeat (apply Forall_cons; [lia|]). apply Forall_nil.
  - vm_compute. reflexivity.
Defined.

(** ** The most frequent label *)

Lemma count_of_snoc (k x : Z) (seen : list Z) :
  count_of k (seen ++ [x]) = (count_of k seen + if Z.eqb x k then 1 else 0)%nat.
Proof.
  unfold count_of. rewrite count_occ_app. simpl.
  destruct (Z.eq_dec x k) as [->|N].
  - now rewrite Z.eqb_refl.
  - apply Z.eqb_neq in N. now rewrite N.
Qed.

Lemma counter_add_fresh (k : Z) (c : list (Z * Z)) :
  ~ In k (map fst c) -> counter_add Z.eqb k c = c ++ [(k, 1%Z)].
Proof.
  induction c as [|[k' n] c IH]; simpl; intros H; [reflexivity|].
  destruct (Z.eqb k' k) eqn:E.
  - apply Z.eqb_eq in E. tauto.
  - rewrite IH by tauto. reflexivity.
Qed.

Lemma counter_add_known (k : Z) (c : list (Z * Z)) :
  NoDup (map fst c) -> In k (map fst c) ->
  exists c1 n c2, c = c1 ++ (k, n) :: c2 /\
                  counter_add Z.eqb k c = c1 ++ (k, (n + 1)%Z) :: c2 /\
                  ~ In k (map fst c1) /\ ~ In k (map fst c2).
Proof.
  induction c as [|[k' n] c IH]; simpl; intros Hnd Hin; [contradiction|].
  inversion Hnd as [|? ? Hk' Hnd']; subst.
  destruct (Z.eqb k' k) eqn:E.
  - apply Z.eqb_eq in E. subst k'.
    exists [], n, c. repeat split; auto.
  - apply Z.eqb_neq in E. destruct Hin as [->|Hin]; [congruence|].
    destruct (IH Hnd' Hin) as [c1 [m [c2 [-> [-> [H1 H2]]]]]].
    exists ((k', n) :: c1), m, c2. repeat split; auto.
    simpl. intros [F|F]; [congruence | tauto].
Qed.

Lemma counts_of_add (c : list (Z * Z)) (seen : list Z) (x : Z) :
  counts_of c seen -> counts_of (counter_add Z.eqb x c) (seen ++ [x]).
Proof.
  intros [Hnd [Hcnt [Hkeys Hord]]].
  destruct (in_dec Z.eq_dec x (map fst c)) as [Hin|Hout].
  - destruct (counter_add_known x c Hnd Hin)
      as [c1 [n [c2 [Ec [-> [H1 H2]]]]]].
    subst c. repeat split.
    + rewrite map_app in *. simpl in *. exact Hnd.
    + apply in_or_app. apply in_app_or in H as [H|[H|H]].
      * left. apply (Hcnt k n0). apply in_or_app. now left.
      * injection H as <- <-. left.
        apply (Hcnt x n). apply in_or_app. right; now left.
      * left. apply (Hcnt k n0). apply in_or_app. right; now right.
    + rewrite count_of_snoc. apply in_app_or in H as [H|[H|H]].
      * assert (x <> k).
        { intros ->. apply H1. apply in_map_iff. now exists (k, n0). }
        apply Z.eqb_neq in H0. rewrite H0, Nat.add_0_r.
        apply (Hcnt k n0). apply in_or_app. now left.
      * injection H as <- <-. rewrite Z.eqb_refl.
        destruct (Hcnt x n) as [_ ->]; [apply in_or_app; right; now left|].
        lia.
      * assert (x <> k).
        { intros ->. apply H2. apply in_map_iff. now exists (k, n0). }
        apply Z.eqb_neq in H0. rewrite H0, Nat.add_0_r.
        apply (Hcnt k n0). apply in_or_app. right; now right.
    + intros k Hk. rewrite map_app in *. simpl in *.
      apply in_app_or in Hk as [Hk|[<-|[]]]; [now apply Hkeys|].
      apply in_or_app. right; now left.
    + intros ks1 k1 ks2 k2 E Hin2.
      destruct (Hord ks1 k1 ks2 k2) as [s1 [s2 [-> Hs]]].
      * rewrite <- E. rewrite !map_app. reflexivity.
      * assumption.
      * exists s1, (s2 ++ [x]). split; [|assumption].
        now rewrite <- app_assoc.
  - rewrite (counter_add_fresh x c Hout).
    assert (Hx : ~ In x seen) by (intros F; apply Hout; now apply Hkeys).
    repeat split.
    + rewrite map_app. simpl. apply NoDup_app_remove_l with (l := []).
      simpl. apply Permutation_NoDup with (l := x :: map fst c).
      * apply Permutation_cons_append.
      * now constructor.
    + apply in_or_app. apply in_app_or in H as [H|[H|[]]].
      * left. now apply (Hcnt k n).
      * injection H as <- <-. right; now left.
    + rewrite count_of_snoc. apply in_app_or in H as [H|[H|[]]].
      * assert (x <> k).
        { intros ->. apply Hx. now apply (Hcnt k n). }
        apply Z.eqb_neq in H0. rewrite H0, Nat.add_0_r. now apply (Hcnt k n).
      * injection H as <- <-. rewrite Z.eqb_refl.
        assert (count_of x seen = 0%nat)
          by (apply count_occ_not_In; assumption).
        rewrite H. reflexivity.
    + intros k Hk. rewrite map_app. simpl.
      apply in_or_app. apply in_app_or in Hk as [Hk|[<-|[]]];
        [left; now apply Hkeys | right; now left].
    + intros ks1 k1 ks2 k2 E Hin2. rewrite map_app in E. simpl in E.
      destruct ks2 as [|q ks2 _] using rev_ind; [contradiction|].
      assert (E' : map fst c ++ [x] = (ks1 ++ k1 :: ks2) ++ [q])
        by (rewrite E, <- app_assoc; reflexivity).
      apply app_inj_tail in E' as [Ec <-].
      apply in_app_or in Hin2 as [Hin2|[<-|[]]].
      * destruct (Hord ks1 k1 ks2 k2 Ec Hin2) as [s1 [s2 [-> Hs]]].
        exists s1, (s2 ++ [x]). split; [|assumption].
        now rewrite <- app_assoc.
      * assert (Hk1 : In k1 seen).
        { assert (In k1 (map fst c))
            by (rewrite Ec; apply in_or_app; right; now left).
          apply in_map_iff in H as [[k n] [<- Hkn]]. now apply (Hcnt k n). }
        apply in_split in Hk1 as [s1 [s2 ->]].
        exists s1, (s2 ++ [x]). split; [now rewrite <- app_assoc|].
        intros F. apply Hx. apply in_or_app. now left.
Qed.

Lemma Counter_counts (y : list Z) : counts_of (Counter Z.eqb y) y.
Proof.
  unfold Counter.
  assert (G : forall xs c seen,
             counts_of c seen ->
             counts_of (fold_left (fun c k => counter_add Z.eqb k c) xs c)
                       (seen ++ xs)).
  { induction xs as [|x xs IH]; intros c seen H; simpl.
    - now rewrite app_nil_r.
    - replace (seen ++ x :: xs) with ((seen ++ [x]) ++ xs)
        by now rewrite <- app_assoc.
      apply IH. now apply counts_of_add. }
  apply (G y [] []). repeat split; try (intros; contradiction).
  - constructor.
  - intros ks1 k1 ks2 k2 E. destruct ks1; discriminate.
Qed.

(** [max] with a key keeps the first of the largest. *)
Lemma first_max_spec (c' : list (Z * Z)) (pre : list (Z * Z)) (best : Z * Z) :
  (exists p1 p2, pre = p1 ++ best :: p2 /\
                 (forall q, In q p1 -> (snd q < snd best)%Z) /\
                 (forall q, In q p2 -> (snd q <= snd best)%Z)) ->
  let r := fold_left (fun best kv' =>
                        if (snd best <? snd kv')%Z then kv' else best)
                     c' best in
  exists p1 p2, pre ++ c' = p1 ++ r :: p2 /\
                (forall q, In q p1 -> (snd q < snd r)%Z) /\
                (forall q, In q p2 -> (snd q <= snd r)%Z).
Proof.
  revert pre best; induction c' as [|kv c' IH]; intros pre best H; simpl.
  - rewrite app_nil_r. exact H.
  - destruct H as [p1 [p2 [-> [H1 H2]]]].
    replace ((p1 ++ best :: p2) ++ kv :: c')
      with (((p1 ++ best :: p2) ++ [kv]) ++ c')
      by now rewrite <- app_assoc.
    apply IH. destruct (snd best <? snd kv)%Z eqn:E.
    + apply Z.ltb_lt in E. exists (p1 ++ best :: p2), []. repeat split.
      * intros q Hq. apply in_app_or in Hq as [Hq|[<-|Hq]];
          [specialize (H1 q Hq) | | specialize (H2 q Hq)]; lia.
      * intros q [].
    + apply Z.ltb_ge in E. exists p1, (p2 ++ [kv]). repeat split.
      * now rewrite <- app_assoc.
      * assumption.
      * intros q Hq. apply in_app_or in Hq as [Hq|[<-|[]]];
          [now apply H2 | assumption].
Qed.

Lemma most_common1_spec (c : list (Z * Z)) (k : Z) :
  most_common1 c = Ok k ->
  exists n p1 p2, c = p1 ++ (k, n) :: p2 /\
                  (forall q, In q p1 -> (snd q < n)%Z) /\
                  (forall q, In q p2 -> (snd q <= n)%Z).
Proof.
  destruct c as [|kv c]; [discriminate|]. simpl. intros H; injection H as <-.
  destruct (first_max_spec c [kv] kv) as [p1 [p2 [E [H1 H2]]]].
  { exists [], []. repeat split; intros q []. }
  simpl in E.
  set (r := fold_left _ c kv) in *. destruct r as [k n]. simpl in *.
  now exists n, p1, p2.
Qed.

Lemma most_common1_first_mode (y : list Z) :
  (y = [] -> most_common1 (Counter Z.eqb y) = Raise IndexError) /\
  (y <> [] ->
   exists c, most_common1 (Counter Z.eqb y) = Ok c /\
             In c y /\
             (forall c', (count_of c' y <= count_of c y)%nat) /\
             (forall c', c' <> c -> count_of c' y = count_of c y ->
                         exists y1 y2, y = y1 ++ c :: y2 /\ ~ In c' y1)).
Proof.
  split; [intros ->; reflexivity|].
  intros Hne. destruct (most_common1_total y Hne) as [c Hc].
  exists c. split; [exact Hc|].
  destruct (Counter_counts y) as [Hnd [Hcnt [Hkeys Hord]]].
  apply most_common1_spec in Hc as [n [p1 [p2 [E [H1 H2]]]]].
  assert (Hn : In c y /\ n = Z.of_nat (count_of c y)).
  { apply Hcnt. rewrite E. apply in_or_app. right; now left. }
  destruct Hn as [Hin ->]. split; [exact Hin|]. split.
  - intros c'. destruct (in_dec Z.eq_dec c' y) as [Hc'|Hc'].
    + apply Hkeys in Hc'. apply in_map_iff in Hc' as [[k m] [<- Hkm]].
      simpl. destruct (Hcnt k m Hkm) as [_ Em].
      rewrite E in Hkm. apply in_app_or in Hkm as [Hkm|[Hkm|Hkm]].
      * specialize (H1 _ Hkm). simpl in H1. lia.
      * injection Hkm as <- _. lia.
      * specialize (H2 _ Hkm). simpl in H2. lia.
    + unfold count_of at 1. rewrite (proj1 (count_occ_not_In _ _ _) Hc'). lia.
  - intros c' Hneq Hsame.
    assert (Hc' : In c' y).
    { destruct (in_dec Z.eq_dec c' y) as [|N]; [assumption|].
      unfold count_of in Hsame at 1.
      rewrite (proj1 (count_occ_not_In _ _ _) N) in Hsame.
      symmetry in Hsame. apply count_occ_not_In in Hsame. contradiction. }
    apply Hkeys in Hc'. apply in_map_iff in Hc' as [[k m] [Ek Hkm]].
    simpl in Ek. subst k. destruct (Hcnt c' m Hkm) as [_ Em].
    rewrite E in Hkm. apply in_app_or in Hkm as [Hkm|[Hkm|Hkm]].
    + specialize (H1 _ Hkm). simpl in H1. lia.
    + injection Hkm as F _. congruence.
    + apply (Hord (map fst p1) c (map fst p2) c').
      * rewrite E, map_app. reflexivity.
      * apply in_map_iff. now exists (c', m).
Qed.

(** X6.  [Counter(sub_y).most_common(1)[0][0]] is a label of [sub_y] that
    no other label outnumbers, and of the labels that occur as often it is
    the one that [sub_y] meets first; on an empty [sub_y] it is an
    [IndexError]. *)
Theorem most_common1_mode (y : list Z) :
  (y = [] -> most_common1 (Counter Z.eqb y) = Raise IndexError) /\
  (y <> [] ->
   exists c, most_common1 (Counter Z.eqb y) = Ok c /\
             In c y /\
             (forall c', (count_of c' y <= count_of c y)%nat) /\
             (forall c', c' <> c -> count_of c' y = count_of c y ->
                         exists y1 y2, y = y1 ++ c :: y2 /\ ~ In c' y1)).
Proof. exact (most_common1_first_mode y). Qed.

Lemma most_common1_mode_witness :
  exists c, most_common1 (Counter Z.eqb [1; 0; 0; 1; 2]%Z) = Ok c /\
            In c [1; 0; 0; 1; 2]%Z /\
            (forall c', (count_of c' [1; 0; 0; 1; 2]%Z
                         <= count_of c [1; 0; 0; 1; 2]%Z)%nat) /\
            (forall c', c' <> c ->
                        count_of c' [1; 0; 0; 1; 2]%Z
                        = count_of c [1; 0; 0; 1; 2]%Z ->
                        exists y1 y2, [1; 0; 0; 1; 2]%Z = y1 ++ c :: y2 /\
                                      ~ In c' y1).
Proof.
  apply (proj2 (most_common1_mode [1; 0; 0; 1; 2]%Z)). discriminate.
Defined.

(** ** The tree, node by node *)

Lemma too_small_eq (self : DecisionTree) (sub_X : matrix) :
  match _min_samples_split self with
  | Some m => (Z.of_nat (length sub_X) <? m)%Z
  | None => false
  end = too_small self sub_X.
Proof. reflexivity. Qed.

Lemma is_mode_pure (y : list Z) (c : Z) :
  In c y -> (forall l, In l y -> l = c) -> is_mode c y.
Proof.
  intros Hin Hall. split; [assumption|]. intros c'.
  destruct (Z.eq_dec c' c) as [->|N]; [lia|].
  unfold count_of at 1. rewrite (proj1 (count_occ_not_In _ _ _)); [lia|].
  intros F. apply Hall in F. contradiction.
Qed.

Lemma is_mode_most_common (y : list Z) (c : Z) :
  most_common1 (Counter Z.eqb y) = Ok c -> is_mode c y.
Proof.
  intros H. destruct y as [|y0 y]; [discriminate|].
  destruct (proj2 (most_common1_first_mode (y0 :: y))) as [c' [Hc' [Hin [Hm _]]]];
    [discriminate|].
  rewrite H in Hc'. injection Hc' as <-. now split.
Qed.

Lemma search_split_some (self : DecisionTree) (sub_X : matrix)
    (sub_y : list Z) (depth : nat) (b : best_split) :
  search_split self sub_X sub_y depth = Ok (Some b) ->
  continue_split_condition self sub_X depth = true.
Proof.
  unfold search_split. destruct (continue_split_condition _ _ _);
    [reflexivity | discriminate].
Qed.

(** The two ways in which a call of [_fit_node] returns. *)
Lemma fit_node_cases (fuel : nat) (self : DecisionTree) (sub_X : matrix)
    (sub_y : list Z) (nd : node) (depth : nat) (t : node) :
  _fit_node (S fuel) self sub_X sub_y nd depth = Ok t ->
  (exists c, t = set_terminal nd c /\ is_mode c sub_y) \/
  (exists b nd' l r,
      search_split self sub_X sub_y depth = Ok (Some b) /\
      too_small self sub_X = false /\
      set_nonterminal self nd b = Ok nd' /\
      length (split b) = length sub_X /\
      length (split b) = length sub_y /\
      _fit_node fuel self (select (split b) sub_X) (select (split b) sub_y)
                empty_node (S depth) = Ok l /\
      _fit_node fuel self (select (map negb (split b)) sub_X)
                (select (map negb (split b)) sub_y) empty_node (S depth)
      = Ok r /\
      t = set_children nd' l r).
Proof.
  rewrite fit_node_unfold. intros H. inv_bind H.
  destruct sub_y as [|y0 ys] eqn:Ey; [discriminate|].
  rewrite getitem_head in Hm. injection Hm as <-. rewrite <- Ey in *.
  assert (Hy0 : In y0 sub_y) by (rewrite Ey; now left).
  destruct (forallb _ sub_y) eqn:Ep.
  { injection H as <-. left. exists y0. split; [reflexivity|].
    apply is_mode_pure; [assumption|]. intros l Hl.
    rewrite forallb_forall in Ep. now apply Z.eqb_eq, Ep. }
  inv_bind H. cbv zeta in H. rewrite too_small_eq in H.
  destruct a as [b|].
  2:{ inv_bind H. injection H as <-. left. exists a. split; [reflexivity|].
      now apply is_mode_most_common. }
  destruct (too_small self sub_X) eqn:Ets.
  { inv_bind H. injection H as <-. left. exists a. split; [reflexivity|].
    now apply is_mode_most_common. }
  apply bind_ok_inv in H as [nd' [Hn H]].
  apply bind_ok_inv in H as [X_l [HXl H]].
  apply bind_ok_inv in H as [y_l [Hyl H]].
  apply bind_ok_inv in H as [l [Hl H]].
  apply bind_ok_inv in H as [X_r [HXr H]].
  apply bind_ok_inv in H as [y_r [Hyr H]].
  apply bind_ok_inv in H as [r [Hr H]]. injection H as <-.
  apply mask_select_inv in HXl as [L1 ->].
  apply mask_select_inv in Hyl as [L2 ->].
  apply mask_select_inv in HXr as [_ ->].
  apply mask_select_inv in Hyr as [_ ->].
  right. exists b, nd', l, r. repeat split; assumption.
Qed.

Lemma forall_nodes_terminal (self : DecisionTree)
    (Pin : matrix -> list Z -> matrix -> list Z -> matrix -> list Z -> Prop)
    (Pleaf : Z -> matrix -> list Z -> Prop) (nd : node) (c : Z)
    (X : matrix) (y : list Z) :
  forall_nodes self Pin Pleaf (set_terminal nd c) X y <-> Pleaf c X y.
Proof. destruct nd; reflexivity. Qed.

Lemma forall_nodes_split (self : DecisionTree)
    (Pin : matrix -> list Z -> matrix -> list Z -> matrix -> list Z -> Prop)
    (Pleaf : Z -> matrix -> list Z -> Prop) (nd l r : node)
    (X : matrix) (y : list Z) :
  ntype nd = Some nonterminal ->
  forall_nodes self Pin Pleaf (set_children nd l r) X y <->
  (let m := map (goes_left self (set_children nd l r)) X in
   Pin X y (select m X) (select m y)
       (select (map negb m) X) (select (map negb m) y) /\
   forall_nodes self Pin Pleaf l (select m X) (select m y) /\
   forall_nodes self Pin Pleaf r (select (map negb m) X)
                (select (map negb m) y)).
Proof.
  destruct nd as [ty cl fs th cs lc rc]. simpl. intros ->. reflexivity.
Qed.

(** What holds at each step of the construction holds at each node of the
    tree. *)
Lemma fit_node_forall_nodes (self : DecisionTree)
    (Pin : matrix -> list Z -> matrix -> list Z -> matrix -> list Z -> Prop)
    (Pleaf : Z -> matrix -> list Z -> Prop) :
  (forall sub_X sub_y c, is_mode c sub_y -> Pleaf c sub_X sub_y) ->
  (forall sub_X sub_y depth b,
      search_split self sub_X sub_y depth = Ok (Some b) ->
      too_small self sub_X = false ->
      length (split b) = length sub_X ->
      length (split b) = length sub_y ->
      In true (split b) -> In false (split b) ->
      Pin sub_X sub_y (select (split b) sub_X) (select (split b) sub_y)
          (select (map negb (split b)) sub_X)
          (select (map negb (split b)) sub_y)) ->
  forall fuel sub_X sub_y nd depth t,
    _fit_node fuel self sub_X sub_y nd depth = Ok t ->
    forall_nodes self Pin Pleaf t sub_X sub_y.
Proof.
  intros HL HI. induction fuel as [|fuel IH];
    intros sub_X sub_y nd depth t H; [discriminate|].
  apply fit_node_cases in H
    as [[c [-> Hc]]|[b [nd' [l [r [Hs [Hts [Hn [L1 [L2 [Hl [Hr ->]]]]]]]]]]]].
  - apply forall_nodes_terminal. now apply HL.
  - pose proof (search_split_good _ _ _ _ _ Hs) as [ft [Hft [_ [Hsplit _]]]].
    destruct (set_nonterminal_inv _ _ _ _ _ Hft Hn) as [Hty _].
    apply forall_nodes_split; [assumption|]. cbv zeta.
    assert (E : map (goes_left self (set_children nd' l r)) sub_X = split b).
    { rewrite Hsplit. apply map_ext.
      apply (goes_left_routes self nd' l r b ft nd Hft Hn). }
    destruct (fit_step_sides _ _ _ _ _ _ _ _ Hl Hr) as [Htrue Hfalse].
    rewrite E. split; [now apply (HI sub_X sub_y depth)|].
    split; [eapply IH; eassumption | eapply IH; eassumption].
Qed.

(** X7.  Every terminal node of a fitted tree holds a most frequent label
    of the training labels whose rows reach it. *)
Theorem fit_leaves_hold_modes (self : DecisionTree) (X : matrix)
    (y : list Z) (tree t : node) :
  fit self X y tree = Ok t ->
  forall_nodes self (fun _ _ _ _ _ _ => True)
               (fun c _ y' => is_mode c y') t X y.
Proof.
  unfold fit. apply fit_node_forall_nodes; auto.
Qed.

Lemma fit_leaves_hold_modes_witness :
  let self := {| _feature_types := [real]; _max_depth := Some 1%Z;
                 _min_samples_split := None; _min_samples_leaf := None |} in
  let X := [[Real 1]; [Real 2]; [Real 3]; [Real 4]; [Real 5]] in
  let y := [0; 1; 0; 1; 1]%Z in
  let t := Node (Some nonterminal) None (Some 0%nat) (Some (Fin (7 # 2))) None
                (Some (set_terminal empty_node 0%Z))
                (Some (set_terminal empty_node 1%Z)) in
  forall_nodes self (fun _ _ _ _ _ _ => True)
               (fun c _ y' => is_mode c y') t X y.
Proof.
  intros self X y t. apply (fit_leaves_hold_modes self X y empty_node t).
  vm_compute. reflexivity.
Defined.

Lemma select_partition_length {A : Type} (mask : list bool) (v : list A) :
  length mask = length v ->
  (length (select mask v) + length (select (map negb mask) v)
   = length v)%nat.
Proof.
  revert v; induction mask as [|b mask IH]; intros [|a v] H; simpl in *;
    try discriminate; [reflexivity|].
  injection H as H. specialize (IH v H). destruct b; simpl; lia.
Qed.

(** X8.  At every inner node of a fitted tree the test sends at least one
    training row to each side, every row to exactly one side, and the
    labels along with their rows. *)
Theorem fit_inner_nodes_partition (self : DecisionTree) (X : matrix)
    (y : list Z) (tree t : node) :
  fit self X y tree = Ok t ->
  forall_nodes self
    (fun X y X_l y_l X_r y_r =>
       X_l <> [] /\ X_r <> [] /\
       (length X_l + length X_r = length X)%nat /\
       length y_l = length X_l /\ length y_r = length X_r)
    (fun _ _ _ => True) t X y.
Proof.
  unfold fit. apply fit_node_forall_nodes; [auto|].
  intros sub_X sub_y depth b Hs _ L1 L2 Htrue Hfalse.
  repeat split.
  - now apply select_nonempty.
  - apply select_nonempty; [now rewrite length_map|].
    apply in_map_iff. now exists false.
  - now apply select_partition_length.
  - apply select_length_same. congruence.
  - apply select_length_same. congruence.
Qed.

Lemma fit_inner_nodes_partition_witness :
  let self := {| _feature_types := [real]; _max_depth := Some 1%Z;
                 _min_samples_split := None; _min_samples_leaf := None |} in
  let X := [[Real 1]; [Real 2]; [Real 3]; [Real 4]; [Real 5]] in
  let y := [0; 1; 0; 1; 1]%Z in
  let t := Node (Some nonterminal) None (Some 0%nat) (Some (Fin (7 # 2))) None
                (Some (set_terminal empty_node 0%Z))
                (Some (set_terminal empty_node 1%Z)) in
  forall_nodes self
    (fun X y X_l y_l X_r y_r =>
       X_l <> [] /\ X_r <> [] /\
       (length X_l + length X_r = length X)%nat /\
       length y_l = length X_l /\ length y_r = length X_r)
    (fun _ _ _ => True) t X y.
Proof.
  intros self X y t. apply (fit_inner_nodes_partition self X y empty_node t).
  vm_compute. reflexivity.
Defined.

(** X9.  In a tree fitted with [min_samples_split = m] every inner node is
    reached by at least [m] training rows. *)
Theorem fit_min_samples_split (self : DecisionTree) (m : Z) (X : matrix)
    (y : list Z) (tree t : node) :
  _min_samples_split self = Some m ->
  fit self X y tree = Ok t ->
  forall_nodes self
    (fun X _ _ _ _ _ => (m <= Z.of_nat (length X))%Z)
    (fun _ _ _ => True) t X y.
Proof.
  intros Hm. unfold fit. apply fit_node_forall_nodes; [auto|].
  intros sub_X sub_y depth b _ Hts _ _ _ _.
  unfold too_small in Hts. rewrite Hm in Hts. now apply Z.ltb_ge in Hts.
Qed.

Lemma fit_min_samples_split_witness :
  let self := {| _feature_types := [real]; _max_depth := None;
                 _min_samples_split := Some 3%Z;
                 _min_samples_leaf := None |} in
  let X := [[Real 1]; [Real 2]; [Real 3]; [Real 4]; [Real 5]] in
  let y := [0; 1; 0; 1; 1]%Z in
  let t := Node (Some nonterminal) None (Some 0%nat) (Some (Fin (7 # 2))) None
                (Some (Node (Some nonterminal) None (Some 0%nat)
                            (Some (Fin (3 # 2))) None
                            (Some (set_terminal empty_node 0%Z))
                            (Some (set_terminal empty_node 1%Z))))
                (Some (set_terminal empty_node 1%Z)) in
  forall_nodes self
    (fun X _ _ _ _ _ => (3 <= Z.of_nat (length X))%Z)
    (fun _ _ _ => True) t X y.
Proof.
  intros self X y t. apply (fit_min_samples_split self 3 X y empty_node t).
  - reflexivity.
  - vm_compute. reflexivity.
Defined.

(** ** The depth of the tree *)

Lemma height_terminal (nd : node) (c : Z) : height (set_terminal nd c) = 0%nat.
Proof. destruct nd; reflexivity. Qed.

Lemma height_split (nd l r : node) :
  ntype nd = Some nonterminal ->
  height (set_children nd l r) = S (Nat.max (height l) (height r)).
Proof. destruct nd as [ty cl fs th cs lc rc]. simpl. now intros ->. Qed.

Lemma continue_split_depth (self : DecisionTree) (sub_X : matrix)
    (depth : nat) (d : Z) :
  _max_depth self = Some d ->
  continue_split_condition self sub_X depth = true ->
  (Z.of_nat depth < d)%Z.
Proof.
  unfold continue_split_condition. intros ->.
  destruct (_min_samples_split self); intros H.
  - apply andb_prop in H as [H _]. now apply Z.ltb_lt.
  - now apply Z.ltb_lt.
Qed.

Lemma fit_node_height (fuel : nat) (self : DecisionTree) (d : Z)
    (sub_X : matrix) (sub_y : list Z) (nd : node) (depth : nat) (t : node) :
  _max_depth self = Some d ->
  _fit_node fuel self sub_X sub_y nd depth = Ok t ->
  (Z.of_nat depth + Z.of_nat (height t) <= Z.max (Z.of_nat depth) d)%Z.
Proof.
  intros Hd. revert sub_X sub_y nd depth t.
  induction fuel as [|fuel IH]; intros sub_X sub_y nd depth t H;
    [discriminate|].
  apply fit_node_cases in H
    as [[c [-> Hc]]|[b [nd' [l [r [Hs [Hts [Hn [L1 [L2 [Hl [Hr ->]]]]]]]]]]]].
  - rewrite height_terminal. lia.
  - pose proof (search_split_good _ _ _ _ _ Hs) as [ft [Hft _]].
    destruct (set_nonterminal_inv _ _ _ _ _ Hft Hn) as [Hty _].
    rewrite (height_split _ _ _ Hty).
    apply search_split_some in Hs.
    pose proof (continue_split_depth _ _ _ _ Hd Hs) as Hlt.
    apply IH in Hl, Hr. lia.
Qed.

(** X10.  A tree fitted with [max_depth = d] has at most [d] tests on any
    way from the root to a terminal node; with [d <= 0] the root is a
    terminal node. *)
Theorem fit_max_depth (self : DecisionTree) (d : Z) (X : matrix)
    (y : list Z) (tree t : node) :
  _max_depth self = Some d ->
  fit self X y tree = Ok t ->
  (Z.of_nat (height t) <= Z.max 0 d)%Z /\
  ((d <= 0)%Z -> ntype t = Some terminal).
Proof.
  intros Hd H. unfold fit in H. split.
  - pose proof (fit_node_height _ _ _ _ _ _ _ _ Hd H). lia.
  - intros Hle. apply fit_node_cases in H
      as [[c [-> Hc]]|[b [nd' [l [r [Hs _]]]]]].
    + reflexivity.
    + apply search_split_some in Hs.
      pose proof (continue_split_depth _ _ _ _ Hd Hs). lia.
Qed.

Lemma fit_max_depth_witness :
  let self := {| _feature_types := [real]; _max_depth := Some 1%Z;
                 _min_samples_split := None; _min_samples_leaf := None |} in
  let t := Node (Some nonterminal) None (Some 0%nat) (Some (Fin (7 # 2))) None
                (Some (set_terminal empty_node 0%Z))
                (Some (set_terminal empty_node 1%Z)) in
  (Z.of_nat (height t) <= Z.max 0 1)%Z /\
  ((1 <= 0)%Z -> ntype t = Some terminal).
Proof.
  intros self t.
  apply (fit_max_depth self 1
           [[Real 1]; [Real 2]; [Real 3]; [Real 4]; [Real 5]]
           [0; 1; 0; 1; 1]%Z empty_node t).
  - reflexivity.
  - vm_compute. reflexivity.
Defined.

(** ** What a fitted tree predicts *)

Lemma predict_inner (self : DecisionTree) (x : list cell) (nd l r : node)
    (c : Z) :
  ntype nd = Some nonterminal ->
  left_child nd = Some l -> right_child nd = Some r ->
  _predict_node self x nd = Ok c ->
  _predict_node self x l = Ok c \/ _predict_node self x r = Ok c.
Proof.
  intros Hty Hl Hr. rewrite (predict_node_unfold self x nd).
  rewrite Hty, Hl, Hr. cbn [lookup bind]. intros H.
  apply bind_ok_inv in H as [f [_ H]].
  apply bind_ok_inv in H as [ft [_ H]].
  destruct ft.
  - apply bind_ok_inv in H as [v [_ H]].
    apply bind_ok_inv in H as [t [_ H]].
    apply bind_ok_inv in H as [b [_ H]].
    destruct b; [now left | now right].
  - apply bind_ok_inv in H as [v [_ H]].
    apply bind_ok_inv in H as [cs [_ H]].
    destruct (isin v cs); [now left | now right].
Qed.

Lemma is_mode_select (mask : list bool) (y : list Z) (c : Z) :
  is_mode c (select mask y) -> In c y.
Proof. intros [H _]. eapply select_In; eassumption. Qed.

Lemma fit_node_predicts_labels (fuel : nat) (self : DecisionTree)
    (sub_X : matrix) (sub_y : list Z) (nd : node) (depth : nat) (t : node) :
  _fit_node fuel self sub_X sub_y nd depth = Ok t ->
  forall x c, _predict_node self x t = Ok c -> In c sub_y.
Proof.
  revert sub_X sub_y nd depth t.
  induction fuel as [|fuel IH]; intros sub_X sub_y nd depth t H x c Hp;
    [discriminate|].
  apply fit_node_cases in H
    as [[c0 [-> [Hc _]]]|[b [nd' [l [r [Hs [Hts [Hn [L1 [L2 [Hl [Hr ->]]]]]]]]]]]].
  - rewrite predict_set_terminal in Hp. now injection Hp as <-.
  - pose proof (search_split_good _ _ _ _ _ Hs) as [ft [Hft _]].
    destruct (set_nonterminal_inv _ _ _ _ _ Hft Hn) as [Hty _].
    assert (Hty' : ntype (set_children nd' l r) = Some nonterminal)
      by exact Hty.
    destruct (predict_inner self x (set_children nd' l r) l r c
                Hty' eq_refl eq_refl Hp) as [Hp'|Hp'].
    + apply (select_In (split b) sub_y). exact (IH _ _ _ _ _ Hl x c Hp').
    + apply (select_In (map negb (split b)) sub_y).
      exact (IH _ _ _ _ _ Hr x c Hp').
Qed.

(** X11.  Whatever label a fitted tree predicts, for any row at all, is
    one of the training labels. *)
Theorem fit_predicts_training_labels (self : DecisionTree) (X : matrix)
    (y : list Z) (tree t : node) :
  fit self X y tree = Ok t ->
  (forall x c, _predict_node self x t = Ok c -> In c y) /\
  (forall Xq l, predict self Xq t = Ok l -> Forall (fun c => In c y) l).
Proof.
  intros H. unfold fit in H.
  pose proof (fit_node_predicts_labels _ _ _ _ _ _ _ H) as Hp.
  split; [exact Hp|].
  intros Xq l Hl. unfold predict in Hl. apply mapM_inv in Hl.
  induction Hl as [|x c Xq l Hx _ IH]; constructor; [|assumption].
  eapply Hp; eassumption.
Qed.

Lemma fit_predicts_training_labels_witness :
  let self := {| _feature_types := [real]; _max_depth := Some 1%Z;
                 _min_samples_split := None; _min_samples_leaf := None |} in
  let y := [0; 1; 0; 1; 1]%Z in
  let t := Node (Some nonterminal) None (Some 0%nat) (Some (Fin (7 # 2))) None
                (Some (set_terminal empty_node 0%Z))
                (Some (set_terminal empty_node 1%Z)) in
  (forall x c, _predict_node self x t = Ok c -> In c y) /\
  (forall Xq l, predict self Xq t = Ok l -> Forall (fun c => In c y) l).
Proof.
  intros self y t.
  apply (fit_predicts_training_labels self
           [[Real 1]; [Real 2]; [Real 3]; [Real 4]; [Real 5]] y empty_node t).
  vm_compute. reflexivity.
Defined.

(** ** Fitting and predicting without an exception *)

Lemma fit_feature_feature (self : DecisionTree) (sub_X : matrix)
    (sub_y : list Z) (feature : nat) (best : option best_split)
    (b' : best_split) :
  fit_feature self sub_X sub_y feature best = Ok (Some b') ->
  best = Some b' \/ feature_best b' = feature.
Proof.
  unfold fit_feature. intros H.
  apply bind_ok_inv in H as [ft [_ H]].
  apply bind_ok_inv in H as [[cm fvc] [_ H]].
  apply bind_ok_inv in H as [n [_ H]].
  destruct (n <=? 1)%nat; [left; now injection H|].
  apply bind_ok_inv in H as [fv [_ H]].
  apply bind_ok_inv in H as [[[[ths Qs] thr] gini] [_ H]].
  apply bind_ok_inv in H as [left [_ H]].
  apply bind_ok_inv in H as [right [_ H]].
  match type of H with
  | (if ?c then _ else _) = _ => destruct c
  end.
  - injection H as <-. now right.
  - left. now injection H.
Qed.

Lemma foldM_invariant_in {A S : Type} (P : S -> Prop)
    (f : A -> S -> result S) (l : list A) (s s' : S) :
  (forall a s s', In a l -> P s -> f a s = Ok s' -> P s') ->
  P s -> foldM f l s = Ok s' -> P s'.
Proof.
  revert s; induction l as [|a l IH]; simpl; intros s Hf Hs H.
  - now injection H as <-.
  - apply bind_ok_inv in H as [s1 [H1 H]].
    apply (IH s1); [|eapply Hf; eauto|assumption].
    intros a' t t' Ha'. apply Hf. now right.
Qed.

Lemma search_split_feature_bound (self : DecisionTree) (sub_X : matrix)
    (sub_y : list Z) (depth : nat) (b : best_split) :
  search_split self sub_X sub_y depth = Ok (Some b) ->
  (feature_best b < shape1 sub_X)%nat.
Proof.
  unfold search_split. destruct (continue_split_condition _ _ _);
    [|discriminate].
  intros H.
  refine (foldM_invariant_in
            (fun best => forall b, best = Some b ->
                                   (feature_best b < shape1 sub_X)%nat)
            _ _ None (Some b) _ _ H b eq_refl).
  - intros f s s' Hf Hs Hstep b' ->.
    apply fit_feature_feature in Hstep as [->| <-]; [now apply Hs|].
    apply in_seq in Hf. lia.
  - discriminate.
Qed.

Lemma well_formed_shape1 (self : DecisionTree) (ncols : nat) (X : matrix)
    (y : list Z) :
  well_formed self ncols X y -> shape1 X = ncols.
Proof.
  intros [Hrect [_ [_ [Hlen Hne]]]]. apply shape1_rectangular; [assumption|].
  intros ->. destruct y; [congruence | discriminate].
Qed.

(** At a node that a split has written, a well-formed row is routed like
    the rows of the subsample. *)
Lemma predict_node_routes (self : DecisionTree) (ncols : nat) (nd nd' l r : node)
    (b : best_split) (ft : feature_type) (x : list cell) :
  nth_error (_feature_types self) (feature_best b) = Some ft ->
  set_nonterminal self nd b = Ok nd' ->
  (feature_best b < ncols)%nat ->
  well_formed_row self ncols x ->
  _predict_node self x (set_children nd' l r)
  = if routes_left ft (feature_best b) (threshold_best b) x
    then _predict_node self x l else _predict_node self x r.
Proof.
  intros Hft Hn Hf [Hlen Hreal].
  destruct (set_nonterminal_inv _ _ _ _ _ Hft Hn) as [Hty [Hfs Hsv]].
  rewrite (predict_node_unfold self x (set_children nd' l r)).
  assert (E1 : ntype (set_children nd' l r) = Some nonterminal) by exact Hty.
  assert (E2 : feature_split (set_children nd' l r) = Some (feature_best b))
    by exact Hfs.
  rewrite E1, E2. cbn [lookup bind]. rewrite Hft. cbn [lookup bind].
  assert (Hx : nth_error x (feature_best b)
               = Some (nth (feature_best b) x (Real 0))).
  { apply nth_error_nth'. lia. }
  rewrite Hx. cbn [lookup bind].
  destruct ft, (threshold_best b) as [t|cs]; try contradiction.
  - assert (E3 : threshold (set_children nd' l r) = Some t) by exact Hsv.
    rewrite E3. cbn [lookup bind]. simpl routes_left.
    destruct (Hreal _ Hft) as [q ->]. reflexivity.
  - assert (E3 : categories_split (set_children nd' l r) = Some cs)
      by exact Hsv.
    rewrite E3. cbn [lookup bind]. reflexivity.
Qed.

Lemma fit_node_predict_total (fuel : nat) (self : DecisionTree) (ncols : nat)
    (sub_X : matrix) (sub_y : list Z) (nd : node) (depth : nat) (t : node) :
  well_formed self ncols sub_X sub_y ->
  _fit_node fuel self sub_X sub_y nd depth = Ok t ->
  forall x, well_formed_row self ncols x ->
            exists c, _predict_node self x t = Ok c.
Proof.
  revert sub_X sub_y nd depth t.
  induction fuel as [|fuel IH]; intros sub_X sub_y nd depth t Hwf H x Hx;
    [discriminate|].
  apply fit_node_cases in H
    as [[c0 [-> _]]|[b [nd' [l [r [Hs [Hts [Hn [L1 [L2 [Hl [Hr ->]]]]]]]]]]]].
  - exists c0. apply predict_set_terminal.
  - pose proof (search_split_good _ _ _ _ _ Hs) as [ft [Hft _]].
    destruct (fit_step_sides _ _ _ _ _ _ _ _ Hl Hr) as [Htrue Hfalse].
    pose proof (search_split_feature_bound _ _ _ _ _ Hs) as Hb.
    rewrite (well_formed_shape1 _ _ _ _ Hwf) in Hb.
    rewrite (predict_node_routes self ncols nd nd' l r b ft x Hft Hn Hb Hx).
    destruct (routes_left _ _ _ x).
    + apply (IH _ _ _ _ _ (well_formed_select _ _ _ _ _ Hwf L1 Htrue) Hl x Hx).
    + assert (Hwf' : well_formed self ncols
                       (select (map negb (split b)) sub_X)
                       (select (map negb (split b)) sub_y)).
      { apply well_formed_select; [assumption | now rewrite length_map|].
        apply in_map_iff. now exists false. }
      apply (IH _ _ _ _ _ Hwf' Hr x Hx).
Qed.

(** X12.  On a well-formed training set whose real columns hold well
    separated numbers, [_fit_node], when it may nest more calls than there
    are labels, returns a tree, and on every query matrix of well-formed
    rows [predict] then returns one training label for each row: neither
    call raises. *)
Theorem fit_predict_well_formed (fuel : nat) (self : DecisionTree)
    (ncols : nat) (X : matrix) (y : list Z) (tree : node) :
  well_formed self ncols X y -> separated self X ->
  (length y < fuel)%nat ->
  exists t, _fit_node fuel self X y tree 0 = Ok t /\
            forall Xq, Forall (well_formed_row self ncols) Xq ->
                       exists l, predict self Xq t = Ok l /\
                                 length l = length Xq /\
                                 Forall (fun c => In c y) l.
Proof.
  intros Hwf Hsep Hfuel.
  destruct (fit_node_total fuel self ncols X y tree 0 Hfuel Hwf Hsep)
    as [t Ht].
  exists t. split; [exact Ht|].
  intros Xq Hq.
  assert (Hl : exists l, predict self Xq t = Ok l).
  { unfold predict. induction Hq as [|x Xq Hx _ IH]; [now exists []|].
    destruct (fit_node_predict_total _ _ _ _ _ _ _ _ Hwf Ht x Hx) as [c Hc].
    destruct IH as [l Hl]. exists (c :: l). simpl. now rewrite Hc, Hl. }
  destruct Hl as [l Hl]. exists l. split; [exact Hl|]. split.
  - unfold predict in Hl. now apply mapM_length in Hl.
  - unfold predict in Hl. apply mapM_inv in Hl.
    clear Hq. induction Hl as [|x c Xq l Hx _ IH]; constructor; [|assumption].
    eapply fit_node_predicts_labels; eassumption.
Qed.

Lemma fit_predict_well_formed_witness :
  let self := {| _feature_types := [real; categorical]; _max_depth := None;
                 _min_samples_split := None; _min_samples_leaf := None |} in
  let X := [[Real 1; Categ "A"]; [Real 2; Categ "B"];
            [Real 3; Categ "A"]]%string in
  let y := [0; 1; 0]%Z in
  exists t, _fit_node 4 self X y empty_node 0 = Ok t /\
            forall Xq, Forall (well_formed_row self 2) Xq ->
                       exists l, predict self Xq t = Ok l /\
                                 length l = length Xq /\
                                 Forall (fun c => In c y) l.
Proof.
  intros self X y.
  apply (fit_predict_well_formed 4 self 2 X y empty_node).
  - repeat split.
    + repeat constructor.
    + simpl; lia.
    + intros f row Hf Hrow. destruct f as [|f]; simpl in Hf.
      * destruct Hrow as [<-|[<-|[<-|[]]]]; simpl; eexists; reflexivity.
      * destruct f; [discriminate|]. destruct f; discriminate.
    + discriminate.
  - split; [simpl; lia|]. intros f Hf.
    destruct f as [|f]; simpl in Hf;
      [|destruct f; [discriminate|]; destruct f; discriminate].
    apply (well_separated_ranks _ 4); [simpl; lia|].
    intros q [<-|[<-|[<-|[]]]];
      [exists 1%nat | exists 2%nat | exists 3%nat];
      (split; [reflexivity | lia]).
  - simpl; lia.
Defined.

(** ** A tree grown without restriction reproduces its training labels *)




















(** ** The constructor, [get_params], and the calls that come too early *)

Lemma feature_type_name_round (ft : feature_type) :
  feature_type_of_name (name_of_feature_type ft) = ft.
Proof. destruct ft; reflexivity. Qed.

Lemma name_feature_type_round (x : string) :
  x = "real"%string \/ x = "categorical"%string ->
  name_of_feature_type (feature_type_of_name x) = x.
Proof. intros [->| ->]; reflexivity. Qed.

Lemma unknown_name_test (x : string) :
  negb (String.eqb x "real") && negb (String.eqb x "categorical") = false
  <-> x = "real"%string \/ x = "categorical"%string.
Proof.
  destruct (String.eqb x "real") eqn:E1; simpl.
  - apply String.eqb_eq in E1. tauto.
  - destruct (String.eqb x "categorical") eqn:E2; simpl.
    + apply String.eqb_eq in E2. tauto.
    + apply String.eqb_neq in E1, E2. split; [discriminate | tauto].
Qed.

(** X14.  The constructor fails, with [ValueError], exactly when one of the
    feature types is neither ["real"] nor ["categorical"]; otherwise it
    returns an object with an empty tree and one type for each name given. *)
Theorem init_validates (feature_types : list string) (max_depth : option Z)
    (mss msl : option Z) :
  ((exists x, In x feature_types /\ x <> "real"%string /\
              x <> "categorical"%string) ->
   __init__ feature_types max_depth mss msl = Raise ValueError) /\
  ((forall x, In x feature_types ->
              x = "real"%string \/ x = "categorical"%string) ->
   exists self, __init__ feature_types max_depth mss msl
                = Ok (self, empty_node) /\
                length (_feature_types self) = length feature_types /\
                forall i x, nth_error feature_types i = Some x ->
                            nth_error (_feature_types self) i
                            = Some (if String.eqb x "real" then real
                                    else categorical)).
Proof.
  unfold __init__. split.
  - intros [x [Hin [H1 H2]]].
    assert (E : existsb (fun x => negb (String.eqb x "real")
                                  && negb (String.eqb x "categorical"))
                        feature_types = true).
    { apply existsb_exists. exists x. split; [assumption|].
      apply String.eqb_neq in H1, H2. now rewrite H1, H2. }
    now rewrite E.
  - intros Hall.
    assert (E : existsb (fun x => negb (String.eqb x "real")
                                  && negb (String.eqb x "categorical"))
                        feature_types = false).
    { destruct (existsb _ feature_types) eqn:E; [|reflexivity].
      apply existsb_exists in E as [x [Hin Hx]].
      apply Hall, unknown_name_test in Hin. congruence. }
    rewrite E. eexists. split; [reflexivity|]. simpl. split.
    + apply length_map.
    + intros i x Hi. rewrite nth_error_map, Hi. reflexivity.
Qed.

Lemma init_validates_witness :
  __init__ ["real"; "ordinal"]%string None None None = Raise ValueError /\
  exists self, __init__ ["real"; "categorical"]%string None None None
               = Ok (self, empty_node) /\
               length (_feature_types self) = 2%nat /\
               forall i x,
                 nth_error ["real"; "categorical"]%string i = Some x ->
                 nth_error (_feature_types self) i
                 = Some (if String.eqb x "real" then real else categorical).
Proof.
  split.
  - apply (proj1 (init_validates ["real"; "ordinal"]%string None None None)).
    exists "ordinal"%string. repeat split.
    + right; now left.
    + discriminate.
    + discriminate.
  - apply (proj2 (init_validates ["real"; "categorical"]%string
                    None None None)).
    intros x [<-|[<-|[]]]; [now left | now right].
Defined.

(** X15.  [get_params] gives back the arguments of the constructor, and the
    constructor called on the parameters of an object builds the same
    object with an empty tree. *)
Theorem get_params_round_trip :
  (forall feature_types max_depth mss msl self tree,
      __init__ feature_types max_depth mss msl = Ok (self, tree) ->
      get_params self
      = {| p_feature_types := feature_types; p_max_depth := max_depth;
           p_min_samples_split := mss; p_min_samples_leaf := msl |}) /\
  (forall self,
      __init__ (p_feature_types (get_params self))
               (p_max_depth (get_params self))
               (p_min_samples_split (get_params self))
               (p_min_samples_leaf (get_params self))
      = Ok (self, empty_node)).
Proof.
  split.
  - intros fts d s l self tree. unfold __init__.
    destruct (existsb _ fts) eqn:E; [discriminate|].
    intros H; injection H as <- _. unfold get_params. simpl. f_equal.
    rewrite map_map. rewrite <- (map_id fts) at 2. apply map_ext_in.
    intros x Hx. apply name_feature_type_round, unknown_name_test.
    destruct (negb (String.eqb x "real")
              && negb (String.eqb x "categorical")) eqn:F; [|reflexivity].
    assert (existsb (fun x => negb (String.eqb x "real")
                              && negb (String.eqb x "categorical")) fts
            = true) by (apply existsb_exists; now exists x).
    congruence.
  - intros [fts d s l]. unfold __init__, get_params. simpl.
    assert (E : existsb (fun x => negb (String.eqb x "real")
                                  && negb (String.eqb x "categorical"))
                        (map name_of_feature_type fts) = false).
    { induction fts as [|[|] fts IH]; simpl; auto. }
    rewrite E. do 3 f_equal. rewrite map_map.
    rewrite <- (map_id fts) at 2. apply map_ext.
    apply feature_type_name_round.
Qed.

Lemma get_params_round_trip_witness :
  let self := {| _feature_types := [real; categorical];
                 _max_depth := Some 3%Z; _min_samples_split := None;
                 _min_samples_leaf := Some 2%Z |} in
  get_params self
  = {| p_feature_types := ["real"; "categorical"]%string;
       p_max_depth := Some 3%Z; p_min_samples_split := None;
       p_min_samples_leaf := Some 2%Z |}.
Proof.
  intros self.
  apply (proj1 get_params_round_trip ["real"; "categorical"]%string
           (Some 3%Z) None (Some 2%Z) self empty_node).
  reflexivity.
Defined.

(** X16.  On the object as the constructor leaves it, before any [fit],
    [predict] fails with [KeyError] on every query matrix that has a row,
    and returns no label on the empty one. *)
Theorem predict_before_fit (feature_types : list string)
    (max_depth mss msl : option Z) (self : DecisionTree) (tree : node) :
  __init__ feature_types max_depth mss msl = Ok (self, tree) ->
  predict self [] tree = Ok [] /\
  forall x Xq, predict self (x :: Xq) tree = Raise KeyError.
Proof.
  unfold __init__. destruct (existsb _ feature_types); [discriminate|].
  intros H; injection H as _ <-. split; reflexivity.
Qed.

Lemma predict_before_fit_witness :
  let self := {| _feature_types := [real]; _max_depth := None;
                 _min_samples_split := None; _min_samples_leaf := None |} in
  predict self [] empty_node = Ok [] /\
  forall x Xq, predict self (x :: Xq) empty_node = Raise KeyError.
Proof.
  intros self.
  apply (predict_before_fit ["real"%string] None None None self empty_node).
  reflexivity.
Defined.

(** ** The choice among the features *)

(** The loop body compares the proposal of the feature with what is
    stored, and replaces it only by a strictly larger gain. *)
Lemma fit_feature_candidate (self : DecisionTree) (sub_X : matrix)
    (sub_y : list Z) (feature : nat) (best : option best_split) :
  fit_feature self sub_X sub_y feature best =
  match candidate self sub_X sub_y feature with
  | Ok (Some c) =>
      match best with
      | Some b0 => if Qltb (gini_best b0) (gini_best c) then Ok (Some c)
                   else Ok best
      | None => Ok (Some c)
      end
  | Ok None => Ok best
  | Raise e => Raise e
  | OutOfFuel => OutOfFuel
  end.
Proof.
  unfold candidate, fit_feature.
  destruct (lookup IndexError _) as [ft| |]; try reflexivity. cbn [bind].
  destruct (match ft with
            | real => Ok ([], column feature sub_X)
            | categorical => encode_categorical (column feature sub_X) sub_y
            end) as [[cm fvc]| |]; try reflexivity. cbn [bind].
  destruct (len_unique fvc) as [n| |]; try reflexivity. cbn [bind].
  destruct (n <=? 1)%nat; [reflexivity|].
  destruct (as_float64 fvc) as [fv| |]; try reflexivity. cbn [bind].
  destruct (find_best_split fv sub_y) as [[[[ths Qs] thr] gini]| |];
    try reflexivity. cbn [bind].
  destruct (mask_select _ sub_X) as [left| |]; try reflexivity. cbn [bind].
  destruct (mask_select _ sub_X) as [right| |]; try reflexivity. cbn [bind].
  destruct (match _min_samples_leaf self with
            | Some k => _
            | None => true
            end); simpl; [|reflexivity].
  destruct best as [b0|]; [|reflexivity].
  destruct (Qltb (gini_best b0) gini); reflexivity.
Qed.

Lemma candidate_feature (self : DecisionTree) (sub_X : matrix)
    (sub_y : list Z) (feature : nat) (c : best_split) :
  candidate self sub_X sub_y feature = Ok (Some c) -> feature_best c = feature.
Proof.
  intros H. apply fit_feature_feature in H as [H|H]; [discriminate | exact H].
Qed.

(** What is stored after the features [s, s+1, ..., s+n-1]. *)
Lemma foldM_features_best (self : DecisionTree) (sub_X : matrix)
    (sub_y : list Z) (n s : nat) (best best' : option best_split) :
  (forall b0, best = Some b0 ->
     (feature_best b0 < s)%nat /\
     candidate self sub_X sub_y (feature_best b0) = Ok (Some b0) /\
     forall f c, (f < s)%nat -> candidate self sub_X sub_y f = Ok (Some c) ->
                 gini_best c <= gini_best b0 /\
                 ((f < feature_best b0)%nat -> gini_best c < gini_best b0)) ->
  (best = None ->
     forall f c, (f < s)%nat -> candidate self sub_X sub_y f <> Ok (Some c)) ->
  foldM (fit_feature self sub_X sub_y) (seq s n) best = Ok best' ->
  (forall b, best' = Some b ->
     (feature_best b < s + n)%nat /\
     candidate self sub_X sub_y (feature_best b) = Ok (Some b) /\
     forall f c, (f < s + n)%nat ->
                 candidate self sub_X sub_y f = Ok (Some c) ->
                 gini_best c <= gini_best b /\
                 ((f < feature_best b)%nat -> gini_best c < gini_best b)) /\
  (best' = None ->
     forall f c, (f < s + n)%nat ->
                 candidate self sub_X sub_y f <> Ok (Some c)).
Proof.
  revert s best. induction n as [|n IH]; intros s best Hsome Hnone H.
  - simpl in H. injection H as <-. rewrite Nat.add_0_r. now split.
  - simpl in H. apply bind_ok_inv in H as [s1 [H1 H]].
    replace (s + S n)%nat with (S s + n)%nat by lia.
    apply (IH (S s) s1); [| |exact H]; clear IH H.
    + intros b1 ->. rewrite fit_feature_candidate in H1.
      destruct (candidate self sub_X sub_y s) as [[c|]| |] eqn:Ec;
        try discriminate.
      * pose proof (candidate_feature _ _ _ _ _ Ec) as Fc.
        destruct best as [b0|].
        -- destruct (Hsome b0 eq_refl) as [Hb0 [Cb0 Mb0]].
           destruct (Qltb (gini_best b0) (gini_best c)) eqn:Eq;
             injection H1 as <-.
           ++ apply Qltb_lt in Eq. rewrite Fc.
              split; [lia|]. split; [assumption|].
              intros f c' Hf Hc'.
              destruct (Nat.eq_dec f s) as [->|Hn].
              ** rewrite Ec in Hc'. injection Hc' as <-.
                 split; [lra | lia].
              ** destruct (Mb0 f c' ltac:(lia) Hc') as [M1 M2].
                 split; [lra|]. intros _. lra.
           ++ apply Qltb_ge in Eq.
              split; [lia|]. split; [assumption|].
              intros f c' Hf Hc'.
              destruct (Nat.eq_dec f s) as [->|Hn].
              ** rewrite Ec in Hc'. injection Hc' as <-.
                 split; [assumption | lia].
              ** apply Mb0; [lia | assumption].
        -- injection H1 as <-. rewrite Fc.
           split; [lia|]. split; [assumption|].
           intros f c' Hf Hc'.
           destruct (Nat.eq_dec f s) as [->|Hn].
           ++ rewrite Ec in Hc'. injection Hc' as <-. split; [lra | lia].
           ++ exfalso. apply (Hnone eq_refl f c'); [lia | assumption].
      * injection H1 as ->.
        destruct (Hsome b1 eq_refl) as [Hb0 [Cb0 Mb0]].
        split; [lia|]. split; [assumption|].
        intros f c' Hf Hc'.
        destruct (Nat.eq_dec f s) as [->|Hn]; [congruence|].
        apply Mb0; [lia | assumption].
    + intros ->. rewrite fit_feature_candidate in H1.
      destruct (candidate self sub_X sub_y s) as [[c|]| |] eqn:Ec;
        try discriminate.
      * destruct best as [b0|]; [|discriminate].
        destruct (Qltb _ _); discriminate.
      * injection H1 as ->. intros f c' Hf.
        destruct (Nat.eq_dec f s) as [->|Hn]; [congruence|].
        apply Hnone; [reflexivity | lia].
Qed.

(** X17.  The split that the search keeps is the proposal of its own
    feature; no feature proposes a larger gain, and every feature of a
    smaller index proposes a strictly smaller one: among equal gains the
    first feature wins.  When the search keeps nothing, no feature has
    proposed anything. *)
Theorem search_split_first_best (self : DecisionTree) (sub_X : matrix)
    (sub_y : list Z) (depth : nat) (best : option best_split) :
  continue_split_condition self sub_X depth = true ->
  search_split self sub_X sub_y depth = Ok best ->
  (forall b, best = Some b ->
     (feature_best b < shape1 sub_X)%nat /\
     candidate self sub_X sub_y (feature_best b) = Ok (Some b) /\
     forall f c, (f < shape1 sub_X)%nat ->
                 candidate self sub_X sub_y f = Ok (Some c) ->
                 gini_best c <= gini_best b /\
                 ((f < feature_best b)%nat -> gini_best c < gini_best b)) /\
  (best = None ->
     forall f c, (f < shape1 sub_X)%nat ->
                 candidate self sub_X sub_y f <> Ok (Some c)).
Proof.
  intros Hc. unfold search_split. rewrite Hc. intros H.
  apply (foldM_features_best self sub_X sub_y (shape1 sub_X) 0 None best);
    [discriminate | intros _ f c Hf; lia | exact H].
Qed.

Lemma search_split_first_best_witness :
  let self := {| _feature_types := [real; real]; _max_depth := None;
                 _min_samples_split := None; _min_samples_leaf := None |} in
  let X := [[Real 1; Real 5]; [Real 2; Real 6]; [Real 3; Real 7];
            [Real 4; Real 8]] in
  let y := [0; 0; 1; 1]%Z in
  let b := {| feature_best := 0; threshold_best := Thr (Fin (5 # 2));
              gini_best := 0;
              split := [true; true; false; false] |} in
  (forall b', Some b = Some b' ->
     (feature_best b' < shape1 X)%nat /\
     candidate self X y (feature_best b') = Ok (Some b') /\
     forall f c, (f < shape1 X)%nat ->
                 candidate self X y f = Ok (Some c) ->
                 gini_best c <= gini_best b' /\
                 ((f < feature_best b')%nat -> gini_best c < gini_best b')) /\
  (Some b = None ->
     forall f c, (f < shape1 X)%nat -> candidate self X y f <> Ok (Some c)).
Proof.
  intros self X y b.
  apply (search_split_first_best self X y 0 (Some b)).
  - reflexivity.
  - vm_compute. reflexivity.
Defined.

(** ** The ranks of the categories *)

Lemma count_cell_compat (k k' : cell) (col : list cell) :
  cell_eqb k k' = true -> count_cell k col = count_cell k' col.
Proof.
  intros E. unfold count_cell. do 2 f_equal. apply filter_ext.
  intros z. now apply cell_eqb_compat.
Qed.

Lemma count_cell_cons (k x : cell) (col : list cell) :
  count_cell k (x :: col)
  = ((if cell_eqb x k then 1 else 0) + count_cell k col)%Z.
Proof.
  unfold count_cell. simpl. rewrite (cell_eqb_sym k x).
  destruct (cell_eqb x k); simpl length; lia.
Qed.

Lemma count_cell_isin (k : cell) (col : list cell) :
  isin k col = false -> count_cell k col = 0%Z.
Proof.
  intros H. unfold count_cell.
  assert (E : filter (cell_eqb k) col = []).
  { induction col as [|x col IH]; simpl in *; [reflexivity|].
    apply orb_false_iff in H as [H1 H2]. rewrite H1. now apply IH. }
  now rewrite E.
Qed.

Lemma count_cell_pos (k : cell) (col : list cell) :
  isin k col = true -> (0 < count_cell k col)%Z.
Proof.
  intros H. unfold count_cell. unfold isin in H.
  apply existsb_exists in H as [x [Hx E]].
  assert (In x (filter (cell_eqb k) col)) by (apply filter_In; now split).
  destruct (filter _ col); [contradiction | simpl; lia].
Qed.

Lemma dict_get_counter_add (x k : cell) (c : list (cell * Z)) :
  dict_get cell_eqb (counter_add cell_eqb x c) k
  = if cell_eqb x k
    then Some (match dict_get cell_eqb c k with
               | Some n => n + 1
               | None => 1
               end)%Z
    else dict_get cell_eqb c k.
Proof.
  induction c as [|[k' n] c IH]; simpl.
  - destruct (cell_eqb x k); reflexivity.
  - destruct (cell_eqb k' x) eqn:E; simpl.
    + rewrite <- (cell_eqb_compat _ _ k E).
      destruct (cell_eqb k' k); reflexivity.
    + destruct (cell_eqb k' k) eqn:F.
      * assert (cell_eqb x k = false) as ->; [|reflexivity].
        destruct (cell_eqb x k) eqn:G; [|reflexivity].
        rewrite cell_eqb_sym in G.
        rewrite (cell_eqb_trans _ _ _ F G) in E. discriminate.
      * exact IH.
Qed.

(** A counter holds, for each key, the number of entries equal to it. *)
Lemma Counter_get (xs : list cell) (k : cell) :
  dict_get cell_eqb (Counter cell_eqb xs) k
  = if isin k xs then Some (count_cell k xs) else None.
Proof.
  unfold Counter.
  assert (G : forall xs c,
             dict_get cell_eqb
               (fold_left (fun c x => counter_add cell_eqb x c) xs c) k
             = if isin k xs
               then Some (count_cell k xs
                          + match dict_get cell_eqb c k with
                            | Some n => n
                            | None => 0
                            end)%Z
               else dict_get cell_eqb c k).
  { clear xs. induction xs as [|x xs IH]; intros c; [reflexivity|].
    simpl fold_left. rewrite IH, dict_get_counter_add.
    simpl isin. rewrite count_cell_cons, (cell_eqb_sym k x).
    destruct (cell_eqb x k); cbn [orb].
    - destruct (isin k xs) eqn:I.
      + f_equal. destruct (dict_get cell_eqb c k); lia.
      + rewrite (count_cell_isin _ _ I).
        f_equal. destruct (dict_get cell_eqb c k); lia.
    - reflexivity. }
  rewrite G. simpl. destruct (isin k xs); [|reflexivity]. f_equal. lia.
Qed.

Lemma dict_get_In {V : Type} (d : list (cell * V)) (k : cell) (v : V) :
  distinct_keys (map fst d) = true -> In (k, v) d ->
  dict_get cell_eqb d k = Some v.
Proof.
  induction d as [|[k' v'] d IH]; simpl; [contradiction|].
  intros Hd Hin. apply andb_prop in Hd as [H1 H2].
  destruct Hin as [Hin|Hin].
  - injection Hin as -> ->. now rewrite cell_eqb_refl.
  - destruct (cell_eqb k' k) eqn:E; [|now apply IH].
    exfalso. apply negb_true_iff in H1.
    assert (isin k' (map fst d) = true).
    { apply isin_true. exists k. split; [|assumption].
      apply in_map_iff. now exists (k, v). }
    congruence.
Qed.

Lemma positive_rate_compat (col : list cell) (y : list Z) (k k' : cell) :
  cell_eqb k k' = true ->
  positive_rate_f64 col y k = positive_rate_f64 col y k'.
Proof.
  intros E. unfold positive_rate_f64.
  now rewrite (count_cell_compat k k' col E),
              (count_cell_compat k k' _ E).
Qed.

Lemma positive_rate_rnd (col : list cell) (y : list Z) (k : cell) :
  positive_rate_f64 col y k = rnd (positive_rate col y k).
Proof. reflexivity. Qed.

Lemma sorted_nth_error_le {A : Type} (R : A -> A -> Prop) (l : list A)
    (i j : nat) (a b : A) :
  StronglySorted R l -> nth_error l i = Some a -> nth_error l j = Some b ->
  (i < j)%nat -> R a b.
Proof.
  intros Hs; revert i j; induction Hs as [|x l Hs IH Hx]; intros i j Hi Hj Hij.
  - destruct i; discriminate.
  - destruct j as [|j]; [lia|]. simpl in Hj. destruct i as [|i]; simpl in Hi.
    + injection Hi as <-. rewrite Forall_forall in Hx.
      apply Hx. eapply nth_error_In; eassumption.
    + apply (IH i j); [assumption | assumption | lia].
Qed.

(** X18.  The ranks that encode a categorical column: two rows get the
    same rank exactly when they hold the same category, every rank is below
    the number of categories in the map, and a row of smaller rank never has
    a larger share of the label 1 in its category, the share taken as the
    [float64] quotient of line 109; the exact share of the row of smaller
    rank is larger only when the two quotients are the same number. *)
Theorem encode_categorical_ranks (col : list cell) (sub_y : list Z)
    (cm : list (cell * nat)) (fvc : list cell) :
  encode_categorical col sub_y = Ok (cm, fvc) ->
  forall x1 c1 x2 c2,
    In (x1, c1) (combine col fvc) -> In (x2, c2) (combine col fvc) ->
    exists r1 r2,
      c1 = Real (NQ r1) /\ c2 = Real (NQ r2) /\
      (r1 < length cm)%nat /\
      (cell_eqb x1 x2 = true <-> r1 = r2) /\
      ((r1 < r2)%nat ->
       positive_rate_f64 col sub_y x1 <= positive_rate_f64 col sub_y x2 /\
       (positive_rate col sub_y x2 < positive_rate col sub_y x1 ->
        positive_rate_f64 col sub_y x1 == positive_rate_f64 col sub_y x2)).
Proof.
  intros H x1 c1 x2 c2 H1 H2.
  pose proof H as Hinj.
  pose proof (encode_categorical_inv _ _ _ _ H) as [_ [_ HF]].
  unfold encode_categorical in H.
  apply bind_ok_inv in H as [clicked [Hcl H]].
  apply bind_ok_inv in H as [fv [_ H]]. injection H as Ecm _.
  apply mask_select_inv in Hcl as [_ ->].
  set (clicked := select (map (fun l => Z.eqb l 1) sub_y) col) in *.
  set (ratio := map _ (Counter cell_eqb col)) in *.
  set (sorted := sorted_by snd ratio) in *.
  assert (G : forall x c, In (x, c) (combine col fvc) ->
             exists r, dict_get cell_eqb cm x = Some r /\ c = Real (NQ r)).
  { clear -HF. induction HF as [|x c col fvc Hx _ IH]; intros x' c' Hin;
      simpl in Hin; [contradiction|].
    destruct Hin as [Hin|Hin]; [injection Hin as <- <-; exact Hx | auto]. }
  destruct (G _ _ H1) as [r1 [D1 ->]]. destruct (G _ _ H2) as [r2 [D2 ->]].
  exists r1, r2. split; [reflexivity|]. split; [reflexivity|].
  (* every entry of [ratio] holds the rate of its key *)
  destruct (Counter_keys col) as [Hdist _].
  assert (Hrate : forall e, In e sorted ->
                            snd e = positive_rate_f64 col sub_y (fst e)).
  { intros e He.
    apply (Permutation_in _ (sorted_by_perm snd ratio)) in He.
    unfold ratio in He. apply in_map_iff in He as [[k n] [<- Hkn]].
    simpl. unfold positive_rate_f64.
    pose proof (dict_get_In _ _ _ Hdist Hkn) as Dk.
    rewrite Counter_get in Dk.
    destruct (isin k col) eqn:I; [|discriminate]. injection Dk as <-.
    rewrite Counter_get. fold clicked.
    destruct (isin k clicked) eqn:J; [reflexivity|].
    now rewrite (count_cell_isin _ _ J). }
  subst cm.
  pose proof D1 as D1'. pose proof D2 as D2'.
  apply dict_get_combine_seq in D1 as [_ [k1 [N1 E1]]].
  apply dict_get_combine_seq in D2 as [_ [k2 [N2 E2]]].
  rewrite Nat.sub_0_r in N1, N2.
  rewrite nth_error_map in N1, N2.
  destruct (nth_error sorted r1) as [e1|] eqn:S1; [|discriminate].
  destruct (nth_error sorted r2) as [e2|] eqn:S2; [|discriminate].
  simpl in N1, N2. injection N1 as <-. injection N2 as <-.
  split; [|split].
  - rewrite length_combine, length_seq, Nat.min_id, length_map.
    apply nth_error_Some. congruence.
  - split.
    + intros E. destruct (Nat.eq_dec r1 r2) as [|N]; [assumption|].
      exfalso.
      assert (F : dict_get cell_eqb
                    (combine (map fst sorted)
                             (seq 0 (length (map fst sorted)))) x2
                  = Some r1).
      { rewrite <- D1'. clear -E.
        induction (combine _ _) as [|[k v] d IH]; simpl; [reflexivity|].
        rewrite <- (cell_eqb_sym x2 k), <- (cell_eqb_compat _ _ k E),
          (cell_eqb_sym x1 k).
        destruct (cell_eqb k x1); [reflexivity | exact IH]. }
      congruence.
    + intros <-. rewrite S1 in S2. injection S2 as <-.
      rewrite cell_eqb_sym in E1. now apply (cell_eqb_trans _ (fst e1) _).
  - intros Hlt.
    pose proof (sorted_nth_error_le _ _ _ _ _ _
                  (sorted_by_sorted snd ratio) S1 S2 Hlt) as Hle.
    unfold key_le in Hle.
    rewrite (Hrate e1), (Hrate e2) in Hle
      by (eapply nth_error_In; eassumption).
    rewrite (positive_rate_compat col sub_y _ _ E1) in Hle.
    rewrite (positive_rate_compat col sub_y _ _ E2) in Hle.
    split; [exact Hle|]. intros Hgt.
    apply Qle_antisym; [exact Hle|].
    rewrite !positive_rate_rnd. apply rnd_mono. now apply Qlt_le_weak.
Qed.

Lemma encode_categorical_ranks_witness :
  let col := [Categ "A"; Categ "B"; Categ "C"; Categ "A"; Categ "B";
              Categ "C"]%string in
  let y := [1; 0; 0; 1; 0; 1]%Z in
  exists r1 r2,
    Real (NQ 0) = Real (NQ r1) /\ Real (NQ 2) = Real (NQ r2) /\
    (r1 < length [(Categ "B", 0); (Categ "C", 1);
                  (Categ "A", 2)]%string%nat)%nat /\
    (cell_eqb (Categ "B") (Categ "A") = true <-> r1 = r2) /\
    ((r1 < r2)%nat ->
     positive_rate_f64 col y (Categ "B") <= positive_rate_f64 col y (Categ "A")
     /\ (positive_rate col y (Categ "A") < positive_rate col y (Categ "B") ->
         positive_rate_f64 col y (Categ "B")
         == positive_rate_f64 col y (Categ "A"))).
Proof.
  intros col y.
  apply (encode_categorical_ranks col y
           [(Categ "B", 0); (Categ "C", 1); (Categ "A", 2)]%string%nat
           [Real (NQ 2); Real (NQ 0); Real (NQ 1); Real (NQ 2);
            Real (NQ 0); Real (NQ 1)]).
  - vm_compute. reflexivity.
  - right. left. reflexivity.
  - left. reflexivity.
Defined.
